(* ===== verification/_CoqProject ===== *)
-Q . S2P
Prelude.v
Js.v
Types.v
FileSystem.v
Collab.v
Limiter.v
Downloader.v
Single.v
Report.v
Fanout.v
Admission.v
Wellformed.v
Bounds.v
Capacity.v
Paths.v
Playlist.v
Join.v
Calls.v
Sound.v
SharedPool.v
Completion.v
Console.v
Files.v
