(* ===== verification/Prelude.v ===== *)
(** * Harmonix playlist downloader: a verification development

    The program ([src/src/downloader.ts], class [YoutubeDownloader]) takes a
    playlist URL and an output folder, lists the playlist through the
    playlist-listing library, downloads the audio of every item through the
    media-extraction library with a bounded number of downloads in flight, and
    prints a report: how many items succeeded and, in playlist order, which
    failed and why.

    ** Files, in dependency order

    - [Prelude] (this file): the completion type of a call (returned, threw,
      still pending), the state-passing monad [eff] with its notations in
      [eff_scope], the tactics and the hint databases [harmonix] and
      [harmonix_simpl], and the lemmas on lists, sums and measured step
      relations that the components share.
    - [Js]: the parts of the language the program relies on: thrown values and
      [instanceof Error], truthiness of strings, the nullish default [??],
      template literals, the console.
    - [Types]: the interfaces [DownloadOptions], [PlaylistItem],
      [DownloadResult] and the three static constants of the class.
    - [FileSystem]: a model of the calls into [node:fs] the program makes
      ([existsSync], [mkdir] with [recursive], [createWriteStream], a write,
      [unlink]); modelled from the specification, since the library is not
      part of the repository.
    - [Collab]: the external collaborators as a type class [Collaborators]
      ([createSlug], [path.join], the URL parser, the playlist lister, the
      media fetcher), the stream events, the world the program runs in, and
      one concrete instance ([Demo]) on which the witnesses evaluate: a
      playlist of [A], [B], [C] where the stream of [B] fails with status
      403, and two with a stream that hangs.
    - [Limiter]: the concurrency limiter ([p-limit]), modelled from the
      specification: its counter and FIFO queue, [enqueue], [resumeNext],
      [submit], [next]; an abstract specification with explicit lists of
      running and waiting tasks ([pool_step]), and the refinement between
      the two.
    - [Downloader]: the class itself: its fields, the constructor
      ([new_YoutubeDownloader]) with [validateInputs], [ensureOutputFolder],
      [getOutputPath], and what a downloader fresh from the constructor
      satisfies ([downloader_wf]).
    - [Single]: [downloadSingle], twice: in one go in the monad
      ([downloadSingle], with the promise executor as the fold [settle] of
      the three handlers over the events), and step by step ([Phase],
      [task_start], [task_step]), with the theorem that the two agree.
    - [Report]: [logResults], and the run report of the specification
      ([RunReport], [run_report], [render]) that it prints.
    - [Fanout]: [Promise.all(items.map(item => this.limit(...)))] as a step
      relation ([fan_step], [fan_rel]) over the limiter, the phase of every
      task and the file system ([Fan]); the executable schedulers
      [run_schedule] and [run_all]; the fan-out under a schedule ([fan_out])
      and the sequential run it is compared with ([download_each]).
    - [Admission]: the fan-out read as the pool of the limiter's
      specification ([fan_pool]), and the simulation between the two.
    - [Wellformed]: the well-formed states of the fan-out ([fan_wf], a
      decidable record) and their preservation by every operation.
    - [Bounds]: the length of a run in terms of the streams ([item_steps],
      [run_bound]), and the measure [fan_cost] of what a fan-out has left,
      which does not depend on the file system.
    - [Capacity]: the two ends of the concurrency range, a limit of one and
      a limit of at least the number of items, by one more invariant of the
      reachable states ([fan_staggered]); [fan_shape], the part of the
      invariant of the fan-out that does not depend on the file system.
    - [Paths]: output paths of the items of a playlist ([item_slug]), and
      when they are distinct.
    - [Playlist]: [downloadPlaylist], composed of the above.
    - [Join]: the items of one more call handed to the limiter of a fan-out
      that is under way ([fan_extend], [fan_join]), and what it preserves.
    - [Calls]: [downloadPlaylist] as a state machine, for any number of
      calls on one downloader: a call ([Call]) is suspended at one of its
      three awaits or has completed; an event ([Event]) invokes a call
      ([invoke]: the method up to its first await), resumes a call at its
      await ([resume]: the method from one await to the next) or moves a
      download ([fan_step]).  The state ([Sys]) holds what the calls share,
      the limiter with the tasks of all calls, the file system and the
      console, and every call's own position and slice of the tasks
      ([call_tasks]).
    - [Sound]: what holds of the calls whatever the streams do: the tasks
      and the file system are well formed ([sys_wf]), every call lists the
      playlist of the URL ([call_origin]), and no file comes to be where
      the output folder goes ([folder_free]).
    - [SharedPool]: the limiter of the object read as the pool of its
      specification, across the calls.
    - [Completion]: a strategy of the event loop that takes every call to
      its end ([resume_all], [sys_complete]).
    - [Console]: the run of a list of events with, beside the state, the
      lines printed and the call that printed each ([sys_logged],
      [lines_of]), and what a call alone prints ([alone_console]).
    - [Files]: which output files exist in the states the calls reach
      ([fan_files], [sys_files]).

    Every file that has theorems with hypotheses ends with a module
    ([DemoDownloader], [SingleDemo], [ReportDemo], [FanoutDemo],
    [AdmissionDemo], [WellformedDemo], [BoundsDemo], [CapacityDemo],
    [PathsDemo], [PlaylistDemo], [CallsDemo], [SharedPoolDemo],
    [CompletionDemo], [ConsoleDemo], [FilesDemo]) that applies them to the
    concrete instance.

    ** How state and effects are modelled

    A method that awaits is a function [W -> W * completion Thrown A]
    ([eff]): the world [W] is the file system, or the file system and the
    console ([World]); the completion says whether the call returned,
    threw, or is still pending (a promise that never settles, as with a
    stream that hangs).  An exception keeps the effects made before it, as
    in the program.  The constructor, which does not await, returns a
    [completion].

    Within one call of [downloadPlaylist] the only concurrency is that of
    the tasks handed to the limiter, which interleave at their suspension
    points.  [Fanout] makes every
    suspension point a step (the delivery of one stream event, the clean-up
    after a rejection); a schedule is a list of task indices, and the
    theorems quantify over all schedules.  The file system is shared by the
    tasks: two tasks with the same output path write to the same file.

    Calls of [downloadPlaylist] on one object interleave at their awaits as
    well.  [Playlist] gives the method in one go, as a function of the
    schedule of its downloads; [Calls] gives it from one await to the next
    ([sys_step]), with the downloads of all calls in one fan-out, since the
    limiter is a field of the object.  [sys_run] runs a list of events and
    skips those that are not enabled, [sys_exec] fails on them, [sys_drain]
    moves the downloads until none has a step left; [one_call_refines]
    ties the two models.

    What a download returns depends on the file system only through its
    directories, which no download changes.  [FileSystem] makes this an
    equivalence ([same_dirs], written [≡ᵈ]); the functions that say what a
    call is bound for ([open_error], [expected_result], [item_result],
    [task_weight]) are [Proper] for it, and the invariants of the fan-out
    are stated and rewritten up to it.

    ** What the theorems show

    - [Downloader]: the constructor throws in exactly three cases, checked
      in this order: empty inputs, a string that is no URL, a concurrency
      below one ([constructor_throws]); what it returns is well formed, with
      30 as the default concurrency; [ensureOutputFolder] is idempotent.
    - [Limiter] (lemmas the fan-out relies on): the counter stays within
      [0..concurrency]; tasks start in submission order; a free slot is not
      left idle while a task waits; the counter and queue refine the pool.
    - [Single]: the promise settles with the first settling event;
      [downloadSingle] never throws, and the result it returns carries an
      error message exactly when it failed; after a failure the file is
      gone, after a success it holds the chunks streamed; nothing else is
      touched; the step-by-step model ends where the function does.
    - [Report]: [logResults] prints the rendering of the run report; the
      summary line can be read back (it determines its two counts); the
      counts add up; with fewer items than results [logResults] throws.
    - [Fanout]: in every reachable state at most [concurrency] downloads are
      in flight, tasks have started in playlist order, and no slot is idle
      while a task waits; every run is bounded by [fan_fuel]; the results
      are those of the sequential run under every schedule, and so is the
      file system when no stream hangs and no two items share an output
      path; a hanging stream keeps the run pending.  Two closed examples
      show what happens when output paths collide.
    - [Admission]: every state the fan-out reaches is the end of a run of
      the pool that submits every item once in playlist order: handing the
      items over is such a run, and a step of the fan-out is no transition
      of the pool, or a finish followed by at most one start.
    - [Wellformed]: every reachable state of the fan-out is well formed,
      and so is the file system [downloadPlaylist] leaves (in [Playlist]).
    - [Bounds]: a run takes at most one step per stream event, at least one
      per item, and one clean-up per item, whatever the interleaving.
    - [Capacity]: with a concurrency of one a download starts only when all
      the downloads before it have returned; with a concurrency of at least
      the number of items no download waits.
    - [Paths]: when [path.join] is injective in its last segment, distinct
      slugs give the distinct output paths the refinement theorems ask for.
    - [Join]: handing over the items of one more call keeps the invariants
      of the fan-out and adds the bound of the new items to its cost.
    - [Calls]: one call run alone through the machine does what the method
      does; the bound on the downloads in flight holds of all the calls on
      an object together; a call only moves forward, and a run of the
      machine has at most [1 + invoke_cost] events per call invoked; where
      the path of the output folder is no regular file, a call that gets
      past [Promise.all] prints the report of the sequential run of its own
      items into the folder, and gets there when the streams of the items
      handed over up to its own settle; when
      [concurrency] streams at the head of the limiter hang, no later call
      gets past its [Promise.all].
    - [Sound] (lemmas): well-formedness and the origin of the calls are
      kept by every event; downloads start in the order the calls handed
      the items over, and no slot is idle while one waits, across calls.
    - [SharedPool]: every state the calls reach is the end of a run of the
      pool that submits every item handed over once, in the order the calls
      handed the items over: a call that lists hands its items over, a step
      of a download is a step of the pool as in [Admission], and the other
      events leave the pool as it is.
    - [Completion]: when no stream of the playlist hangs, every call made
      on a downloader completes, from every state the calls can reach, and
      with the completion of a call made alone; and no reachable state is a
      halt: either every call has completed, or a call can be resumed or a
      download has a step to take.
    - [Console]: the console of overlapping calls is an interleaving of
      the consoles of the calls alone: it holds the lines the resumptions
      printed, and the lines of one call are the first lines, and in the
      end all the lines, of what [downloadPlaylist] prints alone.
    - [Files]: in every state the calls reach, a path whose downloads have
      all returned a failure holds no file, and a path written to by
      downloads that do not fail holds one once a download to it has
      started; so, when no two items of the playlist share a path, once
      every download has returned the file of an item is there exactly
      when its download succeeded, however many calls wrote to it.
    - [Playlist]: without a playlist identifier nothing is created, listed
      or downloaded; a rejection of the lister is thrown after the banner;
      otherwise the console holds the banner, the title and the report, and
      the method returns although items failed; the [format] option has no
      effect; an output folder that is a regular file goes unnoticed.

    ** Bounds and fuel

    Streams are finite lists of events; a stream with no settling event
    models a download that hangs, and the theorems that promise a result
    assume every stream settles ([all_settle]).  The scheduler [run_all]
    takes its fuel from [fan_fuel], the sum over the tasks of what they have
    left: one step per remaining event plus one for a started task, one for
    a clean-up, and for a task that waits the steps of the stream it is
    bound for (its start is part of the step that frees its slot).  Every
    step of the fan-out decreases it ([fan_step_fuel]), so it is enough
    ([run_all_stuck]); [Bounds] bounds it at the start of a run by the
    lengths of the streams ([run_bound]).  The machine of calls needs no
    fuel: [sys_drain] takes it from [fan_cost], and every enabled event
    decreases [sys_cost], which an invocation raises by [invoke_cost]: three
    resumptions and the bound [run_bound] of the playlist the lister
    returns ([listing_cost]).  What a download is bound for depends on the
    directories, and a call may make one, the output folder.  It is made
    before any item is handed over, by whichever call goes on first from
    [ensureOutputFolder] ([sys_unmade], [folder_made]), unless its path is
    that of a regular file: the theorems on the results of overlapping
    calls assume it is not, and those on the bound in flight and on
    termination assume nothing of the folder.  The concurrency is an
    integer ([Z]): fractions, NaN and the infinities are not modelled.

    ** What is not modelled

    The protocol of the media-extraction and playlist-listing libraries, the
    slug function, URL parsing and path normalisation are parameters (the
    class [Collaborators]).  [mkdir] never fails for lack of permission, and
    file descriptors are not modelled: a write to a file that has been
    unlinked is lost, and writes are appended to the file of their path.
    Calls that overlap on one object write to the same paths; the theorems
    on them speak of completions, reports, the console and which files
    exist, not of the contents of the files.  Whatever constructs the downloader and calls
    [downloadPlaylist] is outside [src/]; the machine of calls stands for
    any such caller.  The lister and the fetcher are functions of the
    identifier and of the URL: a playlist or a stream that changes between
    two calls is not modelled, nor are two objects that share an output
    folder. *)

From stdpp Require Export base tactics option list strings gmap sets relations pretty.

#[export] Set Warnings "-clear-no-such-hyp".

Create HintDb harmonix.
Create Rewrite HintDb harmonix_simpl.

Declare Scope eff_scope.
Delimit Scope eff_scope with eff.

(** ** Completions and the effect monad *)

(** How a call ends: it returns a value, it throws, or it never settles. *)
Inductive completion (E A : Type) : Type :=
| Return (a : A)
| Throw (e : E)
| Pending.

Arguments Return {E A} a.
Arguments Throw {E A} e.
Arguments Pending {E A}.

Definition completion_map {E A B} (f : A → B) (c : completion E A) : completion E B :=
  match c with
  | Return a => Return (f a)
  | Throw e => Throw e
  | Pending => Pending
  end.

Definition is_Return {E A} (c : completion E A) : bool :=
  match c with Return _ => true | _ => false end.

Definition is_Throw {E A} (c : completion E A) : bool :=
  match c with Throw _ => true | _ => false end.

(** A computation over a world [W] that may throw an [E]. *)
Definition eff (W E A : Type) : Type := W → W * completion E A.

Definition eff_ret {W E A} (a : A) : eff W E A := λ w, (w, Return a).

Definition eff_throw {W E A} (e : E) : eff W E A := λ w, (w, Throw e).

Definition eff_pending {W E A} : eff W E A := λ w, (w, Pending).

Definition eff_bind {W E A B} (m : eff W E A) (k : A → eff W E B) : eff W E B :=
  λ w, match m w with
       | (w', Return a) => k a w'
       | (w', Throw e) => (w', Throw e)
       | (w', Pending) => (w', Pending)
       end.

(** [try m catch (e) h]: the handler runs in the world the exception left. *)
Definition eff_catch {W E A} (m : eff W E A) (h : E → eff W E A) : eff W E A :=
  λ w, match m w with
       | (w', Throw e) => h e w'
       | r => r
       end.

Definition eff_get {W E} : eff W E W := λ w, (w, Return w).

Definition eff_modify {W E} (f : W → W) : eff W E unit := λ w, (f w, Return tt).

Definition eff_lift {W E A} (c : completion E A) : eff W E A := λ w, (w, c).

Notation "'let!' x := m 'in' k" := (eff_bind m (λ x, k))
  (at level 10, x name, m at level 100, k at level 200,
   format "'[v' 'let!'  x  :=  m  'in' '/' k ']'") : eff_scope.
Notation "m ;;; k" := (eff_bind m (λ _, k))
  (at level 100, k at level 200, right associativity) : eff_scope.

(** ** Tactics *)

Ltac invert H := inversion H; subst; clear H.

(** Case analysis on the completion or pair a [match] of the goal inspects. *)
Ltac case_completion :=
  match goal with
  | |- context [match ?c with Return _ => _ | Throw _ => _ | Pending => _ end] =>
      destruct c eqn:?
  | |- context [let (_, _) := ?p in _] => destruct p eqn:?
  | |- context [match ?p with (_, _) => _ end] => destruct p eqn:?
  end.

Ltac unfold_eff :=
  unfold eff_bind, eff_catch, eff_ret, eff_throw, eff_pending, eff_get,
    eff_modify, eff_lift in *.

(** ** Laws of the effect monad *)

Section eff_laws.
Context {W E : Type}.

Lemma eff_bind_ret_l {A B} (a : A) (k : A → eff W E B) w :
  eff_bind (eff_ret a) k w = k a w.
Proof. reflexivity. Qed.

Lemma eff_bind_ret_r {A} (m : eff W E A) w :
  eff_bind m eff_ret w = m w.
Proof. unfold eff_bind, eff_ret. by destruct (m w) as [w' []]. Qed.

Lemma eff_bind_assoc {A B C} (m : eff W E A) (k : A → eff W E B)
    (h : B → eff W E C) w :
  eff_bind (eff_bind m k) h w = eff_bind m (λ a, eff_bind (k a) h) w.
Proof. unfold eff_bind. by destruct (m w) as [w' []]. Qed.

Lemma eff_bind_throw {A B} (e : E) (k : A → eff W E B) w :
  eff_bind (eff_throw e) k w = (w, Throw e).
Proof. reflexivity. Qed.

Lemma eff_catch_ret {A} (a : A) (h : E → eff W E A) w :
  eff_catch (eff_ret a) h w = (w, Return a).
Proof. reflexivity. Qed.

Lemma eff_catch_throw {A} (e : E) (h : E → eff W E A) w :
  eff_catch (eff_throw e) h w = h e w.
Proof. reflexivity. Qed.

(** A handler that never throws makes the whole [try] never throw. *)
Lemma eff_catch_no_throw {A} (m : eff W E A) (h : E → eff W E A) w :
  (∀ e w', is_Throw (h e w').2 = false) →
  is_Throw (eff_catch m h w).2 = false.
Proof.
  intros Hh. unfold eff_catch. destruct (m w) as [w' [a|e|]]; simpl; auto.
Qed.

End eff_laws.

#[export] Hint Rewrite @eff_bind_ret_l @eff_bind_throw @eff_catch_ret
  @eff_catch_throw : harmonix_simpl.

(** ** Lists *)

Section list_facts.
Context {A : Type}.
Implicit Types (l : list A) (f : A → bool).

(** A boolean test splits a list into the elements that pass and the
    elements that fail. *)
Lemma filter_bool_length_split f l :
  length (filter (λ x, f x = true) l) + length (filter (λ x, f x = false) l)
  = length l.
Proof.
  induction l as [|x l IH]; [done|].
  rewrite !filter_cons. destruct (f x); simpl; lia.
Qed.

Lemma filter_bool_all f l :
  Forall (λ x, f x = true) l → filter (λ x, f x = true) l = l.
Proof.
  induction 1 as [|x l Hx _ IH]; [done|].
  rewrite filter_cons, decide_True by done. by rewrite IH.
Qed.

Lemma filter_bool_none f l :
  Forall (λ x, f x = true) l → filter (λ x, f x = false) l = [].
Proof.
  induction 1 as [|x l Hx _ IH]; [done|].
  rewrite filter_cons, decide_False; [done|congruence].
Qed.

Lemma filter_bool_never f l :
  Forall (λ x, f x = false) l → filter (λ x, f x = true) l = [].
Proof.
  induction 1 as [|x l Hx _ IH]; [done|].
  rewrite filter_cons, decide_False; [done|congruence].
Qed.

(** Position of the first element that satisfies [f], with the element. *)
Fixpoint find_first f l : option A :=
  match l with
  | [] => None
  | x :: l' => if f x then Some x else find_first f l'
  end.

Lemma find_first_Some f l x :
  find_first f l = Some x →
  ∃ l1 l2, l = l1 ++ x :: l2 ∧ f x = true ∧ Forall (λ y, f y = false) l1.
Proof.
  induction l as [|y l IH]; [done|]. simpl.
  destruct (f y) eqn:Hy.
  - intros [= ->]. by exists [], l.
  - intros H. destruct (IH H) as (l1 & l2 & -> & ? & ?).
    exists (y :: l1), l2. auto.
Qed.

Lemma find_first_None f l :
  find_first f l = None ↔ Forall (λ y, f y = false) l.
Proof.
  induction l as [|y l IH]; simpl.
  - split; auto.
  - destruct (f y) eqn:Hy.
    + split; [done|]. intros H. apply Forall_cons in H as [? _]. congruence.
    + rewrite IH, Forall_cons. naive_solver.
Qed.

Lemma find_first_app f l1 l2 :
  find_first f (l1 ++ l2) =
  match find_first f l1 with Some x => Some x | None => find_first f l2 end.
Proof.
  induction l1 as [|y l1 IH]; [done|]. simpl. by destruct (f y).
Qed.

End list_facts.

(** ** Step relations with a measure *)

(** A step relation [R] whose steps, from the states of an invariant [I],
    stay in [I] and decrease a measure [μ]. *)
Section measured.
Context {S : Type} (R : relation S) (I : S → Prop) (μ : S → nat).
Hypothesis I_step : ∀ s s', I s → R s s' → I s'.
Hypothesis R_decreases : ∀ s s', I s → R s s' → μ s' < μ s.

Lemma rtc_invariant s s' : I s → rtc R s s' → I s'.
Proof. intros Hs Hr. induction Hr; eauto. Qed.

(** A run of [n] steps uses up at least [n] units of the measure. *)
Lemma nsteps_measure n s s' : I s → nsteps R n s s' → n + μ s' ≤ μ s.
Proof.
  intros Hs Hn. induction Hn as [|n s1 s2 s3 H12 _ IH]; [lia|].
  specialize (IH (I_step _ _ Hs H12)).
  apply R_decreases in H12; [lia|done].
Qed.

Lemma nsteps_measure_bound n s s' : I s → nsteps R n s s' → n ≤ μ s.
Proof. intros Hs Hn. pose proof (nsteps_measure _ _ _ Hs Hn). lia. Qed.

(** Every run can be extended to one that ends in a state with no step,
    provided having a step is decidable. *)
Lemma measured_reaches_nf (Hdec : ∀ s, {s' | R s s'} + {nf R s}) s :
  I s → ∃ s', rtc R s s' ∧ nf R s'.
Proof.
  remember (μ s) as m eqn:Hm. revert s Hm.
  induction (lt_wf m) as [m _ IH]. intros s -> Hs.
  destruct (Hdec s) as [[s1 H1]|Hnf].
  - destruct (IH (μ s1) (R_decreases _ _ Hs H1) s1 eq_refl (I_step _ _ Hs H1))
      as (s' & ? & ?).
    exists s'. split; [by eapply rtc_l|done].
  - exists s. split; [apply rtc_refl|done].
Qed.

End measured.

(** ** Completions without a world *)

Definition completion_bind {E A B} (c : completion E A) (k : A → completion E B)
  : completion E B :=
  match c with
  | Return a => k a
  | Throw e => Throw e
  | Pending => Pending
  end.

Lemma completion_bind_Return {E A B} (c : completion E A)
    (k : A → completion E B) b :
  completion_bind c k = Return b ↔ ∃ a, c = Return a ∧ k a = Return b.
Proof. destruct c; simpl; naive_solver. Qed.

Lemma completion_bind_Throw {E A B} (c : completion E A)
    (k : A → completion E B) e :
  completion_bind c k = Throw e ↔
  c = Throw e ∨ ∃ a, c = Return a ∧ k a = Throw e.
Proof. destruct c; simpl; naive_solver. Qed.

Lemma is_Return_true {E A} (c : completion E A) :
  is_Return c = true ↔ ∃ a, c = Return a.
Proof. destruct c; simpl; naive_solver. Qed.

Lemma is_Throw_true {E A} (c : completion E A) :
  is_Throw c = true ↔ ∃ e, c = Throw e.
Proof. destruct c; simpl; naive_solver. Qed.

(** ** Sums over a list updated in place *)

Lemma sum_list_with_insert {A} (f : A → nat) (l : list A) i x y :
  l !! i = Some x →
  sum_list_with f (<[i:=y]> l) + f x = sum_list_with f l + f y.
Proof.
  revert i. induction l as [|z l IH]; intros [|i] Hi; simplify_eq/=; [lia|].
  specialize (IH i Hi). lia.
Qed.

Lemma sum_list_with_0 {A} (f : A → nat) (l : list A) :
  sum_list_with f l = 0 ↔ Forall (λ x, f x = 0) l.
Proof.
  induction l as [|z l IH]; simpl; [by split|].
  rewrite Forall_cons, <- IH. lia.
Qed.

Lemma sum_list_with_lookup {A} (f : A → nat) (l : list A) i x :
  l !! i = Some x → f x ≤ sum_list_with f l.
Proof.
  revert i. induction l as [|z l IH]; intros [|i] Hi; simplify_eq/=; [lia|].
  specialize (IH i Hi). lia.
Qed.

Lemma sum_list_imap_insert {A} (f : nat → A → nat) (l : list A) i x y :
  l !! i = Some x →
  sum_list (imap f (<[i:=y]> l)) + f i x = sum_list (imap f l) + f i y.
Proof.
  revert f i. induction l as [|z l IH]; intros f [|i] Hi; simplify_eq/=; [lia|].
  specialize (IH (f ∘ S) i Hi). simpl in IH. lia.
Qed.

Lemma sum_list_imap_ext {A} (f g : nat → A → nat) (l : list A) :
  (∀ i x, l !! i = Some x → f i x = g i x) →
  sum_list (imap f l) = sum_list (imap g l).
Proof. intros Hfg. f_equal. by apply imap_ext. Qed.

(** A sum by index is bounded by a sum over a second list when it is,
    position by position. *)
Lemma sum_list_imap_le {A B} (f : nat → A → nat) (g : B → nat)
    (l1 : list A) (l2 : list B) :
  length l1 = length l2 →
  (∀ i a b, l1 !! i = Some a → l2 !! i = Some b → f i a ≤ g b) →
  sum_list (imap f l1) ≤ sum_list_with g l2.
Proof.
  revert f l2. induction l1 as [|a l1 IH]; intros f [|b l2] Hlen Hle;
    simplify_eq/=; [done|].
  pose proof (Hle 0 a b eq_refl eq_refl).
  specialize (IH (f ∘ S) l2 Hlen (λ i, Hle (S i))). simpl in IH. lia.
Qed.

Lemma sum_list_with_take_le {A} (f : A → nat) (l : list A) n :
  sum_list_with f (take n l) ≤ sum_list_with f l.
Proof.
  revert n. induction l as [|x l IH]; intros [|n]; simpl; try lia.
  specialize (IH n). lia.
Qed.

(** ** Strings with the same end *)

Lemma string_length_app (s1 s2 : string) :
  String.length (s1 +:+ s2) = String.length s1 + String.length s2.
Proof. induction s1 as [|c s1 IH]; simpl; [done|by rewrite IH]. Qed.

Lemma string_app_inj_r (s1 s2 t : string) : s1 +:+ t = s2 +:+ t → s1 = s2.
Proof.
  revert s2. induction s1 as [|c1 s1 IH]; intros [|c2 s2] Heq; simpl in *;
    [done|..].
  - apply (f_equal String.length) in Heq.
    rewrite !string_length_app in Heq. simpl in Heq. lia.
  - apply (f_equal String.length) in Heq.
    rewrite !string_length_app in Heq. simpl in Heq. lia.
  - injection Heq as -> Heq. by rewrite (IH s2).
Qed.

(** What holds of all the elements holds of the one at an index. *)
Lemma Forall_at {A} {P : A → Prop} {l : list A} (HP : Forall P l) i x :
  l !! i = Some x → P x.
Proof. by apply Forall_lookup_1. Qed.

(** ** Lists without duplicates under a function *)

Lemma NoDup_fmap_lookup {A B} (f : A → B) (l : list A) i j x y :
  NoDup (f <$> l) → l !! i = Some x → l !! j = Some y → f x = f y → i = j.
Proof.
  intros Hnd Hi Hj Hf. apply (NoDup_lookup (f <$> l) i j (f x)); [done|..].
  - by rewrite list_lookup_fmap, Hi.
  - by rewrite list_lookup_fmap, Hj, Hf.
Qed.
