(* ===== verification/Js.v ===== *)
(** * The parts of the language the downloader relies on

    Thrown values and the test [instanceof Error], truthiness of strings and
    of [string | null], the nullish default [??], what a template literal
    prints for a number and for a possibly undefined string, and the console
    as the list of lines written to it. *)

From S2P Require Import Prelude.

Open Scope string_scope.
Open Scope list_scope.
Open Scope nat_scope.

(** ** Thrown values *)

(** A value that was thrown or that rejected a promise: an instance of
    [Error] (or of a subclass, such as [TypeError]) with its message, or any
    other value. *)
Inductive Thrown : Type :=
| ErrorObj (name message : string)
| NonError (shown : string).

#[export] Instance Thrown_eq_dec : EqDecision Thrown.
Proof. solve_decision. Defined.

(** [new Error(message)] *)
Definition mkError (message : string) : Thrown := ErrorObj "Error" message.

(** [new TypeError(message)] *)
Definition mkTypeError (message : string) : Thrown := ErrorObj "TypeError" message.

(** [error instanceof Error] *)
Definition instanceof_Error (error : Thrown) : bool :=
  match error with
  | ErrorObj _ _ => true
  | NonError _ => false
  end.

(** [error instanceof Error ? error.message : 'Unknown error'] *)
Definition error_message (error : Thrown) : string :=
  match error with
  | ErrorObj _ message => message
  | NonError _ => "Unknown error"
  end.

(** ** Truthiness *)

(** [!s] for a string: only the empty string is falsy. *)
Definition falsy (s : string) : bool := bool_decide (s = "").

(** [!v] for [v : string | null]. *)
Definition falsy_opt (v : option string) : bool :=
  match v with
  | None => true
  | Some s => falsy s
  end.

(** [v ?? d]: the default is taken for [null] and [undefined] only. *)
Definition nullish_default {A} (v : option A) (d : A) : A :=
  match v with
  | Some a => a
  | None => d
  end.

(** ** Template literals *)

(** [`${n}`] for a natural number. *)
Definition show_nat (n : nat) : string := pretty n.

(** [`${s}`] for [s : string | undefined]. *)
Definition show_opt (s : option string) : string :=
  match s with
  | Some s => s
  | None => "undefined"
  end.

(** A character of a printed number, and a string of such characters. *)
Definition is_digit (c : Ascii.ascii) : bool :=
  bool_decide (48 ≤ Ascii.nat_of_ascii c ≤ 57).

Fixpoint string_forall (P : Ascii.ascii → bool) (s : string) : bool :=
  match s with
  | EmptyString => true
  | String c rest => P c && string_forall P rest
  end.

(** ** The console *)

(** A line written by [console.log] or by [console.error]. *)
Inductive LogLine : Type :=
| Log (text : string)
| LogError (text : string).

#[export] Instance LogLine_eq_dec : EqDecision LogLine.
Proof. solve_decision. Defined.

Definition Console : Type := list LogLine.

(** [console.log(a, b)]: the arguments separated by a space. *)
Definition log2 (a b : string) : LogLine := Log (a +:+ " " +:+ b).

(** ** Facts *)

Lemma falsy_true s : falsy s = true ↔ s = "".
Proof. unfold falsy. apply bool_decide_eq_true. Qed.

Lemma falsy_false s : falsy s = false ↔ s ≠ "".
Proof. unfold falsy. apply bool_decide_eq_false. Qed.

Lemma falsy_opt_false v : falsy_opt v = false ↔ ∃ s, v = Some s ∧ s ≠ "".
Proof.
  destruct v as [s|]; simpl.
  - rewrite falsy_false. naive_solver.
  - naive_solver.
Qed.

Lemma falsy_opt_true v : falsy_opt v = true ↔ v = None ∨ v = Some "".
Proof.
  destruct v as [s|]; simpl.
  - rewrite falsy_true. naive_solver.
  - naive_solver.
Qed.

Lemma nullish_default_Some {A} (a d : A) : nullish_default (Some a) d = a.
Proof. reflexivity. Qed.

Lemma nullish_default_None {A} (d : A) : nullish_default None d = d.
Proof. reflexivity. Qed.

Lemma error_message_instance error :
  instanceof_Error error = false → error_message error = "Unknown error".
Proof. by destruct error. Qed.

(** *** Printed numbers are made of digits *)

Lemma pretty_N_char_digit x : is_digit (pretty_N_char x) = true.
Proof. unfold pretty_N_char. by repeat case_match. Qed.

Lemma pretty_N_go_digits x s :
  string_forall is_digit s = true →
  string_forall is_digit (pretty_N_go x s) = true.
Proof.
  revert s. induction (N.lt_wf_0 x) as [x _ IH]; intros s Hs.
  assert (x = 0 ∨ 0 < x)%N as [->|Hx] by lia; [by rewrite pretty_N_go_0|].
  rewrite pretty_N_go_step by done. apply IH; [by apply N.div_lt|].
  simpl. by rewrite pretty_N_char_digit.
Qed.

Lemma show_nat_digits n : string_forall is_digit (show_nat n) = true.
Proof.
  unfold show_nat, pretty, pretty_nat, pretty, pretty_N.
  case_decide; [done|]. by apply pretty_N_go_digits.
Qed.

(** Two strings of characters of one kind, each followed by a character
    that is not of the kind, are equal when what they begin is. *)
Lemma append_sep_inj (P : Ascii.ascii → bool) c s1 s2 t1 t2 :
  P c = false → string_forall P s1 = true → string_forall P s2 = true →
  s1 +:+ String c t1 = s2 +:+ String c t2 → s1 = s2 ∧ t1 = t2.
Proof.
  intros Hc. revert s2. induction s1 as [|c1 s1 IH]; intros [|c2 s2]; simpl;
    rewrite ?andb_true_iff; intros H1 H2 Heq; simplify_eq; try done;
    try (destruct H1; congruence); try (destruct H2; congruence).
  destruct H1, H2. destruct (IH s2) as [-> ->]; done.
Qed.

Lemma show_nat_inj n m : show_nat n = show_nat m → n = m.
Proof. unfold show_nat. apply (inj pretty). Qed.

#[export] Hint Rewrite falsy_true falsy_false falsy_opt_true falsy_opt_false
  : harmonix_simpl.
