(* ===== verification/Types.v ===== *)
(** * The interfaces and constants of [downloader.ts]

    [DownloadOptions], [PlaylistItem] and [DownloadResult] as records, and
    the static constants of [YoutubeDownloader].  A field the source calls
    [id], [url], [name] or [ref] carries the record's name in front, since
    these are names of the library or of other fields. *)

From S2P Require Import Prelude Js.

Open Scope string_scope.
Open Scope list_scope.
Open Scope nat_scope.

(** [interface DownloadOptions]: both fields are optional. *)
Record DownloadOptions : Type := mkDownloadOptions {
  format : option string;
  concurrency : option Z;
}.

(** The [author] field of a playlist item. *)
Record Author : Type := mkAuthor {
  author_name : string;
  author_ref : string;
}.

(** [interface PlaylistItem] *)
Record PlaylistItem : Type := mkPlaylistItem {
  item_id : string;
  item_url : string;
  url_simple : string;
  title : string;
  thumbnail : string;
  duration : option string;
  author : option Author;
}.

(** [interface DownloadResult]: [error] is optional. *)
Record DownloadResult : Type := mkDownloadResult {
  success : bool;
  error : option string;
}.

#[export] Instance DownloadOptions_eq_dec : EqDecision DownloadOptions.
Proof. solve_decision. Defined.
#[export] Instance Author_eq_dec : EqDecision Author.
Proof. solve_decision. Defined.
#[export] Instance PlaylistItem_eq_dec : EqDecision PlaylistItem.
Proof. solve_decision. Defined.
#[export] Instance DownloadResult_eq_dec : EqDecision DownloadResult.
Proof. solve_decision. Defined.

(** [YoutubeDownloader.DEFAULT_FORMAT] *)
Definition DEFAULT_FORMAT : string := ".mp3".

(** [YoutubeDownloader.DEFAULT_CONCURRENCY] *)
Definition DEFAULT_CONCURRENCY : Z := 30.

(** [YoutubeDownloader.VERSION] *)
Definition VERSION : string := "1.0.0".

(** [{ success: true }] *)
Definition result_ok : DownloadResult :=
  {| success := true; error := None |}.

(** [{ success: false, error: message }] *)
Definition result_failed (message : string) : DownloadResult :=
  {| success := false; error := Some message |}.

(** The invariant the specification gives a download outcome: the error
    message is present exactly when the download did not succeed. *)
Definition result_wf (r : DownloadResult) : Prop :=
  success r = false ↔ is_Some (error r).

#[export] Instance result_wf_dec r : Decision (result_wf r).
Proof. unfold result_wf. apply _. Defined.

Lemma result_ok_wf : result_wf result_ok.
Proof. unfold result_wf. simpl. split; [done|]. by intros [? ?]. Qed.

Lemma result_failed_wf message : result_wf (result_failed message).
Proof. unfold result_wf. simpl. split; eauto. Qed.

#[export] Hint Resolve result_ok_wf result_failed_wf : harmonix.
