(* ===== verification/FileSystem.v ===== *)
(** * The file system as the downloader sees it

    A model of the five calls into [node:fs] that [downloader.ts] makes:
    [existsSync], [mkdir] with [{recursive: true}], [createWriteStream],
    the writes a pipe makes into the stream, and [unlink].  The library is
    not part of the repository, so the model follows the specification: a
    set of directories and a map from the path of a file to the chunks
    written to it.  Ancestors of a directory are not tracked, and a path is
    an opaque string.  [same_dirs] relates file systems with the same
    directories, the equivalence under which opening a file is invariant. *)

From S2P Require Import Prelude Js.

Open Scope string_scope.
Open Scope list_scope.
Open Scope nat_scope.

Record FS : Type := mkFS {
  dirs : gset string;
  files : gmap string (list string);
}.

Definition fs_empty : FS := {| dirs := ∅; files := ∅ |}.

Definition is_dir (p : string) (fs : FS) : bool := bool_decide (p ∈ dirs fs).

Definition is_file (p : string) (fs : FS) : bool :=
  bool_decide (is_Some (files fs !! p)).

(** The content of the file at [p], if there is one. *)
Definition read_file (p : string) (fs : FS) : option (list string) :=
  files fs !! p.

(** The errors of the library are instances of [Error] whose message starts
    with the code. *)
Definition fs_error (code what p : string) : Thrown :=
  mkError (code +:+ ": " +:+ what +:+ " '" +:+ p +:+ "'").

Definition EEXIST (p : string) : Thrown :=
  fs_error "EEXIST" "file already exists, mkdir" p.
Definition ENOENT (p : string) : Thrown :=
  fs_error "ENOENT" "no such file or directory," p.
Definition EISDIR (p : string) : Thrown :=
  fs_error "EISDIR" "illegal operation on a directory," p.

(** [existsSync(p)]: true for a directory and for a file. *)
Definition existsSync (p : string) (fs : FS) : bool :=
  is_dir p fs || is_file p fs.

(** [mkdir(p, {recursive: true})]: creates the directory, succeeds when it
    is there already, fails when the path is a file. *)
Definition mkdir_recursive (p : string) : eff FS Thrown unit :=
  λ fs, if is_file p fs then (fs, Throw (EEXIST p))
        else ({| dirs := {[p]} ∪ dirs fs; files := files fs |}, Return tt).

(** Why [p] cannot be opened for writing inside [parent], if it cannot:
    the parent is no directory, or the path is one. *)
Definition open_error (parent p : string) (fs : FS) : option Thrown :=
  if negb (is_dir parent fs) then Some (ENOENT p)
  else if is_dir p fs then Some (EISDIR p)
  else None.

(** Opening [p] for writing inside [parent], as [createWriteStream(p)] does:
    the file is created or truncated.  An error is what the stream will emit
    as its ['error'] event. *)
Definition open_write (parent p : string) (fs : FS) : FS * option Thrown :=
  match open_error parent p fs with
  | Some e => (fs, Some e)
  | None => ({| dirs := dirs fs; files := <[p := []]> (files fs) |}, None)
  end.

(** One chunk written to the stream of [p]: appended to the file, lost when
    the file has been removed meanwhile. *)
Definition write_chunk (p chunk : string) (fs : FS) : FS :=
  {| dirs := dirs fs; files := alter (λ content, content ++ [chunk]) p (files fs) |}.

(** [unlink(p)]: removes the file, fails when there is none. *)
Definition unlink (p : string) : eff FS Thrown unit :=
  λ fs, if is_file p fs
        then ({| dirs := dirs fs; files := delete p (files fs) |}, Return tt)
        else if is_dir p fs then (fs, Throw (EISDIR p))
        else (fs, Throw (ENOENT p)).

(** No path is both a directory and a file. *)
Definition fs_wf (fs : FS) : Prop :=
  ∀ p, p ∈ dirs fs → files fs !! p = None.

(** File systems with the same directories: whether a file can be opened
    depends on nothing else, and the downloads change no directory, so this
    is the equivalence under which what a download returns is invariant. *)
Definition same_dirs (fs1 fs2 : FS) : Prop := dirs fs1 = dirs fs2.

Infix "≡ᵈ" := same_dirs (at level 70, no associativity).

(** ** Facts *)

Lemma FS_eq fs1 fs2 :
  dirs fs1 = dirs fs2 → files fs1 = files fs2 → fs1 = fs2.
Proof. destruct fs1, fs2; simpl; congruence. Qed.

Lemma is_dir_true p fs : is_dir p fs = true ↔ p ∈ dirs fs.
Proof. apply bool_decide_eq_true. Qed.

Lemma is_dir_false p fs : is_dir p fs = false ↔ p ∉ dirs fs.
Proof. apply bool_decide_eq_false. Qed.

Lemma is_file_true p fs : is_file p fs = true ↔ is_Some (files fs !! p).
Proof. apply bool_decide_eq_true. Qed.

Lemma is_file_false p fs : is_file p fs = false ↔ files fs !! p = None.
Proof.
  unfold is_file. rewrite bool_decide_eq_false. symmetry; apply eq_None_not_Some.
Qed.

Lemma existsSync_true p fs :
  existsSync p fs = true ↔ p ∈ dirs fs ∨ is_Some (files fs !! p).
Proof.
  unfold existsSync. rewrite orb_true_iff, is_dir_true, is_file_true; done.
Qed.

Lemma existsSync_false p fs :
  existsSync p fs = false ↔ (p ∉ dirs fs) ∧ files fs !! p = None.
Proof.
  unfold existsSync. rewrite orb_false_iff, is_dir_false, is_file_false; done.
Qed.

Lemma fs_empty_wf : fs_wf fs_empty.
Proof. intros p Hp. by apply lookup_empty. Qed.

(** *** [mkdir] *)

Lemma mkdir_recursive_ok p fs :
  is_file p fs = false →
  mkdir_recursive p fs = ({| dirs := {[p]} ∪ dirs fs; files := files fs |}, Return tt).
Proof. intros H. unfold mkdir_recursive. by rewrite H. Qed.

Lemma mkdir_recursive_file p fs :
  is_file p fs = true → mkdir_recursive p fs = (fs, Throw (EEXIST p)).
Proof. intros H. unfold mkdir_recursive. by rewrite H. Qed.

Lemma mkdir_recursive_exists p fs :
  p ∈ dirs fs → fs_wf fs → mkdir_recursive p fs = (fs, Return tt).
Proof.
  intros Hp Hwf. rewrite mkdir_recursive_ok.
  - f_equal. apply FS_eq; simpl; [set_solver|done].
  - apply is_file_false. auto.
Qed.

Lemma mkdir_recursive_files p fs : files (mkdir_recursive p fs).1 = files fs.
Proof. unfold mkdir_recursive. by destruct (is_file p fs). Qed.

Lemma mkdir_recursive_wf p fs : fs_wf fs → fs_wf (mkdir_recursive p fs).1.
Proof.
  intros Hwf. unfold mkdir_recursive.
  destruct (is_file p fs) eqn:Hf; [done|].
  apply is_file_false in Hf. intros q. simpl.
  rewrite elem_of_union, elem_of_singleton. intros [->|Hq]; auto.
Qed.

(** *** [createWriteStream] *)

#[export] Instance same_dirs_equivalence : Equivalence same_dirs.
Proof.
  unfold same_dirs. split; [by intros ?|by intros ?? ->|by intros ??? -> ->].
Qed.

#[export] Instance dirs_proper : Proper (same_dirs ==> (=)) dirs.
Proof. by intros fs1 fs2 Hd. Qed.

#[export] Instance is_dir_proper p : Proper (same_dirs ==> (=)) (is_dir p).
Proof. intros fs1 fs2 Hd. unfold is_dir. by rewrite Hd. Qed.

(** Whether a path can be opened depends on the directories only. *)
#[export] Instance open_error_proper parent p :
  Proper (same_dirs ==> (=)) (open_error parent p).
Proof. intros fs1 fs2 Hd. unfold open_error. by rewrite !Hd. Qed.

Lemma open_error_None parent p fs :
  open_error parent p fs = None ↔ parent ∈ dirs fs ∧ p ∉ dirs fs.
Proof.
  unfold open_error.
  destruct (is_dir parent fs) eqn:H1, (is_dir p fs) eqn:H2; simpl;
    rewrite ?is_dir_true, ?is_dir_false in *; naive_solver.
Qed.

Lemma open_error_no_dir parent p fs :
  parent ∉ dirs fs → open_error parent p fs = Some (ENOENT p).
Proof. intros Hd%is_dir_false. unfold open_error. by rewrite Hd. Qed.

Lemma open_write_snd parent p fs :
  (open_write parent p fs).2 = open_error parent p fs.
Proof. unfold open_write. by destruct (open_error parent p fs). Qed.

Lemma open_write_ok parent p fs :
  open_error parent p fs = None →
  open_write parent p fs =
  ({| dirs := dirs fs; files := <[p := []]> (files fs) |}, None).
Proof. intros He. unfold open_write. by rewrite He. Qed.

Lemma open_write_fail parent p fs e :
  open_error parent p fs = Some e → open_write parent p fs = (fs, Some e).
Proof. intros He. unfold open_write. by rewrite He. Qed.

Lemma open_write_dirs parent p fs : (open_write parent p fs).1 ≡ᵈ fs.
Proof. unfold open_write. by destruct (open_error parent p fs). Qed.

Lemma open_write_other parent p q fs :
  p ≠ q → files (open_write parent p fs).1 !! q = files fs !! q.
Proof.
  intros Hne. unfold open_write. destruct (open_error parent p fs); simpl;
    [done|by rewrite lookup_insert_ne].
Qed.

Lemma open_write_wf parent p fs : fs_wf fs → fs_wf (open_write parent p fs).1.
Proof.
  intros Hwf. unfold open_write.
  destruct (open_error parent p fs) eqn:He; simpl; [done|].
  apply open_error_None in He as [_ Hp]. intros q Hq. simpl in *.
  rewrite lookup_insert_ne; [auto|congruence].
Qed.

(** *** Writes *)

Lemma write_chunk_dirs p chunk fs : write_chunk p chunk fs ≡ᵈ fs.
Proof. reflexivity. Qed.

Lemma write_chunk_same p chunk fs :
  files (write_chunk p chunk fs) !! p = (λ c, c ++ [chunk]) <$> files fs !! p.
Proof. simpl. by rewrite lookup_alter_eq. Qed.

Lemma write_chunk_other p q chunk fs :
  p ≠ q → files (write_chunk p chunk fs) !! q = files fs !! q.
Proof. intros. simpl. by rewrite lookup_alter_ne. Qed.

Lemma write_chunk_wf p chunk fs : fs_wf fs → fs_wf (write_chunk p chunk fs).
Proof.
  intros Hwf q Hq. simpl in *. destruct (decide (p = q)) as [->|].
  - rewrite lookup_alter_eq, Hwf; done.
  - rewrite lookup_alter_ne; auto.
Qed.

(** *** [unlink] *)

Lemma unlink_ok p fs :
  is_file p fs = true →
  unlink p fs = ({| dirs := dirs fs; files := delete p (files fs) |}, Return tt).
Proof. intros H. unfold unlink. by rewrite H. Qed.

Lemma unlink_missing p fs :
  is_file p fs = false → ∃ e, unlink p fs = (fs, Throw e).
Proof. intros H. unfold unlink. rewrite H. destruct (is_dir p fs); eauto. Qed.

Lemma unlink_dirs p fs : (unlink p fs).1 ≡ᵈ fs.
Proof. unfold unlink. by destruct (is_file p fs), (is_dir p fs). Qed.

(** Whether it succeeds or not, [unlink p] leaves no file at [p]. *)
Lemma unlink_gone p fs : files (unlink p fs).1 !! p = None.
Proof.
  unfold unlink. destruct (is_file p fs) eqn:Hf; simpl.
  - apply lookup_delete_eq.
  - apply is_file_false in Hf. by destruct (is_dir p fs).
Qed.

Lemma unlink_other p q fs : p ≠ q → files (unlink p fs).1 !! q = files fs !! q.
Proof.
  intros Hne. unfold unlink. destruct (is_file p fs), (is_dir p fs); simpl;
    try done; by rewrite lookup_delete_ne.
Qed.

Lemma unlink_wf p fs : fs_wf fs → fs_wf (unlink p fs).1.
Proof.
  intros Hwf. unfold unlink. destruct (is_file p fs), (is_dir p fs); simpl;
    try done; intros q Hq; simpl in *; apply lookup_delete_None; auto.
Qed.

(** *** Whether a file is there, under the operations *)

Lemma is_file_ext p fs1 fs2 :
  files fs1 !! p = files fs2 !! p → is_file p fs1 = is_file p fs2.
Proof. unfold is_file. by intros ->. Qed.

Lemma mkdir_recursive_is_file p q fs :
  is_file q (mkdir_recursive p fs).1 = is_file q fs.
Proof. apply is_file_ext. by rewrite mkdir_recursive_files. Qed.

Lemma open_write_is_file parent p fs :
  open_error parent p fs = None → is_file p (open_write parent p fs).1 = true.
Proof.
  intros He. rewrite open_write_ok by done. apply is_file_true. simpl.
  by rewrite lookup_insert_eq.
Qed.

(** A write makes no file and removes none. *)
Lemma write_chunk_is_file p q chunk fs :
  is_file q (write_chunk p chunk fs) = is_file q fs.
Proof.
  destruct (decide (p = q)) as [<-|Hne];
    [|by apply is_file_ext, write_chunk_other].
  unfold is_file. rewrite write_chunk_same. apply bool_decide_ext.
  by rewrite fmap_is_Some.
Qed.

Lemma unlink_is_file p fs : is_file p (unlink p fs).1 = false.
Proof. apply is_file_false, unlink_gone. Qed.

#[export] Hint Resolve fs_empty_wf mkdir_recursive_wf open_write_wf
  write_chunk_wf unlink_wf : harmonix.
#[export] Hint Rewrite mkdir_recursive_files unlink_gone : harmonix_simpl.
