(* ===== verification/Collab.v ===== *)
(** * The collaborators and the world

    What the downloader consumes and does not define: the slug function
    ([./utils/create-slug]), [path.join], the URL parser, the playlist lister
    ([ytpl]) and the media fetcher ([ytdl]).  They are the fields of the
    class [Collaborators]; the theorems on the downloader hold for every
    instance.  A stream is the list of events it emits, in order.  The world
    is the file system and the console.  [Demo] is the instance on which the
    witnesses evaluate: a playlist of three items whose second download
    fails, and a playlist with a download that hangs. *)

From S2P Require Import Prelude Js Types FileSystem.

Open Scope string_scope.
Open Scope list_scope.
Open Scope nat_scope.

(** ** Streams *)

(** What the pipe of a readable stream into a write stream can emit: a chunk
    of data, an ['error'] of the readable side, an ['error'] of the writable
    side, or the ['finish'] of the writable side. *)
Inductive StreamEvent : Type :=
| EvData (chunk : string)
| EvReadError (e : Thrown)
| EvWriteError (e : Thrown)
| EvFinish.

#[export] Instance StreamEvent_eq_dec : EqDecision StreamEvent.
Proof. solve_decision. Defined.

(** ** URLs *)

(** A parsed URL, as far as the program looks into it: the query as the list
    of its key/value pairs, in order. *)
Record URL : Type := mkURL {
  href : string;
  searchParams : list (string * string);
}.

(** [searchParams.get(key)]: the value of the first pair with this key, or
    [null]. *)
Fixpoint searchParams_get (key : string) (params : list (string * string))
  : option string :=
  match params with
  | [] => None
  | (k, v) :: rest => if decide (k = key) then Some v else searchParams_get key rest
  end.

(** ** Playlists *)

(** An item as the playlist lister returns it: the declared fields of
    [PlaylistItem] and the [shortUrl] the program reads at run time. *)
Record YtplItem : Type := mkYtplItem {
  declared :> PlaylistItem;
  shortUrl : string;
}.

(** The result of the playlist lister. *)
Record YtplResult : Type := mkYtplResult {
  items : list YtplItem;
  playlist_title : string;
}.

(** ** The collaborators *)

Class Collaborators : Type := {
  (** [createSlug(title)] *)
  createSlug : string → string;
  (** [path.join(folder, name)] *)
  path_join : string → string → string;
  (** [new URL(s)]: [None] when the constructor throws *)
  url_parse : string → option URL;
  (** [ytpl(playlistId)]: rejects or lists the playlist *)
  ytpl : string → Thrown + YtplResult;
  (** [ytdl(url, {filter: 'audioonly'})] piped into a write stream: the
      events, in the order they are emitted *)
  ytdl : string → list StreamEvent;
}.

(** [new URL(s)] throws a [TypeError] on a string that is no URL. *)
Definition invalid_url : Thrown := mkTypeError "Invalid URL".

(** ** The world *)

Record World : Type := mkWorld {
  fs : FS;
  console : Console;
}.

(** An effect on the file system, as an effect on the world. *)
Definition on_fs {A} (m : eff FS Thrown A) : eff World Thrown A :=
  λ w, let (fs', c) := m (fs w) in ({| fs := fs'; console := console w |}, c).

(** [console.log] and [console.error]: a line appended to the console. *)
Definition print (line : LogLine) : eff World Thrown unit :=
  λ w, ({| fs := fs w; console := console w ++ [line] |}, Return tt).

Definition print_all (lines : list LogLine) : eff World Thrown unit :=
  λ w, ({| fs := fs w; console := console w ++ lines |}, Return tt).

(** ** A concrete instance *)

Module Demo.

Definition item (n : string) : YtplItem :=
  {| declared := {| item_id := n; item_url := "https://www.youtube.com/watch?v=" +:+ n;
                    url_simple := "https://www.youtube.com/watch?v=" +:+ n;
                    title := "Song " +:+ n; thumbnail := "";
                    duration := Some "3:00"; author := None |};
     shortUrl := "https://youtu.be/" +:+ n |}.

Definition playlist_url : string := "https://www.youtube.com/playlist?list=PL1".
Definition video_url : string := "https://www.youtube.com/watch?v=A".

Definition forbidden : Thrown := mkError "Status code: 403".

#[export] Instance collaborators : Collaborators := {|
  createSlug title := title;
  path_join folder name := folder +:+ "/" +:+ name;
  url_parse s :=
    if decide (s = playlist_url)
    then Some {| href := s; searchParams := [("list", "PL1")] |}
    else if decide (s = video_url)
    then Some {| href := s; searchParams := [("v", "A")] |}
    else None;
  ytpl pid :=
    if decide (pid = "PL1")
    then inr {| items := [item "A"; item "B"; item "C"]; playlist_title := "Mix" |}
    else if decide (pid = "PL2")
    then inr {| items := [item "A"; item "H"; item "C"]; playlist_title := "Stalled" |}
    else if decide (pid = "PL3")
    then inr {| items := [item "H"; item "A"]; playlist_title := "Hung" |}
    else inl (mkError "Unknown Playlist");
  ytdl u :=
    if decide (u = "https://youtu.be/A") then [EvData "a1"; EvData "a2"; EvFinish]
    else if decide (u = "https://youtu.be/B") then [EvData "b1"; EvReadError forbidden]
    else if decide (u = "https://youtu.be/C") then [EvData "c1"; EvFinish]
    else if decide (u = "https://youtu.be/H") then [EvData "h1"]
    else [EvReadError (mkError "Video unavailable")];
|}.

Definition world0 : World := {| fs := fs_empty; console := [] |}.

End Demo.

(** ** Facts *)

Lemma searchParams_get_Some key params v :
  searchParams_get key params = Some v → (key, v) ∈ params.
Proof.
  induction params as [|[k v'] rest IH]; [done|]. simpl.
  case_decide as Hk.
  - intros [= ->]. subst. apply elem_of_cons. by left.
  - intros H. apply elem_of_cons. right. auto.
Qed.

Lemma searchParams_get_None key params :
  searchParams_get key params = None ↔ ∀ v, (key, v) ∉ params.
Proof.
  induction params as [|[k v'] rest IH]; simpl.
  - split; [|done]. intros _ v. apply not_elem_of_nil.
  - case_decide as Hk.
    + subst. split; [done|]. intros H. destruct (H v'). apply elem_of_cons. by left.
    + rewrite IH. split.
      * intros H v [[= ? ?]|?]%elem_of_cons; [congruence|]. by eapply H.
      * intros H v Hv. apply (H v). apply elem_of_cons. by right.
Qed.

Lemma on_fs_console {A} (m : eff FS Thrown A) w :
  console (on_fs m w).1 = console w.
Proof. unfold on_fs. by destruct (m (fs w)). Qed.

Lemma on_fs_fs {A} (m : eff FS Thrown A) w : fs (on_fs m w).1 = (m (fs w)).1.
Proof. unfold on_fs. by destruct (m (fs w)). Qed.

Lemma on_fs_completion {A} (m : eff FS Thrown A) w :
  (on_fs m w).2 = (m (fs w)).2.
Proof. unfold on_fs. by destruct (m (fs w)). Qed.

Lemma print_fs line w : fs (print line w).1 = fs w.
Proof. reflexivity. Qed.

#[export] Hint Rewrite @on_fs_console @on_fs_fs @on_fs_completion print_fs
  : harmonix_simpl.
