(* ===== verification/Limiter.v ===== *)
(** * The concurrency limiter

    [pLimit(concurrency)] of the library [p-limit], which the downloader
    calls and the repository does not contain: modelled from the
    specification as a counter of running tasks and a FIFO queue of waiting
    ones.  A task handed to the limiter is enqueued and started at once when
    a slot is free; when a task ends the counter goes down and the head of
    the queue, if any, is started.

    The second half states what the limiter promises as a transition system
    over the list of running and the list of waiting tasks ([pool_step]),
    and shows that the counter-and-queue operations refine it. *)

From S2P Require Import Prelude Js.

Open Scope string_scope.
Open Scope list_scope.
Open Scope nat_scope.

Section limiter.
Context {T : Type}.

Record Limiter : Type := mkLimiter {
  maxConcurrency : Z;
  activeCount : Z;
  queue : list T;
}.

Definition concurrency_error : Thrown :=
  mkTypeError "Expected `concurrency` to be a number from 1 and up".

(** [pLimit(n)]: a limiter with no task, for a positive [n]. *)
Definition pLimit (n : Z) : completion Thrown Limiter :=
  if decide (1 ≤ n)%Z
  then Return {| maxConcurrency := n; activeCount := 0; queue := [] |}
  else Throw concurrency_error.

Definition enqueue (t : T) (l : Limiter) : Limiter :=
  {| maxConcurrency := maxConcurrency l; activeCount := activeCount l;
     queue := queue l ++ [t] |}.

(** Starts the head of the queue when a slot is free; returns the task
    started. *)
Definition resumeNext (l : Limiter) : option T * Limiter :=
  match queue l with
  | t :: rest =>
      if decide (activeCount l < maxConcurrency l)%Z
      then (Some t, {| maxConcurrency := maxConcurrency l;
                       activeCount := activeCount l + 1; queue := rest |})
      else (None, l)
  | [] => (None, l)
  end.

(** A task is handed to the limiter. *)
Definition submit (t : T) (l : Limiter) : option T * Limiter :=
  resumeNext (enqueue t l).

(** A slot is given back. *)
Definition release (l : Limiter) : Limiter :=
  {| maxConcurrency := maxConcurrency l; activeCount := activeCount l - 1;
     queue := queue l |}.

(** A running task has ended: its slot is given back, and the head of the
    queue may take it. *)
Definition next (l : Limiter) : option T * Limiter :=
  resumeNext (release l).

(** The counter is within its bounds. *)
Definition lim_ok (l : Limiter) : Prop :=
  (0 ≤ activeCount l ≤ maxConcurrency l)%Z.

(** No slot is free while a task waits. *)
Definition lim_eager (l : Limiter) : Prop :=
  queue l ≠ [] → activeCount l = maxConcurrency l.

Definition lim_idle (l : Limiter) : Prop :=
  activeCount l = 0%Z ∧ queue l = [].

(** ** The operations as a sequence, with the tasks they start *)

Inductive LimOp : Type :=
| OpSubmit (t : T)
| OpNext.

Definition lim_apply (op : LimOp) (l : Limiter) : option T * Limiter :=
  match op with
  | OpSubmit t => submit t l
  | OpNext => next l
  end.

(** Runs the operations in order; the tasks started, in the order they
    were started, and the limiter at the end. *)
Fixpoint lim_run (ops : list LimOp) (l : Limiter) : list T * Limiter :=
  match ops with
  | [] => ([], l)
  | op :: ops' =>
      let (started, l1) := lim_apply op l in
      let (later, l2) := lim_run ops' l1 in
      (option_list started ++ later, l2)
  end.

Definition submitted (ops : list LimOp) : list T :=
  omap (λ op, match op with OpSubmit t => Some t | OpNext => None end) ops.

(** ** The specification: a pool of running and waiting tasks *)

Record Pool : Type := mkPool {
  capacity : Z;
  running : list T;
  waiting : list T;
}.

Inductive PoolLabel : Type :=
| Submit (t : T)
| Start (t : T)
| Finish (t : T).

Inductive pool_step : Pool → PoolLabel → Pool → Prop :=
| pool_submit p t :
    pool_step p (Submit t)
      {| capacity := capacity p; running := running p; waiting := waiting p ++ [t] |}
| pool_start p t rest :
    waiting p = t :: rest →
    (Z.of_nat (length (running p)) < capacity p)%Z →
    pool_step p (Start t)
      {| capacity := capacity p; running := running p ++ [t]; waiting := rest |}
| pool_finish p t r1 r2 :
    running p = r1 ++ t :: r2 →
    pool_step p (Finish t)
      {| capacity := capacity p; running := r1 ++ r2; waiting := waiting p |}.

Inductive pool_steps : Pool → list PoolLabel → Pool → Prop :=
| pool_steps_nil p : pool_steps p [] p
| pool_steps_cons p1 p2 p3 lab labs :
    pool_step p1 lab p2 → pool_steps p2 labs p3 →
    pool_steps p1 (lab :: labs) p3.

(** At most [capacity] tasks run. *)
Definition pool_ok (p : Pool) : Prop :=
  (Z.of_nat (length (running p)) ≤ capacity p)%Z.

(** The limiter implements the pool: same capacity, same queue, and the
    counter is the number of running tasks. *)
Definition lim_abs (l : Limiter) (p : Pool) : Prop :=
  capacity p = maxConcurrency l ∧
  Z.of_nat (length (running p)) = activeCount l ∧
  waiting p = queue l.

(** ** Facts on the limiter *)

Lemma pLimit_Return n l :
  pLimit n = Return l ↔
  (1 ≤ n)%Z ∧ l = {| maxConcurrency := n; activeCount := 0; queue := [] |}.
Proof. unfold pLimit. case_decide; naive_solver. Qed.

Lemma pLimit_Throw n e : pLimit n = Throw e ↔ (n < 1)%Z ∧ e = concurrency_error.
Proof.
  unfold pLimit. case_decide; split.
  - done.
  - intros [? _]. lia.
  - intros [= <-]. split; [lia|done].
  - by intros [_ ->].
Qed.

Lemma pLimit_ok n l : pLimit n = Return l → lim_ok l ∧ lim_idle l.
Proof. intros [? ->]%pLimit_Return. unfold lim_ok, lim_idle. simpl. split; [lia|done]. Qed.

(** The three ways [resumeNext] can go. *)
Lemma resumeNext_cases l :
  (queue l = [] ∧ resumeNext l = (None, l)) ∨
  (queue l ≠ [] ∧ (maxConcurrency l ≤ activeCount l)%Z ∧ resumeNext l = (None, l)) ∨
  (∃ t rest, queue l = t :: rest ∧ (activeCount l < maxConcurrency l)%Z ∧
     resumeNext l = (Some t, {| maxConcurrency := maxConcurrency l;
                                activeCount := activeCount l + 1; queue := rest |})).
Proof.
  unfold resumeNext. destruct (queue l) as [|t rest] eqn:Hq; [by left|].
  case_decide; [right; right; by exists t, rest|].
  right; left. repeat split; [done|lia].
Qed.

Lemma resumeNext_max l : maxConcurrency (resumeNext l).2 = maxConcurrency l.
Proof. by destruct (resumeNext_cases l) as [[_ ->]|[(_&_& ->)|(?&?&_&_& ->)]]. Qed.

Lemma submit_max t l : maxConcurrency (submit t l).2 = maxConcurrency l.
Proof. unfold submit. by rewrite resumeNext_max. Qed.

Lemma next_max l : maxConcurrency (next l).2 = maxConcurrency l.
Proof. unfold next. by rewrite resumeNext_max. Qed.

(** What is started joins the tasks that left the queue: the queue only
    loses its head. *)
Lemma resumeNext_queue l :
  option_list (resumeNext l).1 ++ queue (resumeNext l).2 = queue l.
Proof.
  by destruct (resumeNext_cases l) as [[_ ->]|[(_&_& ->)|(?&?& -> &_& ->)]].
Qed.

Lemma resumeNext_count l :
  activeCount (resumeNext l).2 =
  (activeCount l + Z.of_nat (length (option_list (resumeNext l).1)))%Z.
Proof.
  destruct (resumeNext_cases l) as [[_ ->]|[(_&_& ->)|(?&?&_&_& ->)]];
    simpl; lia.
Qed.

Lemma resumeNext_ok l :
  (activeCount l ≤ maxConcurrency l)%Z → (0 ≤ activeCount l)%Z →
  lim_ok (resumeNext l).2.
Proof.
  intros ??. unfold lim_ok.
  destruct (resumeNext_cases l) as [[_ ->]|[(_&_& ->)|(?&?&_&?& ->)]];
    simpl; lia.
Qed.

Lemma resumeNext_eager l :
  (maxConcurrency l - 1 ≤ activeCount l ≤ maxConcurrency l)%Z →
  lim_eager (resumeNext l).2.
Proof.
  intros ?. unfold lim_eager.
  destruct (resumeNext_cases l) as [[? ->]|[(_&?& ->)|(?&?&_&?& ->)]];
    simpl; [done|lia|lia].
Qed.

Lemma submit_ok t l : lim_ok l → lim_ok (submit t l).2.
Proof. intros []. apply resumeNext_ok; simpl; lia. Qed.

Lemma next_ok l : lim_ok l → (1 ≤ activeCount l)%Z → lim_ok (next l).2.
Proof. intros [] ?. apply resumeNext_ok; simpl; lia. Qed.

Lemma submit_eager t l : lim_ok l → lim_eager l → lim_eager (submit t l).2.
Proof.
  intros [] He. unfold submit.
  destruct (decide (queue l = [])) as [Hq|Hq].
  - unfold lim_eager. destruct (resumeNext_cases (enqueue t l))
      as [[B _]|[(_&?& ->)|(?&?& B &?& ->)]]; simpl in *.
    + by destruct (queue l).
    + intros _. lia.
    + rewrite Hq in B. injection B as <- <-. by intros ?.
  - apply resumeNext_eager. simpl. rewrite (He Hq). lia.
Qed.

Lemma next_eager l : lim_ok l → lim_eager l → lim_eager (next l).2.
Proof.
  intros [] He. unfold next.
  destruct (decide (queue l = [])) as [Hq|Hq].
  - unfold resumeNext. simpl. rewrite Hq. by intros ?.
  - apply resumeNext_eager. simpl. rewrite (He Hq). lia.
Qed.

(** When the last task ends with an empty queue the limiter is idle. *)
Lemma next_idle l :
  activeCount l = 1%Z → queue l = [] → lim_idle (next l).2.
Proof.
  intros Ha Hq. unfold next, resumeNext, lim_idle. simpl. rewrite Hq. simpl.
  split; [lia|done].
Qed.

(** *** Admission is first in, first out *)

Lemma lim_apply_queue op l :
  option_list (lim_apply op l).1 ++ queue (lim_apply op l).2 =
  queue l ++ submitted [op].
Proof.
  destruct op as [t|]; simpl; unfold submit, next.
  - by rewrite resumeNext_queue.
  - by rewrite resumeNext_queue, app_nil_r.
Qed.

(** The tasks started so far, followed by the tasks still waiting, are the
    tasks submitted, in submission order. *)
Lemma lim_run_fifo ops l :
  (lim_run ops l).1 ++ queue (lim_run ops l).2 = queue l ++ submitted ops.
Proof.
  revert l. induction ops as [|op ops IH]; intros l; simpl.
  - by rewrite app_nil_r.
  - pose proof (lim_apply_queue op l) as H1.
    destruct (lim_apply op l) as [o l1]. specialize (IH l1).
    destruct (lim_run ops l1) as [later l2]. simpl in *.
    rewrite <- app_assoc, IH, app_assoc, H1, <- app_assoc. f_equal.
    unfold submitted. simpl. by destruct op.
Qed.

Lemma lim_run_max ops l : maxConcurrency (lim_run ops l).2 = maxConcurrency l.
Proof.
  revert l. induction ops as [|op ops IH]; intros l; simpl; [done|].
  assert (maxConcurrency (lim_apply op l).2 = maxConcurrency l) as H1
    by (destruct op; [apply submit_max|apply next_max]).
  destruct (lim_apply op l) as [o l1]. specialize (IH l1).
  destruct (lim_run ops l1) as [later l2]. simpl in *. congruence.
Qed.

(** ** Facts on the pool *)

Lemma pool_step_capacity p lab p' : pool_step p lab p' → capacity p' = capacity p.
Proof. by destruct 1. Qed.

Lemma pool_step_ok p lab p' : pool_step p lab p' → pool_ok p → pool_ok p'.
Proof.
  unfold pool_ok. destruct 1 as [| |p t r1 r2 Hr]; simpl; intros Hok; [done| |].
  - rewrite length_app. simpl. lia.
  - rewrite Hr in Hok. rewrite length_app in *. simpl in Hok. lia.
Qed.

Lemma pool_steps_ok p labs p' : pool_steps p labs p' → pool_ok p → pool_ok p'.
Proof. induction 1; eauto using pool_step_ok. Qed.

Lemma pool_steps_app p1 p2 p3 labs1 labs2 :
  pool_steps p1 labs1 p2 → pool_steps p2 labs2 p3 →
  pool_steps p1 (labs1 ++ labs2) p3.
Proof. induction 1; simpl; eauto using pool_steps. Qed.

(** ** Refinement *)

Definition start_labels (o : option T) : list PoolLabel :=
  match o with Some t => [Start t] | None => [] end.

(** [resumeNext] is zero or one [Start] of the pool. *)
Lemma resumeNext_refines l p :
  lim_abs l p →
  ∃ p', pool_steps p (start_labels (resumeNext l).1) p' ∧
        lim_abs (resumeNext l).2 p'.
Proof.
  intros (Hc & Ha & Hw).
  destruct (resumeNext_cases l) as [[_ ->]|[(_&_& ->)|(t&rest&Hq&?& ->)]];
    simpl; [exists p; split; [constructor|done]..|].
  eexists. split.
  - econstructor; [|constructor]. apply (pool_start p t rest); [congruence|lia].
  - repeat split; simpl; [done|rewrite length_app; simpl; lia].
Qed.

(** Handing a task over is a [Submit] of the pool, then at most one
    [Start]. *)
Lemma submit_refines t l p :
  lim_abs l p →
  ∃ p', pool_steps p (Submit t :: start_labels (submit t l).1) p' ∧
        lim_abs (submit t l).2 p'.
Proof.
  intros (Hc & Ha & Hw).
  destruct (resumeNext_refines (enqueue t l)
    {| capacity := capacity p; running := running p; waiting := waiting p ++ [t] |})
    as (p' & Hsteps & Habs); [unfold lim_abs; simpl; by rewrite Hw|].
  exists p'. split; [|done]. econstructor; [apply pool_submit|done].
Qed.

(** The end of a running task is a [Finish] of the pool, then at most one
    [Start]. *)
Lemma next_refines t l p :
  lim_abs l p → t ∈ running p →
  ∃ p', pool_steps p (Finish t :: start_labels (next l).1) p' ∧
        lim_abs (next l).2 p'.
Proof.
  intros (Hc & Ha & Hw) (r1 & r2 & Hr)%list_elem_of_split.
  destruct (resumeNext_refines (release l)
    {| capacity := capacity p; running := r1 ++ r2; waiting := waiting p |})
    as (p' & Hsteps & Habs).
  - repeat split; simpl; [done| |done].
    rewrite Hr in Ha. rewrite length_app in *. simpl in Ha. lia.
  - exists p'. split; [|done]. econstructor; [by apply pool_finish|done].
Qed.

(** A run of the limiter from a state that implements a pool is a run of
    the pool, as long as every [next] answers the end of a running task.
    The labels record which task ended. *)
Definition op_labels (op : LimOp) (ended : T) (started : option T)
  : list PoolLabel :=
  match op with
  | OpSubmit t => Submit t :: start_labels started
  | OpNext => Finish ended :: start_labels started
  end.

Lemma lim_apply_refines op ended l p :
  lim_abs l p → (op = OpNext → ended ∈ running p) →
  ∃ p', pool_steps p (op_labels op ended (lim_apply op l).1) p' ∧
        lim_abs (lim_apply op l).2 p'.
Proof.
  intros Habs Hended. destruct op as [t|]; simpl.
  - by apply submit_refines.
  - apply next_refines; auto.
Qed.

End limiter.

Arguments Limiter T : clear implicits.
Arguments Pool T : clear implicits.
Arguments LimOp T : clear implicits.
Arguments PoolLabel T : clear implicits.

#[export] Hint Resolve @submit_ok @next_ok @submit_eager @next_eager : harmonix.
#[export] Hint Rewrite @submit_max @next_max @resumeNext_max : harmonix_simpl.
