(* ===== verification/Downloader.v ===== *)
(** * The class [YoutubeDownloader]: fields, constructor, folder and paths

    The private fields of the class as a record, the constructor with
    [validateInputs], [ensureOutputFolder] and [getOutputPath].  The
    constructor is a function to a completion: it returns the object or
    throws.  The limiter a downloader holds identifies a task by the index
    of its playlist item. *)

From S2P Require Import Prelude Js Types FileSystem Collab Limiter.

Open Scope string_scope.
Open Scope list_scope.
Open Scope nat_scope.

Section downloader.
Context `{Collaborators}.

(** The private fields [outputFolder], [url] and [limit]. *)
Record YoutubeDownloader : Type := mkYoutubeDownloader {
  outputFolder : string;
  url : URL;
  limit : Limiter nat;
}.

Definition required_error : Thrown :=
  mkError "URL and output folder are required".

(** [validateInputs(url, outputFolder)] *)
Definition validateInputs (url outputFolder : string) : completion Thrown unit :=
  if falsy url || falsy outputFolder
  then Throw required_error
  else Return tt.

(** [new URL(url)] *)
Definition new_URL (s : string) : completion Thrown URL :=
  match url_parse s with
  | Some u => Return u
  | None => Throw invalid_url
  end.

(** [options?.concurrency ?? YoutubeDownloader.DEFAULT_CONCURRENCY] *)
Definition concurrency_of (options : option DownloadOptions) : Z :=
  nullish_default (options ≫= concurrency) DEFAULT_CONCURRENCY.

(** [new YoutubeDownloader(url, outputFolder, options)] *)
Definition new_YoutubeDownloader (url outputFolder : string)
    (options : option DownloadOptions) : completion Thrown YoutubeDownloader :=
  completion_bind (validateInputs url outputFolder) (λ _,
  completion_bind (new_URL url) (λ u,
  completion_bind (pLimit (concurrency_of options)) (λ l,
  Return {| outputFolder := outputFolder; url := u; limit := l |}))).

(** [ensureOutputFolder()] *)
Definition ensureOutputFolder (d : YoutubeDownloader) : eff FS Thrown unit :=
  λ fs, if negb (existsSync (outputFolder d) fs)
        then mkdir_recursive (outputFolder d) fs
        else (fs, Return tt).

(** [getOutputPath(title, format)] *)
Definition getOutputPath (d : YoutubeDownloader) (title format : string) : string :=
  path_join (outputFolder d) (createSlug title +:+ format).

(** A downloader as the constructor leaves it: both strings non-empty and a
    limiter with no task and a positive limit. *)
Definition downloader_wf (d : YoutubeDownloader) : Prop :=
  outputFolder d ≠ "" ∧ (1 ≤ maxConcurrency (limit d))%Z ∧
  lim_ok (limit d) ∧ lim_idle (limit d).

(** ** The constructor *)

Lemma validateInputs_Return url outputFolder :
  validateInputs url outputFolder = Return tt ↔ url ≠ "" ∧ outputFolder ≠ "".
Proof.
  unfold validateInputs.
  destruct (falsy url) eqn:Hu, (falsy outputFolder) eqn:Ho; simpl;
    autorewrite with harmonix_simpl in *; naive_solver.
Qed.

Lemma validateInputs_Throw url outputFolder e :
  validateInputs url outputFolder = Throw e ↔
  (url = "" ∨ outputFolder = "") ∧ e = required_error.
Proof.
  unfold validateInputs.
  destruct (falsy url) eqn:Hu, (falsy outputFolder) eqn:Ho; simpl;
    autorewrite with harmonix_simpl in *; naive_solver.
Qed.

Lemma concurrency_of_None : concurrency_of None = DEFAULT_CONCURRENCY.
Proof. reflexivity. Qed.

Lemma concurrency_of_Some f c :
  concurrency_of (Some {| format := f; concurrency := Some c |}) = c.
Proof. reflexivity. Qed.

Lemma concurrency_of_unset f :
  concurrency_of (Some {| format := f; concurrency := None |}) = DEFAULT_CONCURRENCY.
Proof. reflexivity. Qed.

(** What it takes for the constructor to return, and what it returns. *)
Lemma new_YoutubeDownloader_Return url outputFolder options d :
  new_YoutubeDownloader url outputFolder options = Return d ↔
  url ≠ "" ∧ outputFolder ≠ "" ∧ (1 ≤ concurrency_of options)%Z ∧
  ∃ u, url_parse url = Some u ∧
       d = {| outputFolder := outputFolder; url := u;
              limit := {| maxConcurrency := concurrency_of options;
                          activeCount := 0; queue := [] |} |}.
Proof.
  unfold new_YoutubeDownloader, new_URL.
  rewrite completion_bind_Return. setoid_rewrite completion_bind_Return.
  setoid_rewrite completion_bind_Return. setoid_rewrite pLimit_Return.
  split.
  - intros ([] & Hv & u & Hu & l & [? ->] & [= <-]).
    apply validateInputs_Return in Hv as [? ?].
    destruct (url_parse url) eqn:?; naive_solver.
  - intros (? & ? & ? & u & -> & ->). exists tt.
    split; [by apply validateInputs_Return|]. naive_solver.
Qed.

Lemma new_YoutubeDownloader_wf url outputFolder options d :
  new_YoutubeDownloader url outputFolder options = Return d → downloader_wf d.
Proof.
  intros (_ & ? & ? & u & _ & ->)%new_YoutubeDownloader_Return.
  unfold downloader_wf, lim_ok, lim_idle. simpl. repeat split; auto; lia.
Qed.

(** ** The output folder *)

Lemma ensureOutputFolder_exists d fs :
  existsSync (outputFolder d) fs = true →
  ensureOutputFolder d fs = (fs, Return tt).
Proof. intros Hx. unfold ensureOutputFolder. by rewrite Hx. Qed.

Lemma ensureOutputFolder_missing d fs :
  existsSync (outputFolder d) fs = false →
  ensureOutputFolder d fs =
  ({| dirs := {[outputFolder d]} ∪ dirs fs; files := files fs |}, Return tt).
Proof.
  intros Hx. unfold ensureOutputFolder. rewrite Hx. simpl.
  apply mkdir_recursive_ok. apply existsSync_false in Hx as [_ Hx].
  by apply is_file_false.
Qed.

Lemma ensureOutputFolder_completion d fs :
  (ensureOutputFolder d fs).2 = Return tt.
Proof.
  destruct (existsSync (outputFolder d) fs) eqn:Hx.
  - by rewrite ensureOutputFolder_exists.
  - by rewrite ensureOutputFolder_missing.
Qed.

Lemma ensureOutputFolder_files d fs :
  files (ensureOutputFolder d fs).1 = files fs.
Proof.
  destruct (existsSync (outputFolder d) fs) eqn:Hx.
  - by rewrite ensureOutputFolder_exists.
  - by rewrite ensureOutputFolder_missing.
Qed.

Lemma ensureOutputFolder_existsSync d fs :
  existsSync (outputFolder d) (ensureOutputFolder d fs).1 = true.
Proof.
  destruct (existsSync (outputFolder d) fs) eqn:Hx.
  - by rewrite ensureOutputFolder_exists.
  - rewrite ensureOutputFolder_missing by done.
    apply existsSync_true. left. simpl. set_solver.
Qed.

Lemma ensureOutputFolder_wf d fs : fs_wf fs → fs_wf (ensureOutputFolder d fs).1.
Proof.
  intros Hwf. unfold ensureOutputFolder.
  destruct (existsSync (outputFolder d) fs); simpl; auto with harmonix.
Qed.

(** The folder is a directory afterwards unless the path was a file. *)
Lemma ensureOutputFolder_is_dir d fs :
  is_file (outputFolder d) fs = false →
  is_dir (outputFolder d) (ensureOutputFolder d fs).1 = true.
Proof.
  intros Hf. destruct (existsSync (outputFolder d) fs) eqn:Hx.
  - rewrite ensureOutputFolder_exists by done.
    apply existsSync_true in Hx as [?|Hs]; [by apply is_dir_true|].
    apply is_file_true in Hs. congruence.
  - rewrite ensureOutputFolder_missing by done. apply is_dir_true. simpl. set_solver.
Qed.

(** ** The theorems of the constructor and of the output folder *)

(** The three ways the constructor throws, in the order it tries them. *)
Lemma constructor_requires_inputs link folder options :
  link = "" ∨ folder = "" →
  new_YoutubeDownloader link folder options = Throw required_error.
Proof.
  intros Hv. unfold new_YoutubeDownloader.
  by rewrite (proj2 (validateInputs_Throw link folder required_error)).
Qed.

Lemma constructor_invalid_url link folder options :
  link ≠ "" → folder ≠ "" → url_parse link = None →
  new_YoutubeDownloader link folder options = Throw invalid_url.
Proof.
  intros Hu Hf Hp. unfold new_YoutubeDownloader, new_URL.
  by rewrite (proj2 (validateInputs_Return link folder)), Hp.
Qed.

Lemma constructor_rejects_concurrency link folder options :
  link ≠ "" → folder ≠ "" → is_Some (url_parse link) →
  (concurrency_of options < 1)%Z →
  new_YoutubeDownloader link folder options = Throw concurrency_error.
Proof.
  intros Hu Hf [u Hp] Hc. unfold new_YoutubeDownloader, new_URL.
  rewrite (proj2 (validateInputs_Return link folder)), Hp by done. simpl.
  by rewrite (proj2 (pLimit_Throw (concurrency_of options) concurrency_error)).
Qed.

(** C30: the constructor throws in three cases and no other, tried in this
    order: an empty URL or output folder ("URL and output folder are
    required"); a string that is no URL (the [TypeError] of [new URL]); a
    concurrency below one, which is not nullish and so is not replaced by
    the default (the [TypeError] of the limiter). *)
Theorem constructor_throws link folder options e :
  new_YoutubeDownloader link folder options = Throw e ↔
  ((link = "" ∨ folder = "") ∧ e = required_error) ∨
  (link ≠ "" ∧ folder ≠ "" ∧ url_parse link = None ∧ e = invalid_url) ∨
  (link ≠ "" ∧ folder ≠ "" ∧ is_Some (url_parse link) ∧
   (concurrency_of options < 1)%Z ∧ e = concurrency_error).
Proof.
  split.
  - unfold new_YoutubeDownloader, new_URL.
    destruct (validateInputs link folder) as [[]|e'|] eqn:Hv; simpl.
    + apply validateInputs_Return in Hv as [? ?].
      destruct (url_parse link) as [u|]; simpl; [|naive_solver].
      destruct (pLimit _) eqn:Hl; simpl; [done| |done].
      apply pLimit_Throw in Hl. naive_solver.
    + apply validateInputs_Throw in Hv. naive_solver.
    + unfold validateInputs in Hv. by case_match.
  - intros [[Hv ->]|[(? & ? & ? & ->)|(? & ? & ? & ? & ->)]];
      auto using constructor_requires_inputs, constructor_invalid_url,
        constructor_rejects_concurrency.
Qed.

(** C31: a downloader the constructor returns is well formed: it holds the
    folder it was given and the parsed URL, and its limiter is idle with
    the concurrency of the options, which is 30 when the options set
    none. *)
Theorem constructor_builds link folder options d :
  new_YoutubeDownloader link folder options = Return d →
  downloader_wf d ∧ outputFolder d = folder ∧ url_parse link = Some (url d) ∧
  maxConcurrency (limit d) = concurrency_of options ∧
  (options ≫= concurrency = None → maxConcurrency (limit d) = 30%Z).
Proof.
  intros Hd. split; [by eapply new_YoutubeDownloader_wf|].
  apply new_YoutubeDownloader_Return in Hd as (_ & _ & _ & u & Hu & ->).
  repeat split; [done|]. simpl. unfold concurrency_of. by intros ->.
Qed.

(** C36: [ensureOutputFolder] returns, whatever is at the path of the
    folder; the path exists afterwards; and the method is idempotent: a
    second call changes nothing and returns. *)
Theorem ensureOutputFolder_idempotent d fs :
  (ensureOutputFolder d fs).2 = Return tt ∧
  existsSync (outputFolder d) (ensureOutputFolder d fs).1 = true ∧
  ensureOutputFolder d (ensureOutputFolder d fs).1
  = ((ensureOutputFolder d fs).1, Return tt).
Proof.
  split; [apply ensureOutputFolder_completion|].
  split; [apply ensureOutputFolder_existsSync|].
  apply ensureOutputFolder_exists, ensureOutputFolder_existsSync.
Qed.

End downloader.

(** ** A concrete downloader *)

Module DemoDownloader.
Import Demo.

(** The downloader [new YoutubeDownloader(playlist_url, "out", {concurrency: 2})]
    builds. *)
Definition demo : YoutubeDownloader :=
  {| outputFolder := "out";
     url := {| href := playlist_url; searchParams := [("list", "PL1")] |};
     limit := {| maxConcurrency := 2; activeCount := 0; queue := [] |} |}.

(** A file system in which the output folder exists. *)
Definition fs_out : FS := {| dirs := {["out"]}; files := ∅ |}.

Lemma demo_wf : downloader_wf demo.
Proof. unfold downloader_wf, lim_ok, lim_idle. simpl. repeat split; (done || lia). Qed.

Lemma constructor_throws_witness :
  new_YoutubeDownloader playlist_url "out"
    (Some {| format := None; concurrency := Some 0%Z |})
  = Throw concurrency_error.
Proof.
  apply (constructor_throws playlist_url "out"). right. right.
  repeat split; (done || by eexists).
Defined.

Lemma constructor_builds_witness :
  downloader_wf demo ∧ outputFolder demo = "out" ∧
  url_parse playlist_url = Some (url demo) ∧
  maxConcurrency (limit demo) =
    concurrency_of (Some {| format := None; concurrency := Some 2%Z |}) ∧
  (Some {| format := None; concurrency := Some 2%Z |} ≫= concurrency = None →
   maxConcurrency (limit demo) = 30%Z).
Proof.
  apply (constructor_builds playlist_url "out"
           (Some {| format := None; concurrency := Some 2%Z |}) demo).
  reflexivity.
Defined.

End DemoDownloader.

#[export] Hint Resolve @ensureOutputFolder_wf : harmonix.
#[export] Hint Rewrite @ensureOutputFolder_completion @ensureOutputFolder_files
  @ensureOutputFolder_existsSync : harmonix_simpl.
