(* ===== verification/Single.v ===== *)
(** * [downloadSingle]: one item, from stream to file

    The promise the method awaits is settled by the first of three events:
    an ['error'] of the media stream, an ['error'] of the write stream, or
    the ['finish'] of the write stream; the handlers of later events find it
    settled and do nothing.  The method is modelled twice:

    - as the function [downloadSingle] in the effect monad, which runs the
      stream to its first settling event in one go;
    - as the phases a call goes through ([Phase]) with one step per
      suspension point ([task_step]), which is what interleaves with other
      calls when the limiter runs several.

    [destiny] and [fate] say what the result and the file of a call will be
    from the phase it is in; both are unchanged by the steps of the call, and
    the two models agree on them. *)

From S2P Require Import Prelude Js Types FileSystem Collab Limiter Downloader.

Open Scope string_scope.
Open Scope list_scope.
Open Scope nat_scope.

Section single.
Context `{Collaborators}.

(** ** The promise and its executor *)

Inductive PromiseState : Type :=
| PromisePending
| Fulfilled
| Rejected (reason : Thrown).

(** The three handlers the executor registers: [stream.on('error', reject)],
    [writeStream.on('error', reject)], [writeStream.on('finish', resolve)].
    [resolve] and [reject] do nothing on a settled promise. *)
Definition on_event (p : PromiseState) (ev : StreamEvent) : PromiseState :=
  match p with
  | PromisePending =>
      match ev with
      | EvData _ => PromisePending
      | EvReadError e => Rejected e
      | EvWriteError e => Rejected e
      | EvFinish => Fulfilled
      end
  | Fulfilled => Fulfilled
  | Rejected e => Rejected e
  end.

(** The promise after the handlers have seen all the events. *)
Definition settle (events : list StreamEvent) : PromiseState :=
  foldl on_event PromisePending events.

(** An event that settles a pending promise. *)
Definition settling (ev : StreamEvent) : bool :=
  match ev with
  | EvData _ => false
  | _ => true
  end.

(** The race as the specification words it: the first settling event
    decides. *)
Definition first_wins (events : list StreamEvent) : PromiseState :=
  match find_first settling events with
  | Some (EvReadError e) | Some (EvWriteError e) => Rejected e
  | Some EvFinish => Fulfilled
  | Some (EvData _) | None => PromisePending
  end.

(** The chunks written before the promise settles. *)
Fixpoint chunks_written (events : list StreamEvent) : list string :=
  match events with
  | EvData c :: rest => c :: chunks_written rest
  | _ => []
  end.

(** ** The method, in one go *)

(** What the write stream of [path] and the pipe into it see: the error of
    the open if the file cannot be opened, else the events of the media
    stream. *)
Definition stream_events (err : option Thrown) (url : string) : list StreamEvent :=
  match err with
  | Some e => [EvWriteError e]
  | None => ytdl url
  end.

(** The pipe: chunks are written until the promise settles. *)
Fixpoint pipe (path : string) (events : list StreamEvent) : eff FS Thrown unit :=
  match events with
  | [] => eff_pending
  | EvData c :: rest => λ fs, pipe path rest (write_chunk path c fs)
  | EvFinish :: _ => eff_ret tt
  | EvReadError e :: _ => eff_throw e
  | EvWriteError e :: _ => eff_throw e
  end.

(** [await new Promise((resolve, reject) => ...)]: the write stream is
    created, the media stream is piped into it. *)
Definition await_pipe (d : YoutubeDownloader) (path url : string)
  : eff FS Thrown unit :=
  λ fs, let (fs', err) := open_write (outputFolder d) path fs in
        pipe path (stream_events err url) fs'.

(** [await fs.unlink(outputPath).catch(() => {})] *)
Definition unlink_quiet (path : string) : eff FS Thrown unit :=
  eff_catch (unlink path) (λ _, eff_ret tt).

(** [downloadSingle(url, title, format = DEFAULT_FORMAT)] *)
Definition downloadSingle (d : YoutubeDownloader) (url title : string)
    (format : option string) : eff FS Thrown DownloadResult :=
  let outputPath := getOutputPath d title (nullish_default format DEFAULT_FORMAT) in
  eff_catch
    (eff_bind (await_pipe d outputPath url) (λ _, eff_ret result_ok))
    (λ error,
       eff_bind (unlink_quiet outputPath) (λ _,
       eff_ret (result_failed (error_message error)))).

(** ** The method, step by step *)

Inductive Phase : Type :=
| Queued
| Piping (rest : list StreamEvent)
| Cleaning (reason : Thrown)
| Done (r : DownloadResult).

(** The call starts: the body runs up to the [await]. *)
Definition task_start (d : YoutubeDownloader) (path url : string) (fs : FS)
  : Phase * FS :=
  let (fs', err) := open_write (outputFolder d) path fs in
  (Piping (stream_events err url), fs').

(** One step of a call: the next event of its stream is delivered, or the
    clean-up of the [catch] block runs.  [None] when the call has no step:
    it has not started, it has returned, or its stream hangs. *)
Definition task_step (path : string) (ph : Phase) (fs : FS) : option (Phase * FS) :=
  match ph with
  | Piping (EvData c :: rest) => Some (Piping rest, write_chunk path c fs)
  | Piping (EvFinish :: _) => Some (Done result_ok, fs)
  | Piping (EvReadError e :: _) => Some (Cleaning e, fs)
  | Piping (EvWriteError e :: _) => Some (Cleaning e, fs)
  | Piping [] => None
  | Cleaning e => Some (Done (result_failed (error_message e)), (unlink_quiet path fs).1)
  | Queued => None
  | Done _ => None
  end.

(** The steps a started call has left, at most. *)
Definition task_fuel (ph : Phase) : nat :=
  match ph with
  | Queued => 0
  | Piping rest => length rest + 1
  | Cleaning _ => 1
  | Done _ => 0
  end.

(** Runs a call on its own until it has no step. *)
Fixpoint task_run (fuel : nat) (path : string) (ph : Phase) (fs : FS) : Phase * FS :=
  match fuel with
  | 0 => (ph, fs)
  | S fuel' =>
      match task_step path ph fs with
      | Some (ph', fs') => task_run fuel' path ph' fs'
      | None => (ph, fs)
      end
  end.

Definition is_Done (ph : Phase) : bool :=
  match ph with Done _ => true | _ => false end.

Definition is_active (ph : Phase) : bool :=
  match ph with Piping _ | Cleaning _ => true | _ => false end.

Definition is_Queued (ph : Phase) : bool :=
  match ph with Queued => true | _ => false end.

(** ** What a call will produce *)

(** The result the events lead to; [None] when they never settle. *)
Fixpoint pipe_destiny (events : list StreamEvent) : option DownloadResult :=
  match events with
  | [] => None
  | EvData _ :: rest => pipe_destiny rest
  | EvFinish :: _ => Some result_ok
  | EvReadError e :: _ => Some (result_failed (error_message e))
  | EvWriteError e :: _ => Some (result_failed (error_message e))
  end.

(** The file the events lead to, from its content now. *)
Fixpoint pipe_fate (events : list StreamEvent) (cur : option (list string))
  : option (list string) :=
  match events with
  | [] => cur
  | EvData c :: rest => pipe_fate rest ((λ content, content ++ [c]) <$> cur)
  | EvFinish :: _ => cur
  | EvReadError _ :: _ => None
  | EvWriteError _ :: _ => None
  end.

(** The result of a started call, from its phase. *)
Definition destiny (ph : Phase) : option DownloadResult :=
  match ph with
  | Queued => None
  | Piping rest => pipe_destiny rest
  | Cleaning e => Some (result_failed (error_message e))
  | Done r => Some r
  end.

(** The file of a started call when it is over, from its phase and the
    file now. *)
Definition fate (ph : Phase) (cur : option (list string)) : option (list string) :=
  match ph with
  | Queued => cur
  | Piping rest => pipe_fate rest cur
  | Cleaning _ => None
  | Done _ => cur
  end.

(** The events, result and file of a call that starts in a file system with
    these directories. *)
Definition expected_events (d : YoutubeDownloader) (path url : string) (fs : FS)
  : list StreamEvent :=
  stream_events (open_error (outputFolder d) path fs) url.

Definition expected_result (d : YoutubeDownloader) (path url : string) (fs : FS)
  : option DownloadResult :=
  pipe_destiny (expected_events d path url fs).

Definition expected_file (d : YoutubeDownloader) (path url : string) (fs : FS)
  : option (list string) :=
  pipe_fate (expected_events d path url fs)
    (match open_error (outputFolder d) path fs with
     | Some _ => files fs !! path
     | None => Some []
     end).

(** A result as the completion of the call: a call with no result is
    pending. *)
Definition completion_of (r : option DownloadResult)
  : completion Thrown DownloadResult :=
  match r with
  | Some r => Return r
  | None => Pending
  end.

(** ** The race *)

Lemma on_event_settled p events :
  p ≠ PromisePending → foldl on_event p events = p.
Proof.
  intros Hp. induction events as [|ev events IH]; [done|].
  simpl. by destruct p.
Qed.

Lemma settle_cons ev events :
  settle (ev :: events) =
  if settling ev then on_event PromisePending ev else settle events.
Proof.
  unfold settle. simpl. destruct ev; simpl; try done;
    by rewrite on_event_settled.
Qed.

Lemma first_wins_cons ev events :
  first_wins (ev :: events) =
  if settling ev then on_event PromisePending ev else first_wins events.
Proof. unfold first_wins. simpl. by destruct ev. Qed.

Lemma settle_first_wins_eq events : settle events = first_wins events.
Proof.
  induction events as [|ev events IH]; [done|].
  rewrite settle_cons, first_wins_cons. by destruct (settling ev).
Qed.

Lemma settle_data_prefix pre events :
  Forall (λ ev, settling ev = false) pre → settle (pre ++ events) = settle events.
Proof.
  induction 1 as [|ev pre Hev _ IH]; [done|].
  simpl. by rewrite settle_cons, Hev.
Qed.

(** ** The pipe *)

Lemma pipe_completion path events fs :
  (pipe path events fs).2 =
  match settle events with
  | Fulfilled => Return tt
  | Rejected e => Throw e
  | PromisePending => Pending
  end.
Proof.
  revert fs. induction events as [|ev events IH]; intros fs; [done|].
  rewrite settle_cons. destruct ev; simpl; auto.
Qed.

Lemma pipe_dirs path events fs : (pipe path events fs).1 ≡ᵈ fs.
Proof.
  revert fs. induction events as [|ev events IH]; intros fs; [done|].
  destruct ev; simpl; try done. by rewrite IH, write_chunk_dirs.
Qed.

Lemma pipe_other path q events fs :
  path ≠ q → files (pipe path events fs).1 !! q = files fs !! q.
Proof.
  intros Hne. revert fs. induction events as [|ev events IH]; intros fs; [done|].
  destruct ev; simpl; auto. by rewrite IH, write_chunk_other.
Qed.

Lemma pipe_same path events fs :
  files (pipe path events fs).1 !! path =
  (λ content, content ++ chunks_written events) <$> files fs !! path.
Proof.
  revert fs. induction events as [|ev events IH]; intros fs;
    [simpl; destruct (files fs !! path); simpl; by rewrite ?app_nil_r|].
  destruct ev; simpl; try (destruct (files fs !! path); simpl; by rewrite ?app_nil_r).
  rewrite IH, write_chunk_same. destruct (files fs !! path); simpl; [|done].
  by rewrite <- app_assoc.
Qed.

Lemma pipe_destiny_settle events :
  pipe_destiny events =
  match settle events with
  | Fulfilled => Some result_ok
  | Rejected e => Some (result_failed (error_message e))
  | PromisePending => None
  end.
Proof.
  induction events as [|ev events IH]; [done|].
  rewrite settle_cons. by destruct ev.
Qed.

Lemma pipe_fate_settle events cur :
  pipe_fate events cur =
  match settle events with
  | Rejected _ => None
  | _ => (λ content, content ++ chunks_written events) <$> cur
  end.
Proof.
  revert cur. induction events as [|ev events IH]; intros cur;
    [destruct cur; simpl; by rewrite ?app_nil_r|].
  rewrite settle_cons.
  destruct ev; simpl; try (destruct cur; simpl; by rewrite ?app_nil_r).
  rewrite IH. destruct (settle events), cur; simpl; try done;
    by rewrite <- app_assoc.
Qed.

(** ** Clean-up *)

Lemma unlink_quiet_completion path fs : (unlink_quiet path fs).2 = Return tt.
Proof.
  unfold unlink_quiet, eff_catch, unlink.
  by destruct (is_file path fs), (is_dir path fs).
Qed.

Lemma unlink_quiet_fs path fs : (unlink_quiet path fs).1 = (unlink path fs).1.
Proof.
  unfold unlink_quiet, eff_catch, unlink.
  by destruct (is_file path fs), (is_dir path fs).
Qed.

Lemma unlink_quiet_eq path fs :
  unlink_quiet path fs = ((unlink path fs).1, Return tt).
Proof.
  rewrite <- unlink_quiet_fs, <- (unlink_quiet_completion path fs).
  by destruct (unlink_quiet path fs).
Qed.

(** ** [downloadSingle] in closed form *)

Lemma await_pipe_eq d path url fs :
  await_pipe d path url fs =
  pipe path (expected_events d path url fs) (open_write (outputFolder d) path fs).1.
Proof.
  unfold await_pipe, expected_events. rewrite <- open_write_snd.
  by destruct (open_write (outputFolder d) path fs).
Qed.

(** The file system after the pipe of a call that starts in [fs]. *)
Definition piped (d : YoutubeDownloader) (path url : string) (fs : FS) : FS :=
  (pipe path (expected_events d path url fs)
     (open_write (outputFolder d) path fs).1).1.

Lemma downloadSingle_eq d url title format fs :
  let path := getOutputPath d title (nullish_default format DEFAULT_FORMAT) in
  downloadSingle d url title format fs =
  match settle (expected_events d path url fs) with
  | Fulfilled => (piped d path url fs, Return result_ok)
  | Rejected e =>
      ((unlink path (piped d path url fs)).1,
       Return (result_failed (error_message e)))
  | PromisePending => (piped d path url fs, Pending)
  end.
Proof.
  intros path. unfold downloadSingle, eff_catch, eff_bind, piped. fold path.
  rewrite await_pipe_eq.
  pose proof (pipe_completion path (expected_events d path url fs)
    (open_write (outputFolder d) path fs).1) as Hc.
  destruct (pipe _ _ _) as [fs2 c]. simpl in *. subst c.
  destruct (settle _); try done.
  by rewrite unlink_quiet_eq.
Qed.

Lemma piped_dirs d path url fs : piped d path url fs ≡ᵈ fs.
Proof. unfold piped. by rewrite pipe_dirs, open_write_dirs. Qed.

Lemma piped_other d path url q fs :
  path ≠ q → files (piped d path url fs) !! q = files fs !! q.
Proof. intros. unfold piped. by rewrite pipe_other, open_write_other. Qed.

Lemma expected_events_ok d path url fs :
  open_error (outputFolder d) path fs = None →
  expected_events d path url fs = ytdl url.
Proof. intros He. unfold expected_events. by rewrite He. Qed.

Lemma expected_events_fail d path url fs e :
  open_error (outputFolder d) path fs = Some e →
  expected_events d path url fs = [EvWriteError e].
Proof. intros He. unfold expected_events. by rewrite He. Qed.

(** A call whose promise does not reject could open its file. *)
Lemma not_rejected_opened d path url fs :
  (∀ e, settle (expected_events d path url fs) ≠ Rejected e) →
  open_error (outputFolder d) path fs = None.
Proof.
  intros Hs. destruct (open_error _ _ _) as [e|] eqn:He; [|done].
  destruct (Hs e). by rewrite (expected_events_fail _ _ _ _ e).
Qed.

Lemma piped_same d path url fs :
  open_error (outputFolder d) path fs = None →
  files (piped d path url fs) !! path = Some (chunks_written (ytdl url)).
Proof.
  intros He. unfold piped. rewrite pipe_same, open_write_ok by done.
  simpl. rewrite lookup_insert_eq. simpl. by rewrite expected_events_ok.
Qed.

Lemma downloadSingle_completion d url title format fs :
  (downloadSingle d url title format fs).2 =
  completion_of (expected_result d
    (getOutputPath d title (nullish_default format DEFAULT_FORMAT)) url fs).
Proof.
  rewrite downloadSingle_eq. unfold expected_result.
  rewrite pipe_destiny_settle. by destruct (settle _).
Qed.

Lemma downloadSingle_dirs d url title format fs :
  (downloadSingle d url title format fs).1 ≡ᵈ fs.
Proof.
  rewrite downloadSingle_eq. destruct (settle _); simpl;
    by rewrite ?unlink_dirs, piped_dirs.
Qed.

Lemma downloadSingle_other d url title format q fs :
  getOutputPath d title (nullish_default format DEFAULT_FORMAT) ≠ q →
  files (downloadSingle d url title format fs).1 !! q = files fs !! q.
Proof.
  intros Hne. rewrite downloadSingle_eq. destruct (settle _); simpl;
    by rewrite ?unlink_other, piped_other.
Qed.

Lemma downloadSingle_file d url title format fs :
  let path := getOutputPath d title (nullish_default format DEFAULT_FORMAT) in
  files (downloadSingle d url title format fs).1 !! path =
  expected_file d path url fs.
Proof.
  intros path. rewrite downloadSingle_eq. fold path. unfold expected_file.
  rewrite pipe_fate_settle.
  destruct (settle _) eqn:Hs; simpl; [| |apply unlink_gone].
  all: assert (open_error (outputFolder d) path fs = None) as He
    by (apply (not_rejected_opened d path url); intros e; congruence).
  all: rewrite piped_same, He by done; simpl; by rewrite expected_events_ok.
Qed.

(** ** The steps of a call *)

Lemma task_start_eq d path url fs :
  task_start d path url fs =
  (Piping (expected_events d path url fs), (open_write (outputFolder d) path fs).1).
Proof.
  unfold task_start, expected_events. rewrite <- open_write_snd.
  by destruct (open_write (outputFolder d) path fs).
Qed.

Lemma task_start_destiny d path url fs :
  destiny (task_start d path url fs).1 = expected_result d path url fs.
Proof. by rewrite task_start_eq. Qed.

Lemma task_start_fate d path url fs :
  fate (task_start d path url fs).1 (files (task_start d path url fs).2 !! path)
  = expected_file d path url fs.
Proof.
  rewrite task_start_eq. simpl. unfold expected_file, open_write.
  destruct (open_error _ _ _); simpl; [done|by rewrite lookup_insert_eq].
Qed.

Lemma task_start_dirs d path url fs : (task_start d path url fs).2 ≡ᵈ fs.
Proof. rewrite task_start_eq. apply open_write_dirs. Qed.

Lemma task_start_other d path url q fs :
  path ≠ q → files (task_start d path url fs).2 !! q = files fs !! q.
Proof. rewrite task_start_eq. apply open_write_other. Qed.

Lemma task_start_wf d path url fs : fs_wf fs → fs_wf (task_start d path url fs).2.
Proof. rewrite task_start_eq. apply open_write_wf. Qed.

End single.

(** Inversion of a step: the four shapes it can have. *)
Lemma task_step_Some path ph fs ph' fs' :
  task_step path ph fs = Some (ph', fs') →
  (∃ c rest, ph = Piping (EvData c :: rest) ∧ ph' = Piping rest ∧
             fs' = write_chunk path c fs) ∨
  (∃ rest, ph = Piping (EvFinish :: rest) ∧ ph' = Done result_ok ∧ fs' = fs) ∨
  (∃ ev e rest, ph = Piping (ev :: rest) ∧ on_event PromisePending ev = Rejected e ∧
                ph' = Cleaning e ∧ fs' = fs) ∨
  (∃ e, ph = Cleaning e ∧ ph' = Done (result_failed (error_message e)) ∧
        fs' = (unlink path fs).1).
Proof.
  destruct ph as [|[|[c|e|e|] rest]|e|r]; simpl; intros [= <- <-];
    try rewrite unlink_quiet_fs; eauto 10.
Qed.

(** The four shapes of a step, each substituted in the goal. *)
Ltac task_step_cases :=
  let c := fresh "c" in
  let rest := fresh "rest" in
  let ev := fresh "ev" in
  let e := fresh "e" in
  let He := fresh "He" in
  intros [(c&rest&->&->&->)|[(rest&->&->&->)|[(ev&e&rest&->&He&->&->)|(e&->&->&->)]]]
    %task_step_Some.

Section steps.
Context `{Collaborators}.

Lemma task_step_destiny path ph fs ph' fs' :
  task_step path ph fs = Some (ph', fs') → destiny ph' = destiny ph.
Proof.
  task_step_cases; try done.
  by destruct ev; simplify_eq/=.
Qed.

Lemma task_step_fate path ph fs ph' fs' :
  task_step path ph fs = Some (ph', fs') →
  fate ph' (files fs' !! path) = fate ph (files fs !! path).
Proof.
  task_step_cases; simpl.
  - by rewrite lookup_alter_eq.
  - done.
  - by destruct ev; simplify_eq/=.
  - apply unlink_gone.
Qed.

Lemma task_step_other path q ph fs ph' fs' :
  task_step path ph fs = Some (ph', fs') → path ≠ q →
  files fs' !! q = files fs !! q.
Proof.
  task_step_cases; intros Hne; try done.
  - by apply write_chunk_other.
  - by apply unlink_other.
Qed.

Lemma task_step_dirs path ph fs ph' fs' :
  task_step path ph fs = Some (ph', fs') → fs' ≡ᵈ fs.
Proof.
  task_step_cases; try done.
  apply unlink_dirs.
Qed.

Lemma task_step_wf path ph fs ph' fs' :
  task_step path ph fs = Some (ph', fs') → fs_wf fs → fs_wf fs'.
Proof.
  task_step_cases; auto with harmonix.
Qed.

Lemma task_step_fuel path ph fs ph' fs' :
  task_step path ph fs = Some (ph', fs') → task_fuel ph' < task_fuel ph.
Proof.
  task_step_cases; simpl; lia.
Qed.

(** A step never touches a call that waits or has returned, and keeps an
    active call active until it is done. *)
Lemma task_step_active path ph fs ph' fs' :
  task_step path ph fs = Some (ph', fs') →
  is_active ph = true ∧ is_Queued ph' = false.
Proof.
  task_step_cases; done.
Qed.

(** A call is stuck only when it waits, has returned, or hangs. *)
Lemma task_step_None path ph fs :
  task_step path ph fs = None ↔ ph = Queued ∨ ph = Piping [] ∨ ∃ r, ph = Done r.
Proof.
  destruct ph as [|[|[c|e|e|] rest]|e|r]; simpl; naive_solver.
Qed.

Lemma task_run_stuck fuel path ph fs :
  task_step path ph fs = None → task_run fuel path ph fs = (ph, fs).
Proof. intros Hs. destruct fuel; simpl; [done|by rewrite Hs]. Qed.

(** A started call run on its own, in terms of the pipe. *)
Lemma task_run_piping fuel path events fs :
  length events < fuel →
  task_run fuel path (Piping events) fs =
  match settle events with
  | Fulfilled => (Done result_ok, (pipe path events fs).1)
  | Rejected e =>
      (Done (result_failed (error_message e)),
       (unlink path (pipe path events fs).1).1)
  | PromisePending => (Piping [], (pipe path events fs).1)
  end.
Proof.
  revert fuel fs. induction events as [|ev events IH]; intros fuel fs Hf.
  - by apply task_run_stuck.
  - destruct fuel as [|fuel]; [simpl in Hf; lia|]. simpl in Hf.
    rewrite settle_cons. destruct ev; simpl.
    + apply IH. lia.
    + destruct fuel; [lia|]. simpl. rewrite unlink_quiet_fs. by apply task_run_stuck.
    + destruct fuel; [lia|]. simpl. rewrite unlink_quiet_fs. by apply task_run_stuck.
    + by apply task_run_stuck.
Qed.

(** What a call is bound for depends on the directories only. *)
#[export] Instance expected_events_proper d path url :
  Proper (same_dirs ==> (=)) (expected_events d path url).
Proof. intros fs1 fs2 Hd. unfold expected_events. by rewrite Hd. Qed.

(** Events that lead to a failure lead to no file. *)
Lemma pipe_fate_failed events cur r :
  pipe_destiny events = Some r → success r = false → pipe_fate events cur = None.
Proof.
  revert cur. induction events as [|ev events IH]; intros cur; [done|].
  destruct ev; simpl; intros Hr Hs; simplify_eq/=; eauto.
Qed.

Lemma expected_file_failed d path url fs r :
  expected_result d path url fs = Some r → success r = false →
  expected_file d path url fs = None.
Proof. intros Hr Hs. by apply (pipe_fate_failed _ _ r). Qed.

Lemma expected_result_no_folder d path url fs :
  outputFolder d ∉ dirs fs →
  expected_result d path url fs = Some (result_failed (error_message (ENOENT path))).
Proof.
  intros Hd. unfold expected_result.
  by rewrite (expected_events_fail d path url fs (ENOENT path))
    by by apply open_error_no_dir.
Qed.

#[export] Instance expected_result_proper d path url :
  Proper (same_dirs ==> (=)) (expected_result d path url).
Proof. intros fs1 fs2 Hd. unfold expected_result. by rewrite Hd. Qed.

#[export] Instance expected_file_proper d path url :
  Proper (same_dirs ==> (=)) (expected_file d path url).
Proof.
  intros fs1 fs2 Hd. unfold expected_file, expected_events. rewrite Hd.
  by destruct (open_error _ _ fs2).
Qed.

(** ** Properties of [downloadSingle] *)

(** C25: the promise [downloadSingle] awaits is settled by the first
    settling event of the stream: running the three handlers over all the
    events, with [resolve] and [reject] ignored once the promise is settled,
    gives the outcome of the first error or finish. *)
Theorem settle_first_wins events : settle events = first_wins events.
Proof.
  induction events as [|ev events IH]; [done|].
  rewrite settle_cons, first_wins_cons. by destruct (settling ev).
Qed.

(** A result of [downloadSingle] carries an error message exactly when it
    reports a failure. *)
Lemma downloadSingle_result_wf d url title format fs r :
  (downloadSingle d url title format fs).2 = Return r → result_wf r.
Proof.
  rewrite downloadSingle_eq.
  destruct (settle _); intros [= <-]; auto with harmonix.
Qed.

(** C3: [downloadSingle] never throws: whatever the stream does and whatever
    the state of the file system, the call returns a result or stays
    pending; and a result it returns carries an error message exactly when
    it reports a failure. *)
Theorem downloadSingle_never_throws d url title format fs :
  match (downloadSingle d url title format fs).2 with
  | Return r => result_wf r
  | Throw _ => False
  | Pending => True
  end.
Proof.
  pose proof (downloadSingle_result_wf d url title format fs) as Hwf.
  rewrite downloadSingle_completion in *.
  destruct (expected_result _ _ _ _); simpl in *; auto.
Qed.

(** C5: after a failed download no file is left at the output path: the
    partial file is removed, and a failure to remove it is ignored. *)
Theorem downloadSingle_failure_cleans_up d url title format fs r :
  (downloadSingle d url title format fs).2 = Return r →
  success r = false →
  files (downloadSingle d url title format fs).1
    !! getOutputPath d title (nullish_default format DEFAULT_FORMAT) = None.
Proof.
  rewrite downloadSingle_eq.
  destruct (settle _); intros [= <-] Hs; try done. apply unlink_gone.
Qed.

(** C6: after a successful download the file at the output path holds the
    chunks of the stream up to its finish, in order. *)
Theorem downloadSingle_success_content d url title format fs r :
  (downloadSingle d url title format fs).2 = Return r →
  success r = true →
  files (downloadSingle d url title format fs).1
    !! getOutputPath d title (nullish_default format DEFAULT_FORMAT)
  = Some (chunks_written (ytdl url)).
Proof.
  rewrite downloadSingle_eq.
  destruct (settle _) eqn:Hs; intros [= <-] Hr; try done. simpl.
  apply piped_same, (not_rejected_opened d _ url). intros e. congruence.
Qed.

(** A download touches no other file and no directory. *)
Lemma downloadSingle_frame d url title format fs q :
  getOutputPath d title (nullish_default format DEFAULT_FORMAT) ≠ q →
  files (downloadSingle d url title format fs).1 !! q = files fs !! q ∧
  dirs (downloadSingle d url title format fs).1 = dirs fs.
Proof.
  intros Hne. split; [by apply downloadSingle_other|apply downloadSingle_dirs].
Qed.

(** When the stream settles, [downloadSingle] returns: with success
    when the write stream finishes first, with the message of the error
    otherwise. *)
Lemma downloadSingle_returns d url title format fs :
  settle (ytdl url) ≠ PromisePending →
  ∃ r, (downloadSingle d url title format fs).2 = Return r.
Proof.
  intros Hs. rewrite downloadSingle_eq.
  destruct (settle (expected_events _ _ _ _)) eqn:Hs'; eauto.
  destruct Hs. rewrite <- Hs'. f_equal. symmetry.
  apply expected_events_ok, (not_rejected_opened d _ url). intros e. congruence.
Qed.

(** When the output folder does not exist the download fails with the
    error of the write stream, and creates nothing. *)
Lemma downloadSingle_no_folder d url title format fs :
  outputFolder d ∉ dirs fs →
  let path := getOutputPath d title (nullish_default format DEFAULT_FORMAT) in
  (downloadSingle d url title format fs).2
    = Return (result_failed (error_message (ENOENT path))) ∧
  files (downloadSingle d url title format fs).1 !! path = None.
Proof.
  intros Hd path. rewrite downloadSingle_eq. fold path.
  rewrite (expected_events_fail d path url fs (ENOENT path))
    by by apply open_error_no_dir.
  split; [done|apply unlink_gone].
Qed.

(** C23: the step-by-step model of a call agrees with [downloadSingle]:
    started and run on its own until it has no step left, a call ends in
    the file system [downloadSingle] produces, in phase [Done r] when
    [downloadSingle] returns [r] and waiting for its stream when
    [downloadSingle] is pending. *)
Theorem task_run_downloadSingle d url title format fs :
  let path := getOutputPath d title (nullish_default format DEFAULT_FORMAT) in
  let start := task_start d path url fs in
  task_run (task_fuel start.1) path start.1 start.2 =
  (match (downloadSingle d url title format fs).2 with
   | Return r => Done r
   | _ => Piping []
   end, (downloadSingle d url title format fs).1).
Proof.
  intros path start. unfold start. rewrite task_start_eq, downloadSingle_eq.
  fold path. simpl. rewrite task_run_piping by lia. unfold piped.
  by destruct (settle _).
Qed.

End steps.

(** ** The properties on the concrete instance *)

Module SingleDemo.
Import Demo DemoDownloader.

Lemma downloadSingle_failure_cleans_up_witness :
  files (downloadSingle demo "https://youtu.be/B" "Song B" None fs_out).1
    !! "out/Song B.mp3" = None.
Proof.
  change "out/Song B.mp3"
    with (getOutputPath demo "Song B" (nullish_default None DEFAULT_FORMAT)).
  apply (downloadSingle_failure_cleans_up demo "https://youtu.be/B" "Song B" None
           fs_out (result_failed "Status code: 403")); vm_compute; reflexivity.
Defined.

Lemma downloadSingle_success_content_witness :
  files (downloadSingle demo "https://youtu.be/A" "Song A" None fs_out).1
    !! "out/Song A.mp3" = Some ["a1"; "a2"].
Proof.
  change "out/Song A.mp3"
    with (getOutputPath demo "Song A" (nullish_default None DEFAULT_FORMAT)).
  change ["a1"; "a2"] with (chunks_written (ytdl "https://youtu.be/A")).
  apply (downloadSingle_success_content demo "https://youtu.be/A" "Song A" None
           fs_out result_ok); vm_compute; reflexivity.
Defined.

Lemma downloadSingle_frame_witness :
  files (downloadSingle demo "https://youtu.be/A" "Song A" None fs_out).1
    !! "out/Song B.mp3" = files fs_out !! "out/Song B.mp3" ∧
  dirs (downloadSingle demo "https://youtu.be/A" "Song A" None fs_out).1
    = dirs fs_out.
Proof.
  apply (downloadSingle_frame demo "https://youtu.be/A" "Song A" None fs_out).
  vm_compute. discriminate.
Defined.

Lemma downloadSingle_returns_witness :
  ∃ r, (downloadSingle demo "https://youtu.be/C" "Song C" None fs_out).2 = Return r.
Proof.
  apply (downloadSingle_returns demo "https://youtu.be/C" "Song C" None fs_out).
  vm_compute. discriminate.
Defined.

Lemma downloadSingle_no_folder_witness :
  (downloadSingle demo "https://youtu.be/A" "Song A" None fs_empty).2
    = Return (result_failed
        "ENOENT: no such file or directory, 'out/Song A.mp3'") ∧
  files (downloadSingle demo "https://youtu.be/A" "Song A" None fs_empty).1
    !! "out/Song A.mp3" = None.
Proof.
  change "out/Song A.mp3"
    with (getOutputPath demo "Song A" (nullish_default None DEFAULT_FORMAT)).
  change "ENOENT: no such file or directory, 'out/Song A.mp3'"
    with (error_message (ENOENT
            (getOutputPath demo "Song A" (nullish_default None DEFAULT_FORMAT)))).
  apply (downloadSingle_no_folder demo "https://youtu.be/A" "Song A" None fs_empty).
  apply not_elem_of_empty.
Defined.

End SingleDemo.

#[export] Hint Rewrite @pipe_dirs @unlink_quiet_completion @unlink_quiet_fs
  : harmonix_simpl.
