(* ===== verification/Report.v ===== *)
(** * [logResults]: the report of a run

    The method prints how many downloads succeeded out of how many items,
    and, if any failed, a header and one line per failure with the title of
    the item and the error.  It pairs each result with the item at the same
    index; the specification describes the same report as data
    ([RunReport]), built by walking items and results together, and
    [logResults] is shown to print exactly the rendering of that report. *)

From S2P Require Import Prelude Js Types FileSystem Collab.

Open Scope string_scope.
Open Scope list_scope.
Open Scope nat_scope.

(** ** The method *)

(** [results.filter(({success}) => success).length] *)
Definition successCount (results : list DownloadResult) : nat :=
  length (filter (λ r, success r = true) results).

(** [`Downloaded ${successCount}/${items.length} musics successfully`] *)
Definition summary_line (ok total : nat) : LogLine :=
  Log ("Downloaded " +:+ show_nat ok +:+ "/" +:+ show_nat total
       +:+ " musics successfully").

(** [results.map((result, index) => ({ result, item: items[index] }))
       .filter(({ result }) => !result.success)]:
    [items[index]] is [undefined] past the end of [items]. *)
Definition failures (results : list DownloadResult) (items : list PlaylistItem)
  : list (DownloadResult * option PlaylistItem) :=
  filter (λ f, success f.1 = false)
    (imap (λ index result, (result, items !! index)) results).

(** The line feed [\n]. *)
Definition newline : string := String (Ascii.ascii_of_nat 10) "".

(** ['\nFailed Downloads:'] *)
Definition failures_header : LogLine := Log (newline +:+ "Failed Downloads:").

Definition undefined_title : Thrown :=
  mkTypeError "Cannot read properties of undefined (reading 'title')".

(** [`- ${item.title}: ${result.error}`] *)
Definition failure_text (title : string) (error : option string) : string :=
  "- " +:+ title +:+ ": " +:+ show_opt error.

(** The body of the [for] loop: reading [item.title] throws when there is
    no item. *)
Definition log_failure (f : DownloadResult * option PlaylistItem)
  : eff World Thrown unit :=
  match f.2 with
  | Some item => print (LogError (failure_text (title item) (error f.1)))
  | None => eff_throw undefined_title
  end.

(** [for (const { result, item } of failures) ...] *)
Fixpoint log_failures (fs : list (DownloadResult * option PlaylistItem))
  : eff World Thrown unit :=
  match fs with
  | [] => eff_ret tt
  | f :: rest => eff_bind (log_failure f) (λ _, log_failures rest)
  end.

(** [logResults(results, items)] *)
Definition logResults (results : list DownloadResult) (items : list PlaylistItem)
  : eff World Thrown unit :=
  eff_bind (print (summary_line (successCount results) (length items))) (λ _,
  if bool_decide (0 < length (failures results items))
  then eff_bind (print failures_header) (λ _,
       log_failures (failures results items))
  else eff_ret tt).

(** ** The report as data *)

Record RunReport : Type := mkRunReport {
  totalCount : nat;
  succeeded : nat;
  failed : list (string * string);
}.

(** The title and message of a failed download. *)
Definition failure_of (item : PlaylistItem) (r : DownloadResult)
  : option (string * string) :=
  if success r then None else Some (title item, show_opt (error r)).

(** The report of a run: items and their results, walked together in
    playlist order. *)
Definition run_report (items : list PlaylistItem) (results : list DownloadResult)
  : RunReport :=
  {| totalCount := length items;
     succeeded := length (filter (λ r, success r = true) results);
     failed := omap (λ p, failure_of p.1 p.2) (zip items results) |}.

(** The lines a report is shown as. *)
Definition render (rep : RunReport) : list LogLine :=
  summary_line (succeeded rep) (totalCount rep) ::
  match failed rep with
  | [] => []
  | _ :: _ =>
      failures_header ::
      map (λ f, LogError ("- " +:+ f.1 +:+ ": " +:+ f.2)) (failed rep)
  end.

(** ** Facts *)

Lemma print_all_nil w : print_all [] w = (w, Return tt).
Proof. unfold print_all. rewrite app_nil_r. by destruct w. Qed.

Lemma print_then_print_all line lines w :
  eff_bind (print line) (λ _, print_all lines) w = print_all (line :: lines) w.
Proof.
  unfold eff_bind, print, print_all. simpl. by rewrite <- app_assoc.
Qed.

(** Pairing by index is pairing by position, as long as there is an item
    for every result. *)
Lemma imap_lookup_zip (results : list DownloadResult) (items : list PlaylistItem) :
  length results ≤ length items →
  imap (λ index result, (result, items !! index)) results =
  (λ p, (p.2, Some p.1)) <$> zip items results.
Proof.
  revert items. induction results as [|r results IH]; intros [|it items] Hl;
    simpl in *; try done; try lia.
  f_equal. rewrite <- IH by lia. by apply imap_ext.
Qed.

Lemma failures_zip results items :
  length results ≤ length items →
  failures results items =
  (λ p, (p.2, Some p.1)) <$> filter (λ p, success p.2 = false) (zip items results).
Proof.
  intros Hl. unfold failures. rewrite imap_lookup_zip by done.
  generalize (zip items results). intros l.
  induction l as [|p l IH]; [done|].
  rewrite fmap_cons, !filter_cons. simpl.
  destruct (decide (success p.2 = false)); simpl; by rewrite IH.
Qed.

Lemma failed_filter (l : list (PlaylistItem * DownloadResult)) :
  omap (λ p, failure_of p.1 p.2) l =
  (λ p, (title p.1, show_opt (error p.2))) <$> filter (λ p, success p.2 = false) l.
Proof.
  induction l as [|p l IH]; [done|].
  rewrite filter_cons. simpl. unfold failure_of at 1.
  destruct (success p.2) eqn:Hs; simpl; [apply IH|f_equal; apply IH].
Qed.

(** The loop over failures that all have an item prints their lines. *)
Lemma log_failures_print (l : list (PlaylistItem * DownloadResult)) w :
  log_failures ((λ p, (p.2, Some p.1)) <$> l) w =
  print_all ((λ p, LogError (failure_text (title p.1) (error p.2))) <$> l) w.
Proof.
  revert w. induction l as [|p l IH]; intros w; simpl.
  - by rewrite print_all_nil.
  - unfold eff_bind, log_failure. simpl. rewrite IH.
    unfold print_all. simpl. by rewrite <- app_assoc.
Qed.

Lemma failures_length_le results items :
  length (failures results items) ≤ length results.
Proof.
  unfold failures. etrans; [apply length_filter|]. by rewrite length_imap.
Qed.

Lemma failures_fst results items :
  fst <$> failures results items = filter (λ r, success r = false) results.
Proof.
  unfold failures. revert items.
  induction results as [|r results IH]; intros items; [done|].
  rewrite imap_cons, !filter_cons.
  rewrite (imap_ext _ (λ index result, (result, tail items !! index)))
    by (intros; simpl; by destruct items).
  change (success (r, items !! 0).1) with (success r).
  destruct (decide (success r = false)); rewrite ?fmap_cons, IH; done.
Qed.

Lemma render_run_report items results :
  render (run_report items results) =
  summary_line (successCount results) (length items) ::
  match filter (λ p, success p.2 = false) (zip items results) with
  | [] => []
  | fs =>
      failures_header ::
      ((λ p, LogError (failure_text (title p.1) (error p.2))) <$> fs)
  end.
Proof.
  unfold render, run_report, successCount. simpl. rewrite failed_filter.
  generalize (filter (λ p : PlaylistItem * DownloadResult, success p.2 = false)
                (zip items results)).
  intros [|p l]; simpl; [done|]. do 3 f_equal.
  by rewrite <- list_fmap_compose.
Qed.

(** The loop throws as soon as it meets a failure that has no item. *)
Lemma log_failures_throw fs w :
  (∃ f, f ∈ fs ∧ f.2 = None) →
  ∃ w', log_failures fs w = (w', Throw undefined_title).
Proof.
  revert w. induction fs as [|f fs IH]; intros w (g & Hg & Hnone).
  - by apply elem_of_nil in Hg.
  - simpl. unfold eff_bind, log_failure.
    destruct (f.2) as [item|] eqn:Hf; simpl; [|by eexists].
    apply IH. apply elem_of_cons in Hg as [->|Hg]; [congruence|eauto].
Qed.

(** The loop only appends to the console. *)
Lemma log_failures_console fs w :
  ∃ lines, console (log_failures fs w).1 = console w ++ lines.
Proof.
  revert w. induction fs as [|f fs IH]; intros w; simpl.
  - exists []. by rewrite app_nil_r.
  - unfold eff_bind, log_failure. destruct (f.2) as [item|]; simpl.
    + edestruct IH as [lines Hl]. rewrite Hl. simpl.
      eexists. by rewrite <- app_assoc.
    + exists []. by rewrite app_nil_r.
Qed.

Lemma failures_elem results items i r :
  results !! i = Some r → success r = false →
  (r, items !! i) ∈ failures results items.
Proof.
  intros Hi Hs. unfold failures. apply list_elem_of_filter. split; [done|].
  apply list_elem_of_lookup. exists i. by rewrite list_lookup_imap, Hi.
Qed.

(** The lines [logResults] prints, given an item for every result. *)
Lemma logResults_lines results items w :
  length results ≤ length items →
  logResults results items w =
  print_all
    (summary_line (successCount results) (length items) ::
     match filter (λ p, success p.2 = false) (zip items results) with
     | [] => []
     | fs =>
         failures_header ::
         ((λ p, LogError (failure_text (title p.1) (error p.2))) <$> fs)
     end) w.
Proof.
  intros Hl. unfold logResults. rewrite failures_zip, length_fmap by done.
  destruct (filter _ (zip items results)) as [|p l].
  - simpl. unfold eff_bind, print, print_all. by simpl.
  - rewrite bool_decide_eq_true_2 by (simpl; lia).
    remember (p :: l) as F eqn:HF. unfold eff_bind at 1 2. simpl.
    rewrite log_failures_print. unfold print_all. simpl.
    rewrite <- !app_assoc. by subst F.
Qed.

(** The loop and the method leave the file system alone. *)
Lemma log_failures_fs l w : fs (log_failures l w).1 = fs w.
Proof.
  revert w. induction l as [|f l IH]; intros w; [done|]. simpl.
  unfold eff_bind, log_failure. destruct (f.2); simpl; [by rewrite IH|done].
Qed.

Lemma logResults_fs results items w : fs (logResults results items w).1 = fs w.
Proof.
  unfold logResults, eff_bind. simpl. case_bool_decide; simpl; [|done].
  by rewrite log_failures_fs.
Qed.

(** The method only appends to the console, also when it throws. *)
Lemma logResults_console results items w :
  console w `prefix_of` console (logResults results items w).1.
Proof.
  unfold logResults, eff_bind. simpl. case_bool_decide; simpl.
  - unfold eff_bind. simpl.
    destruct (log_failures_console (failures results items)
      {| fs := fs w; console := (console w ++ [summary_line (successCount results)
           (length items)]) ++ [failures_header] |}) as [lines Hl].
    rewrite Hl. simpl. rewrite <- !app_assoc. by eexists.
  - by eexists.
Qed.

(** ** Properties of [logResults] *)

(** C24: [logResults] prints the run report of the specification: given an
    item for every result, its output is the summary line with the number of
    successes out of the number of items, and, when any download failed,
    the header and one line per failure with title and message, in playlist
    order; and it returns. *)
Theorem logResults_renders_report results items w :
  length results ≤ length items →
  logResults results items w = print_all (render (run_report items results)) w.
Proof. intros Hl. rewrite render_run_report. by apply logResults_lines. Qed.


(** Every result is counted once: the successes counted in the summary
    and the failures listed add up to the number of results. *)
Lemma logResults_counts_add_up results items :
  successCount results + length (failures results items) = length results.
Proof.
  rewrite <- (length_fmap fst (failures results items)), failures_fst.
  unfold successCount. apply (filter_bool_length_split success).
Qed.

(** When every download succeeded, [logResults] prints the summary line
    and nothing else. *)
Lemma logResults_all_succeeded results items w :
  Forall (λ r, success r = true) results →
  logResults results items w =
  print (summary_line (length results) (length items)) w.
Proof.
  intros Hall. unfold logResults, successCount.
  rewrite (filter_bool_all success) by done.
  assert (failures results items = []) as ->.
  { apply fmap_nil_inv with (f := fst). rewrite failures_fst.
    by apply (filter_bool_none success). }
  simpl. unfold eff_bind. by simpl.
Qed.

(** C35: a failed result with no item at its index makes [logResults] throw
    a [TypeError], after the summary line has been printed: the method reads
    the title of [items[index]] without a check. *)
Theorem logResults_missing_item_throws results items w i r :
  results !! i = Some r → success r = false → length items ≤ i →
  ∃ w', logResults results items w = (w', Throw undefined_title) ∧
        summary_line (successCount results) (length items) ∈ console w'.
Proof.
  intros Hi Hs Hlen. unfold logResults.
  pose proof (failures_elem results items i r Hi Hs) as Hin.
  rewrite (lookup_ge_None_2 items i) in Hin by done.
  rewrite bool_decide_eq_true_2
    by (destruct (failures results items); [by apply elem_of_nil in Hin|simpl; lia]).
  unfold eff_bind at 1 2. simpl.
  set (w1 := {| fs := fs w; console := (console w ++ _) ++ [failures_header] |}).
  destruct (log_failures_throw (failures results items) w1) as [w' Hw'];
    [by exists (r, None)|].
  exists w'. split; [done|].
  destruct (log_failures_console (failures results items) w1) as [lines Hc].
  rewrite Hw' in Hc. simpl in Hc. rewrite Hc.
  rewrite !elem_of_app, list_elem_of_singleton. auto.
Qed.

(** ** The properties on the playlist of the specification *)

Module ReportDemo.
Import Demo.

Definition items : list PlaylistItem := declared <$> [item "A"; item "B"; item "C"].

Definition results : list DownloadResult :=
  [result_ok; result_failed "Status code: 403"; result_ok].

Lemma logResults_renders_report_witness :
  logResults results items world0 =
  ({| fs := fs_empty;
      console := [Log "Downloaded 2/3 musics successfully"; failures_header;
                  LogError "- Song B: Status code: 403"] |}, Return tt).
Proof.
  rewrite (logResults_renders_report results items world0) by (simpl; lia).
  reflexivity.
Defined.


Lemma logResults_missing_item_throws_witness :
  ∃ w', logResults results (take 1 items) world0 = (w', Throw undefined_title) ∧
        summary_line (successCount results) (length (take 1 items)) ∈ console w'.
Proof.
  apply (logResults_missing_item_throws results (take 1 items) world0 1
           (result_failed "Status code: 403")); [reflexivity|reflexivity|simpl; lia].
Defined.

End ReportDemo.
