(* ===== verification/Fanout.v ===== *)
(** * The fan-out: [Promise.all(items.map(item => this.limit(...)))]

    Every item of the playlist becomes a task handed to the limiter, in
    playlist order; the limiter starts a task when a slot is free, and the
    tasks started interleave at their suspension points.  The state of the
    fan-out ([Fan]) is the limiter, the phase of every task and the file
    system.  A step ([fan_step]) is one step of one task; when the task
    returns, the limiter is told and may start the next waiting task in the
    same step.  A schedule is the list of the tasks that take the steps.

    [run_schedule] follows a schedule; [run_all] lets the first task that
    can step do so until none can, which is how a run ends whatever came
    before.  [download_each], the downloads one after the other, is the
    reference the fan-out is compared with. *)

From S2P Require Import Prelude Js Types FileSystem Collab Limiter Downloader Single.

Open Scope string_scope.
Open Scope list_scope.
Open Scope nat_scope.

Section fanout.
Context `{Collaborators}.
Variable d : YoutubeDownloader.
Variable items : list YtplItem.

(** The output path of the task of an item: [downloadSingle] is called
    without a format. *)
Definition task_path (it : YtplItem) : string :=
  getOutputPath d (title it) (nullish_default None DEFAULT_FORMAT).

Record Fan : Type := mkFan {
  lim : Limiter nat;
  phases : list Phase;
  ffs : FS;
}.

Definition with_lim (l : Limiter nat) (s : Fan) : Fan :=
  {| lim := l; phases := phases s; ffs := ffs s |}.

Definition set_phase (i : nat) (ph : Phase) (fs' : FS) (s : Fan) : Fan :=
  {| lim := lim s; phases := <[i := ph]> (phases s); ffs := fs' |}.

(** The limiter starts task [i]: [downloadSingle(item.shortUrl, item.title)]
    runs up to its [await]. *)
Definition start (i : nat) (s : Fan) : Fan :=
  match items !! i with
  | Some it =>
      let (ph, fs') := task_start d (task_path it) (shortUrl it) (ffs s) in
      set_phase i ph fs' s
  | None => s
  end.

Definition start_opt (o : option nat) (s : Fan) : Fan :=
  match o with
  | Some i => start i s
  | None => s
  end.

(** [this.limit(() => this.downloadSingle(...))] for item [i]. *)
Definition fan_submit (s : Fan) (i : nat) : Fan :=
  let (o, l') := submit i (lim s) in start_opt o (with_lim l' s).

(** [items.map(item => this.limit(...))]: every item is handed to the
    limiter, in order. *)
Definition fan_init (fs0 : FS) : Fan :=
  foldl fan_submit
    {| lim := limit d; phases := replicate (length items) Queued; ffs := fs0 |}
    (seq 0 (length items)).

(** A task has returned: the limiter is told, and may start the next. *)
Definition fan_finish (s : Fan) : Fan :=
  let (o, l') := next (lim s) in start_opt o (with_lim l' s).

(** One step of task [i]. *)
Definition fan_step (i : nat) (s : Fan) : option Fan :=
  it ← items !! i;
  ph ← phases s !! i;
  '(ph', fs') ← task_step (task_path it) ph (ffs s);
  let s' := set_phase i ph' fs' s in
  Some (if is_Done ph' then fan_finish s' else s').

(** Some task takes a step. *)
Definition fan_rel (s s' : Fan) : Prop := ∃ i, fan_step i s = Some s'.

(** [Promise.all]: the results in the order of the tasks, once every task
    has returned. *)
Definition fan_results (s : Fan) : option (list DownloadResult) :=
  mapM (λ ph, match ph with Done r => Some r | _ => None end) (phases s).

(** What [await Promise.all(...)] gives in a state: the results, or nothing
    yet. *)
Definition promise_all (s : Fan) : completion Thrown (list DownloadResult) :=
  match fan_results s with
  | Some rs => Return rs
  | None => Pending
  end.

(** ** Schedulers *)

(** The tasks of the schedule take a step each, in order; a task that has
    none is skipped. *)
Definition run_schedule (sched : list nat) (s : Fan) : Fan :=
  foldl (λ s i, default s (fan_step i s)) s sched.

(** The step of the first task of the list that has one. *)
Fixpoint first_step (candidates : list nat) (s : Fan) : option Fan :=
  match candidates with
  | [] => None
  | i :: rest =>
      match fan_step i s with
      | Some s' => Some s'
      | None => first_step rest s
      end
  end.

(** Steps are taken until no task has one. *)
Fixpoint run_all (fuel : nat) (s : Fan) : Fan :=
  match fuel with
  | 0 => s
  | S fuel' =>
      match first_step (seq 0 (length items)) s with
      | Some s' => run_all fuel' s'
      | None => s
      end
  end.

(** The steps task [i] has left, at most: a waiting task has the steps of
    its stream ahead. *)
Definition task_weight (fs : FS) (i : nat) (ph : Phase) : nat :=
  match ph, items !! i with
  | Queued, Some it =>
      task_fuel (Piping (expected_events d (task_path it) (shortUrl it) fs))
  | _, _ => task_fuel ph
  end.

(** The fuel of a run: the steps all the tasks have left, at most. *)
Definition fan_fuel (s : Fan) : nat :=
  sum_list (imap (task_weight (ffs s)) (phases s)).

(** The fan-out under a schedule: the schedule is followed, then the run is
    brought to its end. *)
Definition fan_out (sched : list nat) : eff FS Thrown (list DownloadResult) :=
  λ fs0,
    let s1 := run_schedule sched (fan_init fs0) in
    let s := run_all (fan_fuel s1) s1 in
    (ffs s, promise_all s).

(** ** The reference: one download after the other *)

Fixpoint download_each (its : list YtplItem) : eff FS Thrown (list DownloadResult) :=
  match its with
  | [] => eff_ret []
  | it :: rest =>
      eff_bind (downloadSingle d (shortUrl it) (title it) None) (λ r,
      eff_bind (download_each rest) (λ rs,
      eff_ret (r :: rs)))
  end.

(** The result the task of an item is bound for, in a file system with the
    directories of [fs0]. *)
Definition item_result (fs0 : FS) (it : YtplItem) : option DownloadResult :=
  expected_result d (task_path it) (shortUrl it) fs0.

Definition item_file (fs0 : FS) (it : YtplItem) : option (list string) :=
  expected_file d (task_path it) (shortUrl it) fs0.

(** Both depend on the directories only. *)
#[export] Instance item_result_proper :
  Proper (same_dirs ==> (=) ==> (=)) item_result.
Proof. intros fs1 fs2 Hd it ? <-. unfold item_result. by rewrite Hd. Qed.

#[export] Instance item_file_proper :
  Proper (same_dirs ==> (=) ==> (=)) item_file.
Proof. intros fs1 fs2 Hd it ? <-. unfold item_file. by rewrite Hd. Qed.

(** Every stream settles: no download hangs. *)
Definition all_settle (fs0 : FS) : Prop :=
  Forall (λ it, is_Some (item_result fs0 it)) items.

(** No two items share an output path. *)
Definition distinct_paths : Prop := NoDup (task_path <$> items).

(** ** The invariant that ties the phases to the limiter *)

Definition phase_active (ph : Phase) : nat := if is_active ph then 1 else 0.

(** The number of tasks in flight. *)
Definition count_active (phs : list Phase) : nat := sum_list_with phase_active phs.

(** The limiter starts the head of its queue if it can. *)
Definition fan_resume (s : Fan) : Fan :=
  let (o, l') := resumeNext (lim s) in start_opt o (with_lim l' s).

(** After [j] items have been handed over: the counter of the limiter is
    the number of tasks in flight, and for some [k] the tasks before [k]
    have been started, the tasks from [k] on have not, and those of them
    that were handed over wait in the queue, in order. *)
Definition fan_sync (j : nat) (s : Fan) : Prop :=
  length (phases s) = length items ∧ j ≤ length items ∧
  Z.of_nat (count_active (phases s)) = activeCount (lim s) ∧
  ∃ k, k ≤ j ∧ queue (lim s) = seq k (j - k) ∧
       ∀ i ph, phases s !! i = Some ph → (is_Queued ph = true ↔ k ≤ i).

(** The limiter of the fan-out is within its bounds, leaves no slot idle,
    and keeps the limit of the downloader. *)
Definition fan_lim_ok (s : Fan) : Prop :=
  lim_ok (lim s) ∧ lim_eager (lim s) ∧
  maxConcurrency (lim s) = maxConcurrency (limit d).

(** *** Unfolding the operations *)

Lemma fan_submit_resume s i :
  fan_submit s i = fan_resume (with_lim (enqueue i (lim s)) s).
Proof. reflexivity. Qed.

Lemma fan_finish_resume s :
  fan_finish s = fan_resume (with_lim (release (lim s)) s).
Proof. reflexivity. Qed.

Lemma start_eq i it s :
  items !! i = Some it →
  start i s =
  set_phase i (Piping (expected_events d (task_path it) (shortUrl it) (ffs s)))
    (open_write (outputFolder d) (task_path it) (ffs s)).1 s.
Proof. intros Hi. unfold start. by rewrite Hi, task_start_eq. Qed.

Lemma start_lim i s : lim (start i s) = lim s.
Proof.
  unfold start. destruct (items !! i); [|done]. by destruct (task_start _ _ _ _).
Qed.

Lemma fan_resume_lim s : lim (fan_resume s) = (resumeNext (lim s)).2.
Proof.
  unfold fan_resume. destruct (resumeNext (lim s)) as [[i|] l']; simpl;
    [by rewrite start_lim|done].
Qed.

Lemma fan_submit_lim s i : lim (fan_submit s i) = (submit i (lim s)).2.
Proof. by rewrite fan_submit_resume, fan_resume_lim. Qed.

Lemma fan_finish_lim s : lim (fan_finish s) = (next (lim s)).2.
Proof. by rewrite fan_finish_resume, fan_resume_lim. Qed.

(** Inversion of a step of the fan-out. *)
Lemma fan_step_Some i s s' :
  fan_step i s = Some s' →
  ∃ it ph ph' fs',
    items !! i = Some it ∧ phases s !! i = Some ph ∧
    task_step (task_path it) ph (ffs s) = Some (ph', fs') ∧
    s' = if is_Done ph' then fan_finish (set_phase i ph' fs' s)
         else set_phase i ph' fs' s.
Proof.
  unfold fan_step. intros Hs.
  destruct (items !! i) as [it|] eqn:Hit; [|done].
  destruct (phases s !! i) as [ph|] eqn:Hph; [|done]. simpl in Hs.
  destruct (task_step _ _ _) as [[ph' fs']|] eqn:Hstep; [|done].
  simpl in Hs. injection Hs as <-. by exists it, ph, ph', fs'.
Qed.

Lemma fan_step_None i s :
  fan_step i s = None ↔
  ∀ it ph, items !! i = Some it → phases s !! i = Some ph →
           task_step (task_path it) ph (ffs s) = None.
Proof.
  unfold fan_step. split.
  - intros Hn it ph Hit Hph. rewrite Hit, Hph in Hn. simpl in Hn.
    by destruct (task_step _ _ _) as [[ph' fs']|].
  - intros Hn. destruct (items !! i) as [it|]; [|done].
    destruct (phases s !! i) as [ph|]; [|done]. simpl.
    by rewrite (Hn it ph).
Qed.

(** *** The pieces of a step keep the phases and the limiter in step *)

Lemma count_active_insert phs i ph ph' :
  phs !! i = Some ph →
  count_active (<[i:=ph']> phs) + phase_active ph
  = count_active phs + phase_active ph'.
Proof. apply sum_list_with_insert. Qed.

Lemma fan_sync_intro j s k :
  length (phases s) = length items → j ≤ length items →
  Z.of_nat (count_active (phases s)) = activeCount (lim s) →
  k ≤ j → queue (lim s) = seq k (j - k) →
  (∀ i ph, phases s !! i = Some ph → (is_Queued ph = true ↔ k ≤ i)) →
  fan_sync j s.
Proof. intros. repeat split; try done. by exists k. Qed.

(** Replacing a phase by one that waits just as much keeps the border
    between the tasks started and the tasks waiting. *)
Lemma queued_insert (phs : list Phase) i ph ph' k :
  phs !! i = Some ph → is_Queued ph' = is_Queued ph →
  (∀ i0 ph0, phs !! i0 = Some ph0 → (is_Queued ph0 = true ↔ k ≤ i0)) →
  ∀ i0 ph0, <[i:=ph']> phs !! i0 = Some ph0 → (is_Queued ph0 = true ↔ k ≤ i0).
Proof.
  intros Hi Hq Hall i0 ph0. destruct (decide (i = i0)) as [<-|Hne].
  - rewrite list_lookup_insert_eq by (by eapply lookup_lt_Some).
    intros [= <-]. rewrite Hq. by apply Hall.
  - rewrite list_lookup_insert_ne by done. apply Hall.
Qed.

Lemma active_not_Queued ph : is_active ph = true → is_Queued ph = false.
Proof. by destruct ph. Qed.

Lemma sync_enqueue j s :
  fan_sync j s → j < length items →
  fan_sync (S j) (with_lim (enqueue j (lim s)) s).
Proof.
  intros (Hlen & Hj & Hcount & k & Hk & Hq & Hqueued) Hlt.
  apply (fan_sync_intro _ _ k); simpl; try done; try lia.
  rewrite Hq. replace (S j - k) with (S (j - k)) by lia.
  rewrite seq_S. do 2 f_equal. lia.
Qed.

Lemma sync_set_active j s i ph ph' fs' :
  fan_sync j s → phases s !! i = Some ph →
  is_active ph = true → is_active ph' = true →
  fan_sync j (set_phase i ph' fs' s).
Proof.
  intros (Hlen & Hj & Hcount & k & Hk & Hq & Hqueued) Hi Ha Ha'.
  pose proof (count_active_insert _ _ _ ph' Hi) as Hc.
  unfold phase_active in Hc. rewrite Ha, Ha' in Hc.
  apply (fan_sync_intro _ _ k); simpl; try done;
    [by rewrite length_insert|lia|].
  apply (queued_insert _ _ ph); [done| |done].
  by rewrite !active_not_Queued.
Qed.

Lemma sync_set_done j s i ph r fs' :
  fan_sync j s → phases s !! i = Some ph → is_active ph = true →
  fan_sync j (with_lim (release (lim s)) (set_phase i (Done r) fs' s)).
Proof.
  intros (Hlen & Hj & Hcount & k & Hk & Hq & Hqueued) Hi Ha.
  pose proof (count_active_insert _ _ _ (Done r) Hi) as Hc.
  unfold phase_active in Hc. rewrite Ha in Hc. simpl in Hc.
  apply (fan_sync_intro _ _ k); simpl; try done;
    [by rewrite length_insert|lia|].
  apply (queued_insert _ _ ph); [done| |done].
  by rewrite (active_not_Queued ph).
Qed.

(** What [fan_resume] does to a state in step: nothing, or the start of the
    first task that waits, which is the head of the queue, when a slot is
    free. *)
Lemma fan_resume_cases j s :
  fan_sync j s →
  fan_resume s = s ∨
  ∃ k it rest,
    items !! k = Some it ∧ phases s !! k = Some Queued ∧
    queue (lim s) = k :: rest ∧
    (activeCount (lim s) < maxConcurrency (lim s))%Z ∧
    (∀ i ph, phases s !! i = Some ph → (is_Queued ph = true ↔ k ≤ i)) ∧
    fan_resume s =
    set_phase k
      (Piping (expected_events d (task_path it) (shortUrl it) (ffs s)))
      (open_write (outputFolder d) (task_path it) (ffs s)).1
      (with_lim {| maxConcurrency := maxConcurrency (lim s);
                   activeCount := activeCount (lim s) + 1; queue := rest |} s).
Proof.
  intros (Hlen & Hj & Hcount & k & Hk & Hq & Hqueued). unfold fan_resume.
  destruct (resumeNext_cases (lim s))
    as [[_ ->]|[(_&_& ->)|(t&rest&Ht&?& ->)]]; simpl;
    [left; by destruct s..|right].
  pose proof Ht as Hhead. rewrite Hq in Ht.
  destruct (j - k) as [|m] eqn:Hm; [done|]. injection Ht as <- <-.
  destruct (lookup_lt_is_Some_2 items k) as [it Hit]; [lia|].
  destruct (lookup_lt_is_Some_2 (phases s) k) as [ph Hph]; [lia|].
  assert (is_Queued ph = true) as Hqd by (by apply (Hqueued k)).
  destruct ph; try done. exists k, it, (seq (S k) m).
  by rewrite (start_eq _ it).
Qed.

(** Starting the head of the queue moves the border by one. *)
Lemma sync_resume j s : fan_sync j s → fan_sync j (fan_resume s).
Proof.
  intros (Hlen & Hj & Hcount & k & Hk & Hq & Hqueued). unfold fan_resume.
  destruct (resumeNext_cases (lim s))
    as [[_ ->]|[(_&_& ->)|(t&rest&Ht&?& ->)]]; simpl;
    [by apply (fan_sync_intro _ _ k)..|].
  rewrite Hq in Ht. destruct (j - k) as [|m] eqn:Hm; [done|].
  injection Ht as <- <-.
  destruct (lookup_lt_is_Some_2 items k) as [it Hit]; [lia|].
  destruct (lookup_lt_is_Some_2 (phases s) k) as [ph Hph]; [lia|].
  assert (is_Queued ph = true) as Hqd by (by apply (Hqueued k)).
  pose proof (count_active_insert _ _ _
    (Piping (expected_events d (task_path it) (shortUrl it) (ffs s))) Hph) as Hc.
  unfold phase_active in Hc. destruct ph; try done. simpl in Hc.
  rewrite (start_eq _ it) by done.
  apply (fan_sync_intro _ _ (S k)); simpl;
    [by rewrite length_insert|done|lia|lia|f_equal; lia|].
  intros i ph. destruct (decide (k = i)) as [<-|Hne].
  - rewrite list_lookup_insert_eq by lia. intros [= <-]. simpl. split; [done|lia].
  - rewrite list_lookup_insert_ne by done. intros Hi.
    rewrite (Hqueued _ _ Hi). lia.
Qed.

Lemma fan_submit_sync j s :
  fan_sync j s → j < length items → fan_sync (S j) (fan_submit s j).
Proof. intros. rewrite fan_submit_resume. by apply sync_resume, sync_enqueue. Qed.

Lemma fan_step_sync j i s s' :
  fan_sync j s → fan_step i s = Some s' → fan_sync j s'.
Proof.
  intros Hs (it & ph & ph' & fs' & Hit & Hph & Hstep & ->)%fan_step_Some.
  destruct (task_step_active _ _ _ _ _ Hstep) as [Ha _].
  destruct ph' as [|rest|e|r]; simpl.
  - by apply task_step_active in Hstep as [_ ?].
  - by apply (sync_set_active _ _ _ ph).
  - by apply (sync_set_active _ _ _ ph).
  - rewrite fan_finish_resume. apply sync_resume.
    by apply (sync_set_done j s i ph r fs').
Qed.

(** *** The limiter stays within its bounds *)

Lemma fan_submit_lim_ok s i : fan_lim_ok s → fan_lim_ok (fan_submit s i).
Proof.
  intros (Hok & He & Hmax). unfold fan_lim_ok. rewrite fan_submit_lim, submit_max.
  auto with harmonix.
Qed.

(** A task that takes a step is in flight, so the counter is positive. *)
Lemma sync_active_count j s i ph :
  fan_sync j s → phases s !! i = Some ph → is_active ph = true →
  (1 ≤ activeCount (lim s))%Z.
Proof.
  intros (_ & _ & Hcount & _) Hi Ha.
  pose proof (sum_list_with_lookup phase_active _ _ _ Hi) as Hle.
  unfold phase_active at 1 in Hle. rewrite Ha in Hle.
  unfold count_active in Hcount. lia.
Qed.

Lemma fan_step_lim_ok j i s s' :
  fan_sync j s → fan_lim_ok s → fan_step i s = Some s' → fan_lim_ok s'.
Proof.
  intros Hs (Hok & He & Hmax)
    (it & ph & ph' & fs' & Hit & Hph & Hstep & ->)%fan_step_Some.
  destruct (task_step_active _ _ _ _ _ Hstep) as [Ha _].
  destruct (is_Done ph'); [|done].
  unfold fan_lim_ok. rewrite fan_finish_lim, next_max. simpl.
  pose proof (sync_active_count _ _ _ _ Hs Hph Ha). auto with harmonix.
Qed.

(** ** Where every task is bound *)

Variable fs0 : FS.

(** The directories are those of the start, and every task that has
    started is bound for the result of its item. *)
Definition fan_destined (s : Fan) : Prop :=
  ffs s ≡ᵈ fs0 ∧
  ∀ i it ph, items !! i = Some it → phases s !! i = Some ph →
             is_Queued ph = false → destiny ph = item_result fs0 it.

Lemma destined_update s i it ph' fs' :
  fan_destined s → items !! i = Some it → fs' ≡ᵈ ffs s →
  (is_Queued ph' = false → destiny ph' = item_result fs0 it) →
  fan_destined (set_phase i ph' fs' s).
Proof.
  intros [Hd Hall] Hit Hd' Hph'. split; simpl; [congruence|].
  intros i0 it0 ph0 Hit0. destruct (decide (i = i0)) as [<-|Hne].
  - intros Hl. apply list_lookup_insert_Some in Hl as [(_ & <- & _)|[? _]]; [|done].
    by simplify_eq.
  - rewrite list_lookup_insert_ne by done. by apply Hall.
Qed.

Lemma destined_start s i : fan_destined s → fan_destined (start i s).
Proof.
  intros Hs. destruct (items !! i) as [it|] eqn:Hit;
    [|unfold start; by rewrite Hit].
  rewrite (start_eq _ it) by done.
  apply (destined_update _ _ it); [done|done|apply open_write_dirs|].
  intros _. simpl. destruct Hs as [Hd _].
  by apply expected_result_proper.
Qed.

Lemma destined_resume s : fan_destined s → fan_destined (fan_resume s).
Proof.
  intros Hs. unfold fan_resume.
  destruct (resumeNext (lim s)) as [[t|] l']; simpl; [by apply destined_start|done].
Qed.

Lemma fan_submit_destined s i : fan_destined s → fan_destined (fan_submit s i).
Proof. intros. rewrite fan_submit_resume. by apply destined_resume. Qed.

Lemma destined_task_step s i it ph ph' fs' :
  fan_destined s → items !! i = Some it → phases s !! i = Some ph →
  task_step (task_path it) ph (ffs s) = Some (ph', fs') →
  fan_destined (set_phase i ph' fs' s).
Proof.
  intros Hs Hit Hph Hstep.
  apply (destined_update _ _ it); [done|done|by eapply task_step_dirs|].
  intros _. rewrite (task_step_destiny _ _ _ _ _ Hstep).
  destruct Hs as [_ Hall]. apply (Hall i); [done..|].
  apply active_not_Queued. by eapply task_step_active.
Qed.

Lemma fan_step_destined i s s' :
  fan_destined s → fan_step i s = Some s' → fan_destined s'.
Proof.
  intros Hs (it & ph & ph' & fs' & Hit & Hph & Hstep & ->)%fan_step_Some.
  pose proof (destined_task_step _ _ _ _ _ _ Hs Hit Hph Hstep) as Hs'.
  destruct (is_Done ph'); [|done].
  rewrite fan_finish_resume. by apply destined_resume.
Qed.

(** Handing over any items keeps the tasks bound. *)
Lemma fan_submits_destined (l : list nat) s :
  fan_destined s → fan_destined (foldl fan_submit s l).
Proof.
  revert s. induction l as [|i l IH]; intros s Hs; [done|].
  simpl. by apply IH, fan_submit_destined.
Qed.

(** ** The invariant of the fan-out *)

Definition fan_inv (s : Fan) : Prop :=
  fan_sync (length items) s ∧ fan_lim_ok s ∧ fan_destined s.

(** Handing over the next [n] items, from a state in which [j] have
    been. *)
Lemma fan_submit_upto_sync j n s :
  j + n ≤ length items → fan_sync j s ∧ fan_lim_ok s →
  let s' := foldl fan_submit s (seq j n) in
  fan_sync (j + n) s' ∧ fan_lim_ok s'.
Proof.
  intros Hjn Hs. induction n as [|n IH]; cbv zeta;
    [simpl; by rewrite Nat.add_0_r|].
  rewrite seq_S, foldl_app. simpl. destruct IH as (Hsync & Hl); [lia|].
  replace (j + S n) with (S (j + n)) by lia.
  split; [apply fan_submit_sync; [done|lia]|by apply fan_submit_lim_ok].
Qed.

Lemma fan_submit_upto j n s :
  j + n ≤ length items →
  fan_sync j s ∧ fan_lim_ok s ∧ fan_destined s →
  let s' := foldl fan_submit s (seq j n) in
  fan_sync (j + n) s' ∧ fan_lim_ok s' ∧ fan_destined s'.
Proof.
  intros Hjn (Hsync & Hl & Hd).
  destruct (fan_submit_upto_sync j n s Hjn) as [Hsync' Hl']; [done|].
  split; [done|split; [done|by apply fan_submits_destined]].
Qed.

(** A state the fan-out can be in: reached from the start by steps. *)
Definition fan_reach (s : Fan) : Prop := rtc fan_rel (fan_init fs0) s.

Hypothesis d_wf : downloader_wf d.

(** The fan-out before any item is handed over. *)
Definition fan_blank : Fan :=
  {| lim := limit d; phases := replicate (length items) Queued; ffs := fs0 |}.

Lemma count_active_Queued n : count_active (replicate n Queued) = 0.
Proof. induction n; simpl; [done|]. by rewrite IHn. Qed.

Lemma fan_blank_inv : fan_sync 0 fan_blank ∧ fan_lim_ok fan_blank ∧ fan_destined fan_blank.
Proof.
  destruct d_wf as (_ & _ & Hok & Ha & Hq). split; [|split].
  - apply (fan_sync_intro _ _ 0); simpl;
      [by rewrite length_replicate|lia|by rewrite count_active_Queued, Ha|done|done|].
    intros i ph [-> _]%lookup_replicate. split; [lia|done].
  - repeat split; [apply Hok..|]. unfold lim_eager. simpl. by rewrite Hq.
  - split; [done|]. by intros i it ph _ [-> _]%lookup_replicate.
Qed.

(** The invariant after the first [j] items have been handed over. *)
Lemma fan_init_upto j :
  j ≤ length items →
  let s := foldl fan_submit fan_blank (seq 0 j) in
  fan_sync j s ∧ fan_lim_ok s ∧ fan_destined s.
Proof. intros Hj. by apply (fan_submit_upto 0 j); [|apply fan_blank_inv]. Qed.

Lemma fan_init_inv : fan_inv (fan_init fs0).
Proof. by apply (fan_init_upto (length items)). Qed.

Lemma fan_step_inv i s s' : fan_inv s → fan_step i s = Some s' → fan_inv s'.
Proof.
  intros (Hs & Hl & Hd) Hstep. split; [|split].
  - by eapply fan_step_sync.
  - by eapply fan_step_lim_ok.
  - by eapply fan_step_destined.
Qed.

Lemma fan_rtc_inv s s' : fan_inv s → rtc fan_rel s s' → fan_inv s'.
Proof.
  intros Hs Hr. induction Hr as [|s1 s2 s3 [i Hi] _ IH]; [done|].
  apply IH. by eapply fan_step_inv.
Qed.

Lemma fan_reach_inv s : fan_reach s → fan_inv s.
Proof. apply fan_rtc_inv, fan_init_inv. Qed.

(** ** Every step uses up fuel *)

#[export] Instance task_weight_proper :
  Proper (same_dirs ==> (=) ==> (=) ==> (=)) task_weight.
Proof.
  intros fs1 fs2 Hd i ? <- ph ? <-. unfold task_weight.
  destruct ph, (items !! i); try done. by rewrite Hd.
Qed.

Lemma task_weight_started fs i ph :
  is_Queued ph = false → task_weight fs i ph = task_fuel ph.
Proof. by destruct ph. Qed.

Lemma fan_fuel_set_phase s i ph ph' fs' :
  phases s !! i = Some ph → fs' ≡ᵈ ffs s →
  fan_fuel (set_phase i ph' fs' s) + task_weight (ffs s) i ph
  = fan_fuel s + task_weight (ffs s) i ph'.
Proof.
  intros Hi Hd. unfold fan_fuel. simpl.
  rewrite (sum_list_imap_ext _ (task_weight (ffs s)))
    by (intros; by rewrite Hd).
  by apply sum_list_imap_insert.
Qed.

Lemma fan_fuel_resume j s : fan_sync j s → fan_fuel (fan_resume s) ≤ fan_fuel s.
Proof.
  intros (Hlen & Hj & Hcount & k & Hk & Hq & Hqueued). unfold fan_resume.
  destruct (resumeNext_cases (lim s))
    as [[_ ->]|[(_&_& ->)|(t&rest&Ht&?& ->)]]; simpl; [done..|].
  rewrite Hq in Ht. destruct (j - k) as [|m] eqn:Hm; [done|].
  injection Ht as <- <-.
  destruct (lookup_lt_is_Some_2 items k) as [it Hit]; [lia|].
  destruct (lookup_lt_is_Some_2 (phases s) k) as [ph Hph]; [lia|].
  assert (is_Queued ph = true) as Hqd by (by apply (Hqueued k)).
  destruct ph; try done. rewrite (start_eq _ it) by done.
  pose proof (fan_fuel_set_phase (with_lim
      {| maxConcurrency := maxConcurrency (lim s);
         activeCount := activeCount (lim s) + 1; queue := seq (S k) m |} s)
    k Queued
    (Piping (expected_events d (task_path it) (shortUrl it) (ffs s)))
    (open_write (outputFolder d) (task_path it) (ffs s)).1 Hph
    (open_write_dirs _ _ _)) as Hf.
  unfold task_weight in Hf. rewrite Hit in Hf. simpl in *.
  unfold fan_fuel in *. simpl in *. lia.
Qed.

Lemma fan_step_fuel j i s s' :
  fan_sync j s → fan_step i s = Some s' → fan_fuel s' < fan_fuel s.
Proof.
  intros Hs (it & ph & ph' & fs' & Hit & Hph & Hstep & ->)%fan_step_Some.
  destruct (task_step_active _ _ _ _ _ Hstep) as [Ha Hq'].
  pose proof (task_step_fuel _ _ _ _ _ Hstep) as Hlt.
  pose proof (fan_fuel_set_phase s i ph ph' fs' Hph
    (task_step_dirs _ _ _ _ _ Hstep)) as Hf.
  rewrite !task_weight_started in Hf by auto using active_not_Queued.
  destruct ph' as [|rest|e|r]; simpl; try lia.
  rewrite fan_finish_resume.
  pose proof (fan_fuel_resume j _ (sync_set_done j s i ph r fs' Hs Hph Ha)) as Hr.
  unfold fan_fuel in *. simpl in *. lia.
Qed.

(** ** The schedulers stay within the step relation *)

Lemma first_step_Some candidates s s' :
  first_step candidates s = Some s' →
  ∃ i, i ∈ candidates ∧ fan_step i s = Some s'.
Proof.
  induction candidates as [|i rest IH]; [done|]. simpl.
  destruct (fan_step i s) as [s1|] eqn:Hi.
  - intros [= <-]. exists i. split; [apply elem_of_cons; by left|done].
  - intros (i' & ? & ?)%IH. exists i'. split; [apply elem_of_cons; by right|done].
Qed.

Lemma first_step_None candidates s :
  first_step candidates s = None ↔ ∀ i, i ∈ candidates → fan_step i s = None.
Proof.
  induction candidates as [|i rest IH]; simpl.
  - split; [|done]. by intros _ i ?%elem_of_nil.
  - destruct (fan_step i s) as [s1|] eqn:Hi.
    + split; [done|]. intros Hn. rewrite Hn in Hi; [done|]. apply elem_of_cons; by left.
    + rewrite IH. split.
      * intros Hn i' [->|?]%elem_of_cons; auto.
      * intros Hn i' ?. apply Hn. apply elem_of_cons; by right.
Qed.

(** No task of the playlist has a step. *)
Definition fan_stuck (s : Fan) : Prop := ∀ i, fan_step i s = None.

Lemma first_step_stuck s :
  first_step (seq 0 (length items)) s = None ↔ fan_stuck s.
Proof.
  rewrite first_step_None. split; [|by intros Hs i _].
  intros Hn i. destruct (decide (i < length items)) as [Hi|Hi].
  - apply Hn, elem_of_seq. lia.
  - unfold fan_step. by rewrite (lookup_ge_None_2 items) by lia.
Qed.

Lemma run_schedule_rtc sched s : rtc fan_rel s (run_schedule sched s).
Proof.
  revert s. induction sched as [|i sched IH]; intros s; simpl; [done|].
  destruct (fan_step i s) as [s'|] eqn:Hi; simpl; [|done].
  eapply rtc_l; [by exists i|done].
Qed.

Lemma run_all_rtc fuel s : rtc fan_rel s (run_all fuel s).
Proof.
  revert s. induction fuel as [|fuel IH]; intros s; simpl; [done|].
  destruct (first_step _ s) as [s'|] eqn:Hs; [|done].
  apply first_step_Some in Hs as (i & _ & Hi).
  eapply rtc_l; [by exists i|done].
Qed.

(** With the fuel of the state, [run_all] ends in a state with no step. *)
Lemma run_all_stuck fuel s :
  fan_inv s → fan_fuel s ≤ fuel → fan_stuck (run_all fuel s).
Proof.
  revert s. induction fuel as [|fuel IH]; intros s Hinv Hf; simpl.
  - apply first_step_stuck.
    destruct (first_step _ s) as [s'|] eqn:Hs; [|done].
    apply first_step_Some in Hs as (i & _ & Hi).
    destruct Hinv as (Hsync & _). pose proof (fan_step_fuel _ _ _ _ Hsync Hi). lia.
  - destruct (first_step _ s) as [s'|] eqn:Hs; [|by apply first_step_stuck].
    apply first_step_Some in Hs as (i & _ & Hi).
    apply IH; [by eapply fan_step_inv|].
    destruct Hinv as (Hsync & _). pose proof (fan_step_fuel _ _ _ _ Hsync Hi). lia.
Qed.

(** ** The end of a run *)

(** A task with no step waits, has returned, or hangs. *)
Lemma fan_stuck_phase s i ph :
  fan_stuck s → i < length items → phases s !! i = Some ph →
  ph = Queued ∨ ph = Piping [] ∨ ∃ r, ph = Done r.
Proof.
  intros Hs Hi Hph. destruct (lookup_lt_is_Some_2 items i Hi) as [it Hit].
  eapply task_step_None, fan_step_None; eauto.
Qed.

(** The tasks of a run with no step left, up to the first item whose stream
    hangs, are done: a task cannot be kept waiting by the tasks after
    it. *)
Lemma fan_stuck_done_upto n s :
  fan_inv s → fan_stuck s →
  Forall (λ it, is_Some (item_result fs0 it)) (take n items) →
  Forall (λ ph, is_Done ph = true) (take n (phases s)).
Proof.
  intros ((Hlen & _ & Hcount & k & Hk & Hq & Hqueued) & (Hok & He & Hmax)
          & (Hd & Hdest)) Hstuck Hsettle.
  assert (∀ i ph, i < n → phases s !! i = Some ph →
                  ph = Queued ∨ is_Done ph = true) as Hcases.
  { intros i ph Hin Hph. pose proof (lookup_lt_Some _ _ _ Hph) as Hi.
    rewrite Hlen in Hi. destruct (lookup_lt_is_Some_2 items i Hi) as [it Hit].
    destruct (fan_stuck_phase s i ph Hstuck Hi Hph) as [->|[->|[r ->]]];
      [by left| |by right].
    specialize (Hdest i it _ Hit Hph eq_refl).
    destruct (Forall_at Hsettle i it) as [r Hr];
      [by rewrite lookup_take_lt|].
    unfold item_result in *. simpl in Hdest. congruence. }
  apply Forall_lookup. intros i ph [Hph Hin]%lookup_take_Some.
  destruct (Hcases i ph Hin Hph) as [->|]; [exfalso|done].
  pose proof (proj1 (Hqueued i _ Hph) eq_refl) as Hki.
  pose proof (lookup_lt_Some _ _ _ Hph) as Hi.
  assert (count_active (phases s) = 0) as Hzero.
  { apply sum_list_with_0, Forall_lookup. intros j ph Hj. unfold phase_active.
    destruct (decide (j < k)) as [Hlt|Hge].
    - destruct (Hcases j ph ltac:(lia) Hj) as [->|Hdone]; [done|by destruct ph].
    - assert (is_Queued ph = true) by (apply (Hqueued j ph Hj); lia).
      by destruct ph. }
  destruct d_wf as (_ & Hpos & _). unfold lim_eager in He. rewrite Hq in He.
  destruct (length items - k) as [|m] eqn:Hm; [lia|].
  specialize (He ltac:(done)). lia.
Qed.

(** When no stream hangs, a run with no step left has every task done. *)
Lemma fan_stuck_done s :
  fan_inv s → fan_stuck s → all_settle fs0 →
  Forall (λ ph, is_Done ph = true) (phases s).
Proof.
  intros Hinv Hstuck Hsettle. rewrite <- (firstn_all (phases s)).
  rewrite (proj1 (proj1 Hinv)). apply fan_stuck_done_upto; [done..|].
  by rewrite firstn_all.
Qed.

Lemma fan_results_Some s rs :
  fan_results s = Some rs ↔ phases s = Done <$> rs.
Proof.
  unfold fan_results. rewrite mapM_Some. split.
  - intros HF. induction HF as [|ph r phs rs' Hph _ IH]; [done|].
    by destruct ph; simplify_eq/=.
  - intros ->. induction rs as [|r rs IH]; constructor; done.
Qed.

(** Tasks that return what their items are bound for, and that are all
    done when all the streams settle, have the results of the items. *)
Lemma fan_results_bound (its : list YtplItem) s :
  length (phases s) = length its →
  (∀ i it r, its !! i = Some it → phases s !! i = Some (Done r) →
             item_result fs0 it = Some r) →
  (Forall (λ it, is_Some (item_result fs0 it)) its →
   Forall (λ ph, is_Done ph = true) (phases s)) →
  fan_results s = mapM (item_result fs0) its.
Proof.
  intros Hlen Hdest Hdone.
  assert (∀ rs, fan_results s = Some rs → mapM (item_result fs0) its = Some rs)
    as Hbound.
  { intros rs Hrs%fan_results_Some.
    apply mapM_Some, Forall2_same_length_lookup. split.
    - by rewrite <- Hlen, Hrs, length_fmap.
    - intros i it r Hit Hr. apply (Hdest i); [done|].
      by rewrite Hrs, list_lookup_fmap, Hr. }
  destruct (fan_results s) as [rs|] eqn:Hrs; [symmetry; by apply Hbound|].
  destruct (mapM (item_result fs0) its) as [rs|] eqn:Hm; [exfalso|done].
  apply mapM_None in Hrs. apply Exists_exists in Hrs as (ph & Hin & Hph).
  assert (is_Done ph = true) as Hd; [|by destruct ph].
  clear Hph. revert ph Hin. apply Forall_forall, Hdone, mapM_is_Some. by eexists.
Qed.

(** A task of the fan-out that is done returned what its item was bound
    for. *)
Lemma fan_inv_done s i it r :
  fan_inv s → items !! i = Some it → phases s !! i = Some (Done r) →
  item_result fs0 it = Some r.
Proof. intros (_ & _ & _ & Hdest) Hit Hph. symmetry. by apply (Hdest i it (Done r)). Qed.

(** The results of a run are the results the items were bound for. *)
Lemma fan_results_destined s rs :
  fan_inv s → fan_results s = Some rs →
  mapM (item_result fs0) items = Some rs.
Proof.
  intros Hinv Hrs. rewrite <- Hrs. symmetry.
  apply fan_results_bound; [apply Hinv|intros; by eapply fan_inv_done|].
  intros _. apply fan_results_Some in Hrs. rewrite Hrs.
  by apply Forall_fmap, Forall_true.
Qed.

(** At the end of a run [Promise.all] has the results the items were bound
    for, or is pending when an item has none. *)
Lemma fan_stuck_results s :
  fan_inv s → fan_stuck s → fan_results s = mapM (item_result fs0) items.
Proof.
  intros Hinv Hstuck.
  apply fan_results_bound; [apply Hinv|intros; by eapply fan_inv_done|].
  by apply fan_stuck_done.
Qed.

(** The final state of the fan-out under a schedule. *)
Definition fan_final (sched : list nat) : Fan :=
  let s1 := run_schedule sched (fan_init fs0) in run_all (fan_fuel s1) s1.

Lemma fan_final_reach sched : fan_reach (fan_final sched).
Proof.
  unfold fan_final, fan_reach. etrans; [apply run_schedule_rtc|apply run_all_rtc].
Qed.

Lemma fan_final_stuck sched : fan_stuck (fan_final sched).
Proof.
  apply run_all_stuck; [|done].
  apply fan_reach_inv. apply run_schedule_rtc.
Qed.

Lemma fan_out_eq sched :
  fan_out sched fs0 =
  (ffs (fan_final sched),
   match mapM (item_result fs0) items with
   | Some rs => Return rs
   | None => Pending
   end).
Proof.
  unfold fan_out, promise_all. fold (fan_final sched).
  by rewrite (fan_stuck_results _ (fan_reach_inv _ (fan_final_reach sched))
                (fan_final_stuck sched)).
Qed.

(** ** The reference run *)

Lemma download_each_cons it rest fs :
  download_each (it :: rest) fs =
  match downloadSingle d (shortUrl it) (title it) None fs with
  | (fs1, Return r) =>
      ((download_each rest fs1).1, completion_map (cons r) (download_each rest fs1).2)
  | (fs1, Throw e) => (fs1, Throw e)
  | (fs1, Pending) => (fs1, Pending)
  end.
Proof.
  simpl. unfold eff_bind, eff_ret.
  destruct (downloadSingle _ _ _ _ _) as [fs1 [r|e|]]; try done.
  by destruct (download_each rest fs1) as [fs2 [rs|e|]].
Qed.

(** One download of the reference run, in terms of what the item is bound
    for. *)
Lemma download_item_eq it fs :
  fs ≡ᵈ fs0 →
  (downloadSingle d (shortUrl it) (title it) None fs).2
  = completion_of (item_result fs0 it).
Proof.
  intros Hd. rewrite downloadSingle_completion. unfold item_result.
  by rewrite Hd.
Qed.

Lemma download_each_dirs its fs : (download_each its fs).1 ≡ᵈ fs.
Proof.
  revert fs. induction its as [|it rest IH]; intros fs; [done|].
  rewrite download_each_cons.
  pose proof (downloadSingle_dirs d (shortUrl it) (title it) None fs) as Hd.
  destruct (downloadSingle _ _ _ _ _) as [fs1 [r|e|]]; simpl in *; try done.
  by rewrite IH.
Qed.

Lemma download_each_completion its fs :
  fs ≡ᵈ fs0 →
  (download_each its fs).2 =
  match mapM (item_result fs0) its with
  | Some rs => Return rs
  | None => Pending
  end.
Proof.
  revert fs. induction its as [|it rest IH]; intros fs Hd; [done|].
  rewrite download_each_cons.
  pose proof (download_item_eq it fs Hd) as Hc.
  pose proof (downloadSingle_dirs d (shortUrl it) (title it) None fs) as Hd1.
  destruct (downloadSingle _ _ _ _ _) as [fs1 c]. simpl in *. subst c.
  destruct (item_result fs0 it) as [r|]; simpl; [|done].
  rewrite IH by congruence. by destruct (mapM _ rest).
Qed.

Lemma download_each_other its fs q :
  q ∉ task_path <$> its → files (download_each its fs).1 !! q = files fs !! q.
Proof.
  revert fs. induction its as [|it rest IH]; intros fs Hq; [done|].
  rewrite fmap_cons, not_elem_of_cons in Hq. destruct Hq as [Hne Hq].
  rewrite download_each_cons.
  pose proof (downloadSingle_other d (shortUrl it) (title it) None q fs
    (not_eq_sym Hne)) as Ho.
  destruct (downloadSingle _ _ _ _ _) as [fs1 [r|e|]]; simpl in *; try done.
  by rewrite IH.
Qed.

(** When no stream hangs and no two items share a path, the reference run
    leaves at the path of every item the file the item was bound for. *)
Lemma download_each_file its fs i it :
  NoDup (task_path <$> its) → Forall (λ it, is_Some (item_result fs0 it)) its →
  fs ≡ᵈ fs0 → its !! i = Some it →
  files (download_each its fs).1 !! task_path it = item_file fs0 it.
Proof.
  revert fs i. induction its as [|it0 rest IH]; intros fs i Hnd Hall Hd Hi; [done|].
  rewrite fmap_cons in Hnd. apply NoDup_cons in Hnd as [Hnotin Hnd].
  apply Forall_cons in Hall as [[r Hr] Hall].
  rewrite download_each_cons.
  pose proof (download_item_eq it0 fs Hd) as Hc. rewrite Hr in Hc.
  pose proof (downloadSingle_dirs d (shortUrl it0) (title it0) None fs) as Hd1.
  pose proof (downloadSingle_file d (shortUrl it0) (title it0) None fs) as Hf.
  fold (task_path it0) in Hf.
  destruct (downloadSingle _ _ _ _ _) as [fs1 c]. cbn [fst snd] in *. subst c.
  cbn [completion_of fst]. destruct i as [|i]; cbn [lookup list_lookup] in Hi.
  - injection Hi as <-. rewrite download_each_other by done. rewrite Hf.
    by apply expected_file_proper.
  - apply (IH fs1 i); [done|done|congruence|done].
Qed.

(** ** The files, when no two items share a path *)

(** Every path that is no output path is as at the start, and the file of
    every task that has started is bound for the file of its item. *)
Definition fan_fated (s : Fan) : Prop :=
  (∀ q, q ∉ task_path <$> items → files (ffs s) !! q = files fs0 !! q) ∧
  ∀ i it ph, items !! i = Some it → phases s !! i = Some ph →
             is_Queued ph = false →
             fate ph (files (ffs s) !! task_path it) = item_file fs0 it.

Hypothesis paths_distinct : distinct_paths.

Lemma fated_update s i it ph' fs' :
  fan_fated s → items !! i = Some it →
  (∀ q, task_path it ≠ q → files fs' !! q = files (ffs s) !! q) →
  (is_Queued ph' = false →
   fate ph' (files fs' !! task_path it) = item_file fs0 it) →
  fan_fated (set_phase i ph' fs' s).
Proof.
  intros [Hframe Hall] Hit Hother Hph'. split; simpl.
  - intros q Hq. rewrite Hother; [by apply Hframe|].
    intros <-. apply Hq, list_elem_of_fmap. exists it.
    split; [done|by eapply list_elem_of_lookup_2].
  - intros i0 it0 ph0 Hit0. destruct (decide (i = i0)) as [<-|Hne].
    + intros Hl. apply list_lookup_insert_Some in Hl as [(_ & <- & _)|[? _]]; [|done].
      by simplify_eq.
    + rewrite list_lookup_insert_ne by done. intros Hph0 Hq0.
      rewrite Hother; [by apply (Hall i0)|].
      intros Heq. by destruct (Hne (NoDup_fmap_lookup task_path items i i0 it it0
                                     paths_distinct Hit Hit0 Heq)).
Qed.

Lemma fated_start s i : fan_destined s → fan_fated s → fan_fated (start i s).
Proof.
  intros [Hd _] Hs. destruct (items !! i) as [it|] eqn:Hit;
    [|unfold start; by rewrite Hit].
  unfold start. rewrite Hit.
  pose proof (task_start_fate d (task_path it) (shortUrl it) (ffs s)) as Hf.
  pose proof (task_start_other d (task_path it) (shortUrl it)) as Ho.
  destruct (task_start _ _ _ _) as [ph fs'] eqn:Hst. simpl in *.
  apply (fated_update _ _ it); [done|done|..].
  - intros q Hq. specialize (Ho q (ffs s) Hq). by rewrite Hst in Ho.
  - intros _. rewrite Hf. by apply expected_file_proper.
Qed.

Lemma fated_resume s : fan_destined s → fan_fated s → fan_fated (fan_resume s).
Proof.
  intros Hd Hs. unfold fan_resume.
  destruct (resumeNext (lim s)) as [[t|] l']; simpl; [by apply fated_start|done].
Qed.

Lemma fan_submit_fated s i :
  fan_destined s → fan_fated s → fan_fated (fan_submit s i).
Proof. intros. rewrite fan_submit_resume. by apply fated_resume. Qed.

Lemma fan_step_fated i s s' :
  fan_destined s → fan_fated s → fan_step i s = Some s' → fan_fated s'.
Proof.
  intros Hd Hs (it & ph & ph' & fs' & Hit & Hph & Hstep & ->)%fan_step_Some.
  pose proof (destined_task_step _ _ _ _ _ _ Hd Hit Hph Hstep) as Hd'.
  assert (fan_fated (set_phase i ph' fs' s)) as Hs'.
  { apply (fated_update _ _ it); [done|done|..].
    - intros q Hq. by eapply task_step_other.
    - intros _. rewrite (task_step_fate _ _ _ _ _ Hstep).
      destruct Hs as [_ Hall]. apply (Hall i); [done..|].
      apply active_not_Queued. by eapply task_step_active. }
  destruct (is_Done ph'); [|done].
  rewrite fan_finish_resume. by apply fated_resume.
Qed.

Lemma fan_blank_fated : fan_fated fan_blank.
Proof. split; [done|]. by intros i it ph _ [-> _]%lookup_replicate. Qed.

Lemma fan_init_fated_upto j :
  j ≤ length items → fan_fated (foldl fan_submit fan_blank (seq 0 j)).
Proof.
  induction j as [|j IH]; intros Hj; [apply fan_blank_fated|].
  rewrite seq_S, foldl_app. simpl.
  apply fan_submit_fated; [|apply IH; lia].
  apply (fan_init_upto j). lia.
Qed.

Lemma fan_rtc_fated s s' :
  fan_inv s → fan_fated s → rtc fan_rel s s' → fan_fated s'.
Proof.
  intros Hinv Hs Hr. induction Hr as [|s1 s2 s3 [i Hi] _ IH]; [done|].
  apply IH; [by eapply fan_step_inv|].
  destruct Hinv as (_ & _ & Hd). by eapply fan_step_fated.
Qed.

Lemma fan_reach_fated s : fan_reach s → fan_fated s.
Proof.
  apply fan_rtc_fated; [apply fan_init_inv|].
  by apply (fan_init_fated_upto (length items)).
Qed.

(** When every task is done, the file system is the one the reference run
    leaves. *)
Lemma fan_done_fs s :
  fan_inv s → fan_fated s → all_settle fs0 →
  Forall (λ ph, is_Done ph = true) (phases s) →
  ffs s = (download_each items fs0).1.
Proof.
  intros ((Hlen & _) & _ & (Hd & _)) [Hframe Hfate] Hsettle Hdone.
  apply FS_eq; [by rewrite download_each_dirs|]. apply map_eq. intros q.
  destruct (decide (q ∈ task_path <$> items)) as [Hq|Hq].
  - apply list_elem_of_fmap in Hq as (it & -> & Hin).
    apply list_elem_of_lookup in Hin as [i Hit].
    destruct (lookup_lt_is_Some_2 (phases s) i) as [ph Hph];
      [rewrite Hlen; by eapply lookup_lt_Some|].
    rewrite (download_each_file items fs0 i it) by done.
    rewrite <- (Hfate i it ph Hit Hph).
    + pose proof (Forall_at Hdone i ph Hph). by destruct ph.
    + pose proof (Forall_at Hdone i ph Hph). by destruct ph.
  - by rewrite Hframe, download_each_other.
Qed.

(** At the end of a run in which no stream hangs, the file system is the
    one the sequential run leaves. *)
Lemma fan_end_fs s :
  all_settle fs0 → fan_reach s → fan_stuck s →
  ffs s = (download_each items fs0).1.
Proof.
  intros Hsettle Hr Hstuck. pose proof (fan_reach_inv _ Hr) as Hinv.
  apply fan_done_fs; [done|by apply fan_reach_fated|done|].
  by apply fan_stuck_done.
Qed.

Lemma fan_final_fs sched :
  all_settle fs0 → ffs (fan_final sched) = (download_each items fs0).1.
Proof.
  intros Hsettle.
  apply fan_end_fs; [done|apply fan_final_reach|apply fan_final_stuck].
Qed.

(** A run is no longer than the fuel of the state it starts in. *)
Lemma fan_nsteps_fuel s s' n :
  fan_inv s → nsteps fan_rel n s s' → n ≤ fan_fuel s.
Proof.
  apply (nsteps_measure_bound fan_rel fan_inv fan_fuel).
  - intros s1 s2 Hinv [k Hk]. by eapply fan_step_inv.
  - intros s1 s2 (Hsync & _) [k Hk]. by eapply fan_step_fuel.
Qed.

(** ** The theorems of the fan-out *)

Lemma fan_reach_count s :
  fan_reach s → Z.of_nat (count_active (phases s)) = activeCount (lim s).
Proof. by intros ((_ & _ & Hc & _) & _)%fan_reach_inv. Qed.

(** C1: in every state the fan-out can reach, whatever the interleaving of
    the downloads, the number of downloads in flight is at most the
    concurrency the downloader was built with. *)
Theorem fan_out_in_flight_bounded s :
  fan_reach s →
  (Z.of_nat (count_active (phases s)) ≤ maxConcurrency (limit d))%Z.
Proof.
  intros Hr. rewrite (fan_reach_count s Hr).
  apply fan_reach_inv in Hr as (_ & (Hok & _ & Hmax) & _).
  unfold lim_ok in Hok. lia.
Qed.

(** C10: downloads are admitted in playlist order: in every reachable state,
    when the task of an item has been started, the tasks of all the items
    before it have been started too. *)
Theorem fan_out_starts_in_order s i j ph_i ph_j :
  fan_reach s → i ≤ j →
  phases s !! i = Some ph_i → phases s !! j = Some ph_j →
  is_Queued ph_j = false → is_Queued ph_i = false.
Proof.
  intros ((_ & _ & _ & k & _ & _ & Hq) & _)%fan_reach_inv Hij Hi Hj Hqj.
  destruct (is_Queued ph_i) eqn:Hqi; [|done].
  apply (Hq i ph_i Hi) in Hqi. rewrite <- Hqj. symmetry. apply (Hq j ph_j Hj). lia.
Qed.

(** C11: no slot is left idle: in every reachable state in which the task
    of some item still waits, exactly [concurrency] downloads are in
    flight. *)
Theorem fan_out_no_idle_slot s i :
  fan_reach s → phases s !! i = Some Queued →
  Z.of_nat (count_active (phases s)) = maxConcurrency (limit d).
Proof.
  intros Hr Hi. rewrite (fan_reach_count s Hr).
  apply fan_reach_inv in Hr
    as ((Hlen & _ & _ & k & _ & Hqueue & Hq) & (_ & He & <-) & _).
  apply He. rewrite Hqueue.
  pose proof (lookup_lt_Some _ _ _ Hi) as Hlt.
  pose proof (proj1 (Hq i Queued Hi) eq_refl) as Hk.
  destruct (length items - k) as [|m] eqn:Hm; [lia|done].
Qed.

(** C9: a run of the fan-out is finite: from a reachable state no sequence
    of steps is longer than the fuel of the state, the number of stream
    events and clean-ups the tasks have left. *)
Theorem fan_out_run_bounded s s' n :
  fan_reach s → nsteps fan_rel n s s' → n ≤ fan_fuel s.
Proof. intros Hr%fan_reach_inv. by apply fan_nsteps_fuel. Qed.

(** C7: the results of the fan-out do not depend on the interleaving:
    however the downloads interleaved, in a state the fan-out has reached
    and in which no download has a step left, [Promise.all] has resolved
    to what downloading the items one after the other gives, or is pending
    when that is. *)
Theorem fan_run_schedule_independent s :
  fan_reach s → fan_stuck s → promise_all s = (download_each items fs0).2.
Proof.
  intros Hr%fan_reach_inv Hstuck. unfold promise_all.
  by rewrite fan_stuck_results, download_each_completion.
Qed.

(** The result at position [i] is the result of the download of item
    [i] alone: results come in playlist order, and the failure of one item
    changes the result of no other. *)
Lemma fan_out_result_per_item sched rs i it :
  (fan_out sched fs0).2 = Return rs → items !! i = Some it →
  ∃ r, rs !! i = Some r ∧
       (downloadSingle d (shortUrl it) (title it) None fs0).2 = Return r.
Proof.
  rewrite fan_out_eq. simpl. intros Hrs Hit.
  destruct (mapM (item_result fs0) items) as [rs'|] eqn:Hm; [|done].
  injection Hrs as ->. apply mapM_Some in Hm.
  destruct (Forall2_lookup_l _ _ _ _ _ Hm Hit) as (r & Hr & Hres).
  exists r. split; [done|]. rewrite download_item_eq by done. by rewrite Hres.
Qed.

(** C8: when no stream hangs, the fan-out returns under every schedule, with
    one result for every item of the playlist. *)
Theorem fan_out_completes sched :
  all_settle fs0 →
  ∃ rs, (fan_out sched fs0).2 = Return rs ∧ length rs = length items.
Proof.
  intros [rs Hrs]%mapM_is_Some. exists rs. rewrite fan_out_eq, Hrs.
  split; [done|]. apply mapM_Some in Hrs. symmetry. by eapply Forall2_length.
Qed.

(** C2: when no stream hangs and no two items share an output path, the
    fan-out refines the sequential run: however the downloads interleaved,
    a state the fan-out has reached and in which no download has a step
    left holds the file system and the results of downloading the items
    one after the other.  The fan-out under a schedule, [fan_out], ends in
    such a state. *)
Theorem fan_run_refines_sequential s :
  all_settle fs0 → fan_reach s → fan_stuck s →
  (ffs s, promise_all s) = download_each items fs0.
Proof.
  intros Hsettle Hr Hstuck. rewrite (fan_end_fs s) by done.
  unfold promise_all. rewrite fan_stuck_results by (by try apply fan_reach_inv).
  rewrite <- (download_each_completion items fs0) by done.
  by destruct (download_each items fs0).
Qed.

(** C32: a download that never settles keeps the whole run from
    returning: when the stream of one item neither ends nor fails,
    [Promise.all] stays pending under every schedule. *)
Theorem fan_out_hang_pending sched it :
  it ∈ items →
  (downloadSingle d (shortUrl it) (title it) None fs0).2 = Pending →
  (fan_out sched fs0).2 = Pending.
Proof.
  intros Hin Hp. rewrite download_item_eq in Hp by done.
  rewrite fan_out_eq. simpl.
  destruct (mapM (item_result fs0) items) as [rs|] eqn:Hm; [|done].
  apply mapM_Some, Forall2_Forall_l with (Q := λ it, is_Some (item_result fs0 it))
    in Hm; [|apply Forall_true; eauto].
  rewrite Forall_forall in Hm. destruct (Hm it Hin) as [r Hr].
  by rewrite Hr in Hp.
Qed.

(** C39: a failing download removes the file a successful download of the
    same output path has written before it: downloaded one after the
    other, the first item is reported as a success and has no file. *)
Theorem download_each_collision a b m :
  task_path a = task_path b →
  (downloadSingle d (shortUrl a) (title a) None fs0).2 = Return result_ok →
  (downloadSingle d (shortUrl b) (title b) None fs0).2
    = Return (result_failed m) →
  (download_each [a; b] fs0).2 = Return [result_ok; result_failed m] ∧
  files (download_each [a; b] fs0).1 !! task_path a = None.
Proof.
  intros Hpath Ha Hb. rewrite download_item_eq in Ha, Hb by done.
  destruct (item_result fs0 a) as [ra|] eqn:Hra; [injection Ha as ->|done].
  destruct (item_result fs0 b) as [rb|] eqn:Hrb; [injection Hb as ->|done].
  split; [rewrite download_each_completion by done; simpl; by rewrite Hra, Hrb|].
  rewrite download_each_cons, Hpath.
  pose proof (download_item_eq a fs0 eq_refl) as Hc. rewrite Hra in Hc.
  pose proof (downloadSingle_dirs d (shortUrl a) (title a) None fs0) as Hd.
  destruct (downloadSingle _ _ _ _ fs0) as [fs1 c]. simpl in Hc, Hd. subst c.
  rewrite download_each_cons.
  pose proof (download_item_eq b fs1 Hd) as Hc. rewrite Hrb in Hc.
  pose proof (downloadSingle_file d (shortUrl b) (title b) None fs1) as Hf.
  fold (task_path b) in Hf.
  destruct (downloadSingle _ _ _ _ fs1) as [fs2 c]. cbn [fst snd] in Hc, Hf.
  subst c. cbn [completion_of download_each]. unfold eff_ret. cbn [fst].
  rewrite Hf. apply (expected_file_failed _ _ _ _ (result_failed m)); [|done].
  by rewrite Hd.
Qed.

(** Once [Promise.all] has resolved, the limiter is idle again: no
    download in flight, none waiting. *)
Lemma fan_out_leaves_limiter_idle s rs :
  fan_reach s → fan_results s = Some rs → lim_idle (lim s).
Proof.
  intros Hr Hrs%fan_results_Some. pose proof (fan_reach_count s Hr) as Hc.
  apply fan_reach_inv in Hr as ((Hlen & _ & _ & k & Hk & Hqueue & Hq) & _).
  rewrite Hrs in Hc, Hq, Hlen. split.
  - rewrite <- Hc. unfold count_active.
    rewrite (proj2 (sum_list_with_0 phase_active (Done <$> rs))); [done|].
    by apply Forall_fmap, Forall_true.
  - rewrite Hqueue. replace (length items - k) with 0; [done|].
    destruct (decide (k < length items)) as [Hlt|]; [|lia].
    rewrite <- Hlen, length_fmap in Hlt.
    destruct (lookup_lt_is_Some_2 rs k Hlt) as [r Hr].
    assert ((Done <$> rs) !! k = Some (Done r)) as Hd
      by (by rewrite list_lookup_fmap, Hr).
    pose proof (proj2 (Hq k _ Hd)). naive_solver lia.
Qed.

End fanout.

(** ** The playlist [A, B, C] of the demonstration, two downloads at a time *)

Module FanoutDemo.
Import Demo DemoDownloader.

Definition its : list YtplItem := [item "A"; item "B"; item "C"].

(** [B] fails, then [A] writes a chunk: [B] is cleaning up, [A] is half
    way, and [C] waits for a slot. *)
Definition mid : Fan := run_schedule demo its [1; 1; 0] (fan_init demo its fs_out).

(** Two items with the same title, hence the same output path: the first
    fails, the second succeeds. *)
Definition cover : YtplItem :=
  {| declared := declared (item "A"); shortUrl := "https://youtu.be/B" |}.


Lemma its_settle : all_settle demo its fs_out.
Proof. repeat constructor; vm_compute; eauto. Qed.

Lemma its_distinct : distinct_paths demo its.
Proof. unfold distinct_paths. apply (bool_decide_unpack _). vm_compute. reflexivity. Qed.

Lemma mid_reach : fan_reach demo its fs_out mid.
Proof. apply run_schedule_rtc. Qed.

Lemma fan_out_in_flight_bounded_witness :
  (Z.of_nat (count_active (phases mid)) ≤ 2)%Z.
Proof. apply (fan_out_in_flight_bounded demo its fs_out demo_wf mid mid_reach). Defined.

Lemma fan_out_starts_in_order_witness :
  is_Queued (Piping [EvData "a2"; EvFinish]) = false.
Proof.
  apply (fan_out_starts_in_order demo its fs_out demo_wf mid 0 1
           (Piping [EvData "a2"; EvFinish]) (Cleaning forbidden) mid_reach);
    (lia || vm_compute; reflexivity).
Defined.

Lemma fan_out_no_idle_slot_witness :
  Z.of_nat (count_active (phases mid)) = 2%Z.
Proof.
  apply (fan_out_no_idle_slot demo its fs_out demo_wf mid 2 mid_reach).
  vm_compute. reflexivity.
Defined.

Lemma fan_out_run_bounded_witness :
  2 ≤ fan_fuel demo its (fan_init demo its fs_out).
Proof.
  apply (fan_out_run_bounded demo its fs_out demo_wf _
           (run_schedule demo its [1; 0] (fan_init demo its fs_out)) 2);
    [apply rtc_refl|].
  eapply nsteps_l; [exists 1; vm_compute; reflexivity|].
  eapply nsteps_l; [exists 0; vm_compute; reflexivity|]. apply nsteps_O.
Defined.

Lemma fan_run_schedule_independent_witness :
  promise_all (fan_final demo its fs_out [2; 1; 1; 0; 1])
  = (download_each demo its fs_out).2.
Proof.
  apply (fan_run_schedule_independent demo its fs_out demo_wf);
    [apply fan_final_reach|apply fan_final_stuck, demo_wf].
Defined.

Lemma fan_out_result_per_item_witness :
  ∃ r, [result_ok; result_failed "Status code: 403"; result_ok] !! 1 = Some r ∧
       (downloadSingle demo "https://youtu.be/B" "Song B" None fs_out).2 = Return r.
Proof.
  apply (fan_out_result_per_item demo its fs_out demo_wf [1; 0; 1] _ 1 (item "B"));
    vm_compute; reflexivity.
Defined.

Lemma fan_out_completes_witness :
  ∃ rs, (fan_out demo its [1; 0; 1] fs_out).2 = Return rs ∧ length rs = 3.
Proof. apply (fan_out_completes demo its fs_out demo_wf [1; 0; 1] its_settle). Defined.

Lemma fan_run_refines_sequential_witness :
  (ffs (fan_final demo its fs_out [1; 1; 0; 1; 2]),
   promise_all (fan_final demo its fs_out [1; 1; 0; 1; 2]))
  = download_each demo its fs_out.
Proof.
  apply (fan_run_refines_sequential demo its fs_out demo_wf its_distinct
           (fan_final demo its fs_out [1; 1; 0; 1; 2]) its_settle);
    [apply fan_final_reach|apply fan_final_stuck, demo_wf].
Defined.

Lemma fan_out_hang_pending_witness :
  (fan_out demo [item "A"; item "H"; item "C"] [0; 1; 2] fs_out).2 = Pending.
Proof.
  apply (fan_out_hang_pending demo _ fs_out demo_wf [0; 1; 2] (item "H"));
    [set_solver|vm_compute; reflexivity].
Defined.

Lemma fan_out_leaves_limiter_idle_witness :
  lim_idle (lim (fan_final demo its fs_out [])).
Proof.
  apply (fan_out_leaves_limiter_idle demo its fs_out demo_wf _
           [result_ok; result_failed "Status code: 403"; result_ok]);
    [apply fan_final_reach|vm_compute; reflexivity].
Defined.


Lemma download_each_collision_witness :
  (download_each demo [item "A"; cover] fs_out).2
    = Return [result_ok; result_failed "Status code: 403"] ∧
  files (download_each demo [item "A"; cover] fs_out).1 !! "out/Song A.mp3" = None.
Proof.
  change "out/Song A.mp3" with (task_path demo (item "A")).
  apply (download_each_collision demo fs_out (item "A") cover "Status code: 403");
    vm_compute; reflexivity.
Defined.

End FanoutDemo.
