(* ===== verification/Admission.v ===== *)
(** * The fan-out implements the pool of the limiter's specification

    The specification describes the limiter as a pool: a capacity, the
    tasks that run and the tasks that wait, with three transitions (a task
    is submitted, the longest-waiting task starts when fewer than capacity
    run, a running task finishes).  [Limiter] shows that the counter and
    queue implement the pool.  This file shows that the fan-out of
    [downloadPlaylist] drives it as the specification demands: the state of
    the fan-out is read as a pool ([fan_pool]: the tasks in flight, in
    playlist order, and the queue of the limiter), handing the items over
    is a run of the pool that submits every item once in playlist order,
    a step of the fan-out is no transition of the pool, or the finish of
    the task that stepped followed by at most one start, and so every state
    the fan-out reaches is the end of a run of the pool. *)

From S2P Require Import Prelude Js Types FileSystem Collab Limiter Downloader.
From S2P Require Import Single Fanout.

Open Scope string_scope.
Open Scope list_scope.
Open Scope nat_scope.

(** ** The tasks in flight *)

(** The indices, counted from [k], of the phases that are in flight. *)
Fixpoint active_from (k : nat) (phs : list Phase) : list nat :=
  match phs with
  | [] => []
  | ph :: rest => (if is_active ph then [k] else []) ++ active_from (S k) rest
  end.

Definition in_flight (phs : list Phase) : list nat := active_from 0 phs.

(** The tasks a run of the pool submits, in order. *)
Definition label_submits (labs : list (PoolLabel nat)) : list nat :=
  omap (λ lab, match lab with Submit t => Some t | _ => None end) labs.

Lemma active_from_app k l1 l2 :
  active_from k (l1 ++ l2) = active_from k l1 ++ active_from (k + length l1) l2.
Proof.
  revert k. induction l1 as [|ph l1 IH]; intros k; simpl.
  - by rewrite Nat.add_0_r.
  - rewrite IH, <- app_assoc. do 3 f_equal. lia.
Qed.

Lemma active_from_length k phs : length (active_from k phs) = count_active phs.
Proof.
  revert k. induction phs as [|ph phs IH]; intros k; [done|].
  simpl. rewrite length_app, IH. unfold phase_active. by destruct (is_active ph).
Qed.

Lemma active_from_idle k phs :
  Forall (λ ph, is_active ph = false) phs → active_from k phs = [].
Proof.
  intros Hall. revert k. induction Hall as [|ph phs Hph _ IH]; intros k; [done|].
  simpl. by rewrite Hph, IH.
Qed.

(** The tasks in flight around position [i]. *)
Lemma active_from_lookup k phs i ph :
  phs !! i = Some ph →
  active_from k phs =
  active_from k (take i phs) ++ (if is_active ph then [k + i] else [])
    ++ active_from (k + S i) (drop (S i) phs).
Proof.
  intros Hi. rewrite <- (take_drop_middle phs i ph Hi) at 1.
  pose proof (lookup_lt_Some _ _ _ Hi) as Hlt.
  rewrite active_from_app, length_take_le by lia. simpl.
  do 3 f_equal. lia.
Qed.

Lemma active_from_insert k phs i ph ph' :
  phs !! i = Some ph →
  active_from k (<[i:=ph']> phs) =
  active_from k (take i phs) ++ (if is_active ph' then [k + i] else [])
    ++ active_from (k + S i) (drop (S i) phs).
Proof.
  intros Hi. pose proof (lookup_lt_Some _ _ _ Hi) as Hlt.
  rewrite (active_from_lookup k (<[i:=ph']> phs) i ph')
    by (by rewrite list_lookup_insert_eq).
  by rewrite take_insert_ge, drop_insert_lt by lia.
Qed.

(** A phase replaced by one as much in flight changes nothing. *)
Lemma in_flight_same phs i ph ph' :
  phs !! i = Some ph → is_active ph' = is_active ph →
  in_flight (<[i:=ph']> phs) = in_flight phs.
Proof.
  intros Hi Ha. unfold in_flight.
  by rewrite (active_from_insert 0 phs i ph), (active_from_lookup 0 phs i ph), Ha.
Qed.

(** A task in flight that returns leaves the list. *)
Lemma in_flight_done phs i ph r :
  phs !! i = Some ph → is_active ph = true →
  ∃ r1 r2, in_flight phs = r1 ++ i :: r2 ∧
           in_flight (<[i:=Done r]> phs) = r1 ++ r2.
Proof.
  intros Hi Ha. unfold in_flight.
  rewrite (active_from_insert 0 phs i ph), (active_from_lookup 0 phs i ph), Ha
    by done.
  by eexists _, _.
Qed.

(** A task that starts, all later tasks waiting, joins the list at its
    end. *)
Lemma in_flight_start phs i ph ph' :
  phs !! i = Some ph → is_active ph = false → is_active ph' = true →
  (∀ i' ph', i < i' → phs !! i' = Some ph' → is_active ph' = false) →
  in_flight (<[i:=ph']> phs) = in_flight phs ++ [i].
Proof.
  intros Hi Ha Ha' Hlater. unfold in_flight.
  rewrite (active_from_insert 0 phs i ph), (active_from_lookup 0 phs i ph), Ha, Ha'
    by done.
  rewrite (active_from_idle (0 + S i) (drop (S i) phs)); [by rewrite !app_nil_r|].
  apply Forall_lookup. intros i' ph1 Hi'. rewrite lookup_drop in Hi'.
  apply (Hlater (S i + i')); [lia|done].
Qed.

Section admission.
Context `{Collaborators}.
Variable d : YoutubeDownloader.
Variable items : list YtplItem.

(** The fan-out read as a pool. *)
Definition fan_pool (s : Fan) : Pool nat :=
  {| capacity := maxConcurrency (limit d);
     running := in_flight (phases s);
     waiting := queue (lim s) |}.

(** *** The pieces of a step, as transitions of the pool *)

Lemma enqueue_refines s i :
  pool_step (fan_pool s) (Submit i) (fan_pool (with_lim (enqueue i (lim s)) s)).
Proof. apply (pool_submit (fan_pool s) i). Qed.

Lemma release_refines s i ph r fs' :
  phases s !! i = Some ph → is_active ph = true →
  pool_step (fan_pool s) (Finish i)
    (fan_pool (with_lim (release (lim s)) (set_phase i (Done r) fs' s))).
Proof.
  intros Hi Ha. destruct (in_flight_done _ _ _ r Hi Ha) as (r1 & r2 & Hr & Hr').
  unfold fan_pool at 2. simpl. rewrite Hr'.
  by apply (pool_finish (fan_pool s) i r1 r2).
Qed.

Lemma resume_refines j s :
  fan_sync items j s → maxConcurrency (lim s) = maxConcurrency (limit d) →
  pool_steps (fan_pool s) (start_labels (resumeNext (lim s)).1)
    (fan_pool (fan_resume d items s)).
Proof.
  intros (Hlen & Hj & Hcount & k & Hk & Hq & Hqueued) Hmax. unfold fan_resume.
  destruct (resumeNext_cases (lim s))
    as [[_ ->]|[(_&_& ->)|(t&rest&Ht&Hfree& ->)]]; simpl;
    [constructor..|].
  pose proof Ht as Hhead. rewrite Hq in Ht.
  destruct (j - k) as [|m] eqn:Hm; [done|]. injection Ht as <- <-.
  destruct (lookup_lt_is_Some_2 items k) as [it Hit]; [lia|].
  destruct (lookup_lt_is_Some_2 (phases s) k) as [ph Hph]; [lia|].
  assert (is_Queued ph = true) as Hqd by (by apply (Hqueued k)).
  rewrite (start_eq _ _ _ it) by done.
  econstructor; [|constructor].
  unfold fan_pool at 2. simpl.
  rewrite (in_flight_start _ _ ph); [|done|by destruct ph|done|].
  - apply (pool_start (fan_pool s) k (seq (S k) m)); [done|]. simpl.
    unfold in_flight. rewrite active_from_length. lia.
  - intros i' ph1 Hlt Hi'. assert (is_Queued ph1 = true) as Hq1
      by (apply (Hqueued i'); [done|lia]).
    by destruct ph1.
Qed.

(** Handing one item over: its submission, and its start if a slot is
    free. *)
Lemma hand_over_refines j s :
  fan_sync items j s → maxConcurrency (lim s) = maxConcurrency (limit d) →
  j < length items →
  pool_steps (fan_pool s)
    (Submit j :: start_labels (resumeNext (enqueue j (lim s))).1)
    (fan_pool (fan_submit d items s j)).
Proof.
  intros Hsync Hmax Hj. rewrite fan_submit_resume.
  econstructor; [apply enqueue_refines|].
  apply (resume_refines (S j)); [apply sync_enqueue; [done|lia]|done].
Qed.

(** What the labels of such a run submit. *)
Lemma hand_over_labels j (o : option nat) :
  label_submits (Submit j :: start_labels o) = [j].
Proof. by destruct o. Qed.

(** Handing over the next [n] items, from a state in which [j] have
    been: a run of the pool that submits them, in their order. *)
Lemma hand_over_upto_refines j n s :
  j + n ≤ length items → fan_sync items j s → fan_lim_ok d s →
  ∃ labs, pool_steps (fan_pool s) labs
            (fan_pool (foldl (fan_submit d items) s (seq j n)))
          ∧ label_submits labs = seq j n.
Proof.
  intros Hle Hsync Hlim.
  induction n as [|n IH]; [exists []; split; [constructor|done]|].
  destruct IH as (labs & Hsteps & Hsub); [lia|].
  destruct (fan_submit_upto_sync d items j n s) as [Hsync' (_ & _ & Hmax)];
    [lia|done|].
  rewrite seq_S, foldl_app. simpl. set (s1 := foldl _ _ _) in *.
  exists (labs ++ Submit (j + n)
                    :: start_labels (resumeNext (enqueue (j + n) (lim s1))).1).
  split; [eapply pool_steps_app; [done|]; apply hand_over_refines; [done..|lia]|].
  unfold label_submits in *. rewrite omap_app, Hsub.
  fold (label_submits
          (Submit (j + n) :: start_labels (resumeNext (enqueue (j + n) (lim s1))).1)).
  by rewrite hand_over_labels.
Qed.

(** A step of a download: no transition while the download goes on, and,
    when it returns, its finish followed by the start of the
    longest-waiting task if there is one. *)
Lemma download_step_refines s i s' :
  fan_sync items (length items) s →
  maxConcurrency (lim s) = maxConcurrency (limit d) →
  fan_step d items i s = Some s' →
  ∃ labs, pool_steps (fan_pool s) labs (fan_pool s') ∧
          (labs = [] ∨ ∃ o, labs = Finish i :: start_labels o).
Proof.
  intros Hsync Hmax.
  intros (it & ph & ph' & fs' & Hit & Hph & Hstep & ->)%fan_step_Some.
  destruct (task_step_active _ _ _ _ _ Hstep) as [Ha Hq'].
  destruct (is_Done ph') eqn:Hdone.
  - destruct ph' as [| | |r]; try done. rewrite fan_finish_resume.
    eexists. split; [|right; by eexists].
    econstructor; [by eapply release_refines|].
    apply (resume_refines (length items));
      [by apply (sync_set_done items _ s i ph r fs')|done].
  - exists []. split; [|by left].
    unfold fan_pool. simpl. rewrite (in_flight_same _ _ ph); [constructor|done|].
    rewrite Ha. by destruct ph'.
Qed.

(** The labels of a step submit nothing. *)
Lemma step_labels_submit_nothing (labs : list (PoolLabel nat)) i :
  labs = [] ∨ (∃ o, labs = Finish i :: start_labels o) → label_submits labs = [].
Proof. intros [->|[[t|] ->]]; done. Qed.

Variable fs0 : FS.
Hypothesis d_wf : downloader_wf d.

Lemma submit_prefix_refines j :
  j ≤ length items →
  ∃ labs, pool_steps (fan_pool (fan_blank d items fs0)) labs
            (fan_pool (foldl (fan_submit d items) (fan_blank d items fs0) (seq 0 j)))
          ∧ label_submits labs = seq 0 j.
Proof.
  intros Hj. destruct (fan_blank_inv d items fs0 d_wf) as (Hsync & Hlim & _).
  by apply (hand_over_upto_refines 0 j).
Qed.

(** ** The theorems *)

(** Handing the items of the playlist to the limiter is a run of the pool
    of the specification, from the empty pool, in which every item is
    submitted once, in playlist order. *)
Lemma fan_init_refines_pool :
  ∃ labs, pool_steps
            {| capacity := maxConcurrency (limit d); running := []; waiting := [] |}
            labs (fan_pool (fan_init d items fs0))
          ∧ label_submits labs = seq 0 (length items).
Proof.
  destruct (submit_prefix_refines (length items)) as (labs & Hsteps & Hsub);
    [done|].
  exists labs. split; [|done].
  destruct d_wf as (_ & _ & _ & _ & Hq).
  replace {| capacity := _; running := []; waiting := [] |}
    with (fan_pool (fan_blank d items fs0)); [done|].
  unfold fan_pool, fan_blank. simpl. rewrite Hq. f_equal.
  unfold in_flight. apply active_from_idle, Forall_replicate. done.
Qed.

(** A step of the fan-out is a run of the pool of the specification. *)
Lemma fan_step_refines_pool s i s' :
  fan_reach d items fs0 s → fan_step d items i s = Some s' →
  ∃ labs, pool_steps (fan_pool s) labs (fan_pool s') ∧
          (labs = [] ∨ ∃ o, labs = Finish i :: start_labels o).
Proof.
  intros (Hsync & (_ & _ & Hmax) & _)%fan_reach_inv; [|done].
  by apply download_step_refines.
Qed.

(** ** The theorem *)

(** C22: the fan-out implements the pool of the limiter's specification:
    every state it reaches, under any interleaving of the downloads, is the
    end of a run of the pool from the empty pool in which every item of the
    playlist is submitted once, in playlist order. *)
Theorem fan_run_refines_pool s :
  fan_reach d items fs0 s →
  ∃ labs, pool_steps
            {| capacity := maxConcurrency (limit d); running := []; waiting := [] |}
            labs (fan_pool s)
          ∧ label_submits labs = seq 0 (length items).
Proof.
  revert s. unfold fan_reach. apply rtc_ind_r; [apply fan_init_refines_pool|].
  intros s1 s2 Hr1 [i Hi] (labs & Hrun & Hsub).
  destruct (fan_step_refines_pool s1 i s2 Hr1 Hi) as (labs' & Hstep & Hlabs).
  exists (labs ++ labs'). split; [by eapply pool_steps_app|].
  unfold label_submits in *. rewrite omap_app, Hsub.
  fold (label_submits labs'). rewrite (step_labels_submit_nothing labs' i Hlabs).
  apply app_nil_r.
Qed.

End admission.

(** ** On the playlist of the demonstration *)

Module AdmissionDemo.
Import Demo DemoDownloader FanoutDemo.

(** After [B] has failed and [C] has been started in its place. *)
Lemma fan_run_refines_pool_witness :
  ∃ labs, pool_steps {| capacity := 2; running := []; waiting := [] |}
            labs {| capacity := 2; running := [0; 2]; waiting := [] |}
          ∧ label_submits labs = [0; 1; 2].
Proof.
  change {| capacity := 2; running := [0; 2]; waiting := [] |}
    with (fan_pool demo (run_schedule demo its [1; 1; 0; 1] (fan_init demo its fs_out))).
  apply (fan_run_refines_pool demo its fs_out demo_wf), run_schedule_rtc.
Defined.

End AdmissionDemo.
