(* ===== verification/Wellformed.v ===== *)
(** * Well-formed states of the fan-out

    What holds of every state the fan-out goes through, whatever the
    downloader and the streams: there is a phase for every item, no path of
    the file system is both a directory and a file, every result a task has
    returned carries an error message exactly when it failed, and the
    limiter queues items of the playlist only.  Each operation of the
    fan-out preserves this ([start], [fan_submit], [fan_finish],
    [fan_step]), so it holds of every reachable state. *)

From S2P Require Import Prelude Js Types FileSystem Collab Limiter Downloader.
From S2P Require Import Single Fanout.

Open Scope string_scope.
Open Scope list_scope.
Open Scope nat_scope.

(** A phase is well formed when the result it holds, if any, is. *)
Definition phase_wf (ph : Phase) : Prop :=
  match ph with
  | Done r => result_wf r
  | _ => True
  end.

#[export] Instance phase_wf_dec ph : Decision (phase_wf ph).
Proof. destruct ph; apply _. Defined.

#[export] Instance fs_wf_dec fs : Decision (fs_wf fs).
Proof. apply (set_Forall_dec (λ p, files fs !! p = None)). Defined.

Record fan_wf (items : list YtplItem) (s : Fan) : Prop := mk_fan_wf {
  wf_length : length (phases s) = length items;
  wf_fs : fs_wf (ffs s);
  wf_phases : Forall phase_wf (phases s);
  wf_queue : Forall (λ i, i < length items) (queue (lim s));
}.

#[export] Instance fan_wf_dec items s : Decision (fan_wf items s).
Proof.
  destruct (decide (length (phases s) = length items ∧ fs_wf (ffs s) ∧
                    Forall phase_wf (phases s) ∧
                    Forall (λ i, i < length items) (queue (lim s))))
    as [Hy|Hn]; [left|right].
  - by destruct Hy as (? & ? & ? & ?).
  - intros []. by apply Hn.
Defined.

(** A step of a call leaves a well-formed phase. *)
Lemma task_step_phase_wf path ph fs ph' fs' :
  task_step path ph fs = Some (ph', fs') → phase_wf ph'.
Proof.
  task_step_cases; simpl; auto with harmonix.
Qed.

Section wellformed.
Context `{Collaborators}.
Variable d : YoutubeDownloader.
Variable items : list YtplItem.

Lemma set_phase_wf i ph' fs' s :
  fan_wf items s → fs_wf fs' → phase_wf ph' →
  fan_wf items (set_phase i ph' fs' s).
Proof.
  intros [Hlen Hfs Hph Hq] Hfs' Hph'. split; simpl; [|done| |done].
  - by rewrite length_insert.
  - by apply Forall_insert.
Qed.

Lemma with_lim_wf l' s :
  fan_wf items s → Forall (λ i, i < length items) (queue l') →
  fan_wf items (with_lim l' s).
Proof. by intros [Hlen Hfs Hph Hq] Hq'. Qed.

Lemma start_wf i s : fan_wf items s → fan_wf items (start d items i s).
Proof.
  intros Hs. destruct (items !! i) as [it|] eqn:Hit;
    [|unfold start; by rewrite Hit].
  rewrite (start_eq _ _ _ it) by done.
  apply set_phase_wf; [done| |done]. apply open_write_wf, Hs.
Qed.

Lemma fan_resume_wf s : fan_wf items s → fan_wf items (fan_resume d items s).
Proof.
  intros Hs. unfold fan_resume.
  destruct (resumeNext_cases (lim s))
    as [[_ ->]|[(_&_& ->)|(t&rest&Ht&_& ->)]]; simpl;
    [by apply with_lim_wf, Hs..|].
  apply start_wf, with_lim_wf; [done|]. simpl.
  pose proof (wf_queue _ _ Hs) as Hq. rewrite Ht in Hq.
  by apply Forall_cons in Hq as [_ ?].
Qed.

Lemma fan_submit_wf s i :
  fan_wf items s → i < length items → fan_wf items (fan_submit d items s i).
Proof.
  intros Hs Hi. rewrite fan_submit_resume. apply fan_resume_wf, with_lim_wf; [done|].
  simpl. apply Forall_app. split; [apply Hs|by apply Forall_singleton].
Qed.

Lemma fan_finish_wf s : fan_wf items s → fan_wf items (fan_finish d items s).
Proof.
  intros Hs. rewrite fan_finish_resume.
  apply fan_resume_wf, with_lim_wf; [done|apply Hs].
Qed.

Lemma fan_step_wf i s s' :
  fan_wf items s → fan_step d items i s = Some s' → fan_wf items s'.
Proof.
  intros Hs (it & ph & ph' & fs' & Hit & Hph & Hstep & ->)%fan_step_Some.
  assert (fan_wf items (set_phase i ph' fs' s)) as Hs'.
  { apply set_phase_wf; [done| |by eapply task_step_phase_wf].
    eapply task_step_wf; [done|apply Hs]. }
  destruct (is_Done ph'); [by apply fan_finish_wf|done].
Qed.

Lemma fan_rtc_wf s s' :
  fan_wf items s → rtc (fan_rel d items) s s' → fan_wf items s'.
Proof.
  apply (rtc_invariant (fan_rel d items) (fan_wf items)).
  intros s1 s2 Hs1 [i Hi]. by eapply fan_step_wf.
Qed.

Variable fs0 : FS.
Hypothesis d_wf : downloader_wf d.
Hypothesis fs0_wf : fs_wf fs0.

Lemma fan_blank_wf : fan_wf items (fan_blank d items fs0).
Proof.
  destruct d_wf as (_ & _ & _ & _ & Hq).
  split; simpl; [apply length_replicate|done|by apply Forall_replicate|].
  by rewrite Hq.
Qed.

Lemma fan_init_wf : fan_wf items (fan_init d items fs0).
Proof.
  unfold fan_init. fold (fan_blank d items fs0).
  assert (∀ j, j ≤ length items →
    fan_wf items (foldl (fan_submit d items) (fan_blank d items fs0) (seq 0 j)))
    as Hj;
    [|by apply Hj].
  induction j as [|j IH]; intros Hle; [apply fan_blank_wf|].
  rewrite seq_S, foldl_app. simpl. apply fan_submit_wf; [apply IH|]; lia.
Qed.

(** The fan-out under a schedule leaves a well-formed file system. *)
Lemma fan_out_wf sched : fs_wf (fan_out d items sched fs0).1.
Proof.
  apply (wf_fs items), (fan_rtc_wf (fan_init d items fs0)); [apply fan_init_wf|].
  apply (fan_final_reach d items fs0 sched).
Qed.

(** ** The theorem *)

(** C20: every state the fan-out reaches from a well-formed file system is
    well formed: a phase for every item, no path both a directory and a
    file, every returned result with an error message exactly when it
    failed, and only items of the playlist in the queue of the limiter. *)
Theorem fan_reach_wf s : fan_reach d items fs0 s → fan_wf items s.
Proof. apply fan_rtc_wf, fan_init_wf. Qed.

End wellformed.

(** ** On the playlist of the demonstration *)

Module WellformedDemo.
Import Demo DemoDownloader FanoutDemo.

Lemma fs_out_wf : fs_wf fs_out.
Proof. intros p _. apply lookup_empty. Qed.

Lemma fan_reach_wf_witness : fan_wf its mid.
Proof. apply (fan_reach_wf demo its fs_out demo_wf fs_out_wf mid mid_reach). Defined.

End WellformedDemo.
