(* ===== verification/Bounds.v ===== *)
(** * How long a run of the fan-out can be

    The fuel of [Fanout] bounds a run from any reachable state.  Here the
    bound is made explicit for a whole run, in terms of what the media
    fetcher delivers: the download of an item takes at most one step per
    event of its stream, and one for the clean-up; a download whose file
    cannot be opened takes two.  Summed over the playlist this bounds every
    run of the fan-out, whatever the interleaving and the concurrency.

    [fan_cost] is the same measure taken of any state: what the tasks have
    left, a task that waits counted for the whole of its stream.  It does
    not depend on the file system, every step of the fan-out decreases it,
    and it is what the machine of calls ([Calls]) terminates by. *)

From S2P Require Import Prelude Js Types FileSystem Collab Limiter Downloader.
From S2P Require Import Single Fanout.

Open Scope string_scope.
Open Scope list_scope.
Open Scope nat_scope.

Section bounds.
Context `{Collaborators}.
Variable d : YoutubeDownloader.
Variable items : list YtplItem.
Variable fs0 : FS.
Hypothesis d_wf : downloader_wf d.

(** The steps the download of an item takes, at most. *)
Definition item_steps (it : YtplItem) : nat :=
  length (ytdl (shortUrl it)) `max` 1 + 1.

(** The steps a run of the playlist takes, at most. *)
Definition run_bound : nat := sum_list_with item_steps items.

Lemma expected_events_length path url fs :
  length (expected_events d path url fs) ≤ length (ytdl url) `max` 1.
Proof.
  unfold expected_events, stream_events.
  destruct (open_error _ _ _); simpl; lia.
Qed.

(** Before anything has started, the fuel is within the bound. *)
Lemma fan_blank_fuel : fan_fuel d items (fan_blank d items fs0) ≤ run_bound.
Proof.
  unfold fan_fuel, run_bound, fan_blank. simpl.
  apply sum_list_imap_le; [apply length_replicate|].
  intros i ph it [-> _]%lookup_replicate Hit.
  unfold task_weight, item_steps. rewrite Hit. simpl.
  pose proof (expected_events_length (task_path d it) (shortUrl it) fs0). lia.
Qed.

(** Handing the items over uses up no fuel. *)
Lemma fan_submit_fuel j s :
  fan_sync items j s → j < length items →
  fan_fuel d items (fan_submit d items s j) ≤ fan_fuel d items s.
Proof.
  intros Hs Hj. rewrite fan_submit_resume.
  change (fan_fuel d items s)
    with (fan_fuel d items (with_lim (enqueue j (lim s)) s)).
  apply (fan_fuel_resume d items (S j)). by apply sync_enqueue.
Qed.

Lemma fan_init_fuel : fan_fuel d items (fan_init d items fs0) ≤ run_bound.
Proof.
  etrans; [|apply fan_blank_fuel]. unfold fan_init. fold (fan_blank d items fs0).
  assert (∀ j, j ≤ length items →
    fan_fuel d items (foldl (fan_submit d items) (fan_blank d items fs0) (seq 0 j))
    ≤ fan_fuel d items (fan_blank d items fs0)) as Hj; [|by apply Hj].
  induction j as [|j IH]; intros Hle; [done|].
  rewrite seq_S, foldl_app. simpl. etrans; [|apply IH; lia].
  apply fan_submit_fuel; [|lia].
  apply (fan_init_upto d items fs0 d_wf j). lia.
Qed.

(** ** A measure that does not depend on the file system

    The fuel of [Fanout] counts, for a task that waits, the events it will
    get in the file system of the moment.  The cost counts the events of its
    stream, whatever the file system: it is what a run can take at most when
    directories may still be made while the tasks wait. *)

Definition task_cost (i : nat) (ph : Phase) : nat :=
  match ph, items !! i with
  | Queued, Some it => item_steps it
  | _, _ => task_fuel ph
  end.

Definition fan_cost (s : Fan) : nat := sum_list (imap task_cost (phases s)).

Lemma task_cost_started i ph : is_Queued ph = false → task_cost i ph = task_fuel ph.
Proof. by destruct ph. Qed.

Lemma fan_cost_set_phase s i ph ph' fs' :
  phases s !! i = Some ph →
  fan_cost (set_phase i ph' fs' s) + task_cost i ph = fan_cost s + task_cost i ph'.
Proof. intros Hi. unfold fan_cost. simpl. by apply sum_list_imap_insert. Qed.

(** Starting the task that waits longest costs nothing. *)
Lemma fan_cost_resume j s :
  fan_sync items j s → fan_cost (fan_resume d items s) ≤ fan_cost s.
Proof.
  intros Hs. destruct (fan_resume_cases d items j s Hs)
    as [->|(k & it & rest & Hit & Hk & _ & _ & _ & ->)]; [done|].
  pose proof (fan_cost_set_phase (with_lim
      {| maxConcurrency := maxConcurrency (lim s);
         activeCount := activeCount (lim s) + 1; queue := rest |} s)
    k Queued (Piping (expected_events d (task_path d it) (shortUrl it) (ffs s)))
    (open_write (outputFolder d) (task_path d it) (ffs s)).1 Hk) as Hc.
  pose proof (expected_events_length (task_path d it) (shortUrl it) (ffs s)) as Hle.
  unfold task_cost in Hc. rewrite Hit in Hc. unfold item_steps in Hc.
  unfold fan_cost in *. simpl in *. lia.
Qed.

Lemma fan_submit_cost j s :
  fan_sync items j s → j < length items →
  fan_cost (fan_submit d items s j) ≤ fan_cost s.
Proof.
  intros Hs Hj. rewrite fan_submit_resume.
  change (fan_cost s) with (fan_cost (with_lim (enqueue j (lim s)) s)).
  apply (fan_cost_resume (S j)). by apply sync_enqueue.
Qed.

(** Handing over items costs nothing. *)
Lemma fan_submit_upto_cost j n s :
  j + n ≤ length items → fan_sync items j s ∧ fan_lim_ok d s →
  fan_cost (foldl (fan_submit d items) s (seq j n)) ≤ fan_cost s.
Proof.
  intros Hjn Hs. induction n as [|n IH]; [done|].
  rewrite seq_S, foldl_app. simpl. etrans; [|apply IH; lia].
  apply fan_submit_cost; [|lia].
  by apply (fan_submit_upto_sync d items j n s ltac:(lia)).
Qed.

(** Every step of a download is paid for. *)
Lemma fan_step_cost j i s s' :
  fan_sync items j s → fan_step d items i s = Some s' → fan_cost s' < fan_cost s.
Proof.
  intros Hs (it & ph & ph' & fs' & Hit & Hph & Hstep & ->)%fan_step_Some.
  destruct (task_step_active _ _ _ _ _ Hstep) as [Ha Hq'].
  pose proof (task_step_fuel _ _ _ _ _ Hstep) as Hlt.
  pose proof (fan_cost_set_phase s i ph ph' fs' Hph) as Hc.
  rewrite !task_cost_started in Hc by auto using active_not_Queued.
  destruct ph' as [|rest|e|r]; simpl; try lia.
  rewrite fan_finish_resume.
  pose proof (fan_cost_resume j _ (sync_set_done items j s i ph r fs' Hs Hph Ha)) as Hr.
  unfold fan_cost in *. simpl in *. lia.
Qed.

(** ** The theorem *)

(** A run of the fan-out, from the moment the items are handed to the
    limiter, takes at most one step per event of every stream, at least one
    per item, and one clean-up per item, whatever the interleaving and the
    concurrency. *)
Lemma fan_run_length_bound n s :
  nsteps (fan_rel d items) n (fan_init d items fs0) s → n ≤ run_bound.
Proof.
  intros Hn. etrans; [|apply fan_init_fuel].
  eapply fan_nsteps_fuel; [|done]. by apply fan_init_inv.
Qed.

End bounds.

(** ** On the playlist of the demonstration *)

Module BoundsDemo.
Import Demo DemoDownloader FanoutDemo.

Lemma fan_run_length_bound_witness : 2 ≤ 10.
Proof.
  change 10 with (run_bound its).
  apply (fan_run_length_bound demo its fs_out demo_wf 2
           (run_schedule demo its [1; 0] (fan_init demo its fs_out))).
  eapply nsteps_l; [exists 1; vm_compute; reflexivity|].
  eapply nsteps_l; [exists 0; vm_compute; reflexivity|]. apply nsteps_O.
Defined.

End BoundsDemo.
