(* ===== verification/Capacity.v ===== *)
(** * The two ends of the concurrency range

    The specification asks of the limiter that it works when the limit
    exceeds the number of tasks (all run at once) and when it is one (the
    run is serial).  Both are shown here of the fan-out of
    [downloadPlaylist].  They rest on one more invariant of the reachable
    states ([fan_staggered]): a task that has been started has fewer than
    [concurrency] tasks in flight among those before it, since that was so
    when it started and the tasks before it do not start again.  The same
    invariant shows what streams that hang do to a run: when the first
    [concurrency] of them hang, nothing else is ever started
    ([hung_head_waits]).

    [fan_shape] gathers what holds of a fan-out whatever the file system
    does: the phases follow the limiter, the limiter is within its bound,
    and the tasks are staggered.  Handing over an item and a step of a
    download keep it. *)

From S2P Require Import Prelude Js Types FileSystem Collab Limiter Downloader.
From S2P Require Import Single Fanout.

Open Scope string_scope.
Open Scope list_scope.
Open Scope nat_scope.

(** ** Counting the tasks in flight *)

Lemma count_active_le_length phs : count_active phs ≤ length phs.
Proof.
  induction phs as [|ph phs IH]; [done|]. simpl. unfold phase_active at 1.
  fold (count_active phs). destruct (is_active ph); lia.
Qed.

(** A task that is not in flight leaves room. *)
Lemma count_active_lt_length phs i ph :
  phs !! i = Some ph → is_active ph = false → count_active phs < length phs.
Proof.
  intros Hi Ha.
  pose proof (count_active_insert phs i ph (Piping []) Hi) as Hc.
  pose proof (count_active_le_length (<[i:=Piping []]> phs)) as Hle.
  rewrite length_insert in Hle. unfold phase_active in Hc. rewrite Ha in Hc.
  simpl in Hc. lia.
Qed.

(** Replacing a phase by one no more in flight does not raise the count of
    a prefix. *)
Lemma count_active_take_insert phs n i ph ph' :
  phs !! i = Some ph → phase_active ph' ≤ phase_active ph →
  count_active (take n (<[i:=ph']> phs)) ≤ count_active (take n phs).
Proof.
  intros Hi Hle. destruct (decide (i < n)) as [Hlt|Hge].
  - rewrite take_insert_lt by done.
    pose proof (count_active_insert (take n phs) i ph ph') as Hc.
    rewrite lookup_take_lt in Hc by done. specialize (Hc Hi). lia.
  - rewrite take_insert_ge by lia. done.
Qed.

(** The download of item [i] has been started. *)
Definition started (s : Fan) (i : nat) : Prop :=
  ∃ ph, phases s !! i = Some ph ∧ is_Queued ph = false.

(** The download of item [i] has returned. *)
Definition returned (s : Fan) (i : nat) : Prop :=
  ∃ ph, phases s !! i = Some ph ∧ is_Done ph = true.

(** When every task is in flight, the count is the number of tasks. *)
Lemma count_active_all phs :
  Forall (λ ph, is_active ph = true) phs → count_active phs = length phs.
Proof.
  induction 1 as [|ph phs Hph _ IH]; [done|]. simpl. unfold phase_active at 1.
  fold (count_active phs). rewrite Hph. lia.
Qed.

(** The count of a prefix is at most the count of a longer one. *)
Lemma count_active_take_mono phs n i :
  n ≤ i → count_active (take n phs) ≤ count_active (take i phs).
Proof.
  intros Hni. rewrite <- (Nat.min_l n i), <- take_take by done.
  apply sum_list_with_take_le.
Qed.

Section capacity.
Context `{Collaborators}.
Variable d : YoutubeDownloader.
Variable items : list YtplItem.

(** A started task has fewer than [concurrency] tasks in flight before
    it. *)
Definition fan_staggered (s : Fan) : Prop :=
  ∀ i ph, phases s !! i = Some ph → is_Queued ph = false →
          (Z.of_nat (count_active (take i (phases s))) < maxConcurrency (limit d))%Z.

(** A task in flight moves on, or returns. *)
Lemma staggered_set_phase s i ph ph' fs' :
  fan_staggered s → phases s !! i = Some ph → is_active ph = true →
  fan_staggered (set_phase i ph' fs' s).
Proof.
  intros Hs Hi Ha i0 ph0. simpl. intros Hi0 Hq0.
  pose proof (count_active_take_insert (phases s) i0 i ph ph' Hi) as Hle.
  unfold phase_active at 2 in Hle. rewrite Ha in Hle.
  assert (phase_active ph' ≤ 1) as Hle1
    by (unfold phase_active; destruct (is_active ph'); lia).
  specialize (Hle Hle1). destruct (decide (i = i0)) as [<-|Hne].
  - specialize (Hs i ph Hi (active_not_Queued _ Ha)). lia.
  - rewrite list_lookup_insert_ne in Hi0 by done.
    specialize (Hs i0 ph0 Hi0 Hq0). lia.
Qed.

Lemma staggered_resume j s :
  fan_sync items j s → maxConcurrency (lim s) = maxConcurrency (limit d) →
  fan_staggered s → fan_staggered (fan_resume d items s).
Proof.
  intros Hsync Hmax Hs.
  destruct (fan_resume_cases d items j s Hsync)
    as [->|(k & it & rest & Hit & Hk & _ & Hfree & Hqueued & ->)]; [done|].
  destruct Hsync as (_ & _ & Hcount & _).
  intros i0 ph0. simpl. intros Hi0 Hq0. destruct (decide (k = i0)) as [<-|Hne].
  - rewrite take_insert_ge by done.
    pose proof (sum_list_with_take_le phase_active (phases s) k) as Hle.
    fold (count_active (take k (phases s))) in Hle.
    fold (count_active (phases s)) in Hle. lia.
  - rewrite list_lookup_insert_ne in Hi0 by done.
    assert (i0 < k) as Hlt.
    { destruct (decide (k ≤ i0)) as [Hle|]; [|lia].
      apply (Hqueued i0 ph0 Hi0) in Hle. congruence. }
    rewrite take_insert_ge by lia. by apply (Hs i0 ph0).
Qed.

Lemma fan_submit_staggered j s :
  fan_sync items j s → j < length items →
  maxConcurrency (lim s) = maxConcurrency (limit d) →
  fan_staggered s → fan_staggered (fan_submit d items s j).
Proof.
  intros Hsync Hj Hmax Hs. rewrite fan_submit_resume.
  by apply (staggered_resume (S j)); [apply sync_enqueue| |].
Qed.

Lemma fan_step_staggered j i s s' :
  fan_sync items j s → maxConcurrency (lim s) = maxConcurrency (limit d) →
  fan_staggered s → fan_step d items i s = Some s' → fan_staggered s'.
Proof.
  intros Hsync Hmax Hs
    (it & ph & ph' & fs' & Hit & Hph & Hstep & ->)%fan_step_Some.
  destruct (task_step_active _ _ _ _ _ Hstep) as [Ha _].
  pose proof (staggered_set_phase s i ph ph' fs' Hs Hph Ha) as Hs'.
  destruct ph' as [|rest|e|r]; simpl; try done.
  rewrite fan_finish_resume. apply (staggered_resume j); [|done|].
  - by apply (sync_set_done items j s i ph r fs').
  - by apply (staggered_set_phase _ _ ph).
Qed.

(** ** The shape of a state

    What holds of the limiter and the phases whatever the file system is:
    they are in step, the limiter is within its bounds and leaves no slot
    idle, and the tasks are staggered. *)
Definition fan_shape (j : nat) (s : Fan) : Prop :=
  fan_sync items j s ∧ fan_lim_ok d s ∧ fan_staggered s.

Lemma fan_submit_shape j s :
  fan_shape j s → j < length items → fan_shape (S j) (fan_submit d items s j).
Proof.
  intros (Hsync & Hlim & Hs) Hj. split; [|split].
  - by apply fan_submit_sync.
  - by apply fan_submit_lim_ok.
  - apply (fan_submit_staggered j); [done..|apply Hlim|done].
Qed.

(** Handing over the next [n] items, from a state in which [j] have
    been. *)
Lemma fan_submit_upto_shape j n s :
  j + n ≤ length items → fan_shape j s →
  fan_shape (j + n) (foldl (fan_submit d items) s (seq j n)).
Proof.
  intros Hjn Hs. induction n as [|n IH]; [simpl; by rewrite Nat.add_0_r|].
  rewrite seq_S, foldl_app. simpl. replace (j + S n) with (S (j + n)) by lia.
  apply fan_submit_shape; [apply IH|]; lia.
Qed.

Lemma fan_step_shape j i s s' :
  fan_shape j s → fan_step d items i s = Some s' → fan_shape j s'.
Proof.
  intros (Hsync & Hlim & Hs) Hi. split; [|split].
  - by eapply fan_step_sync.
  - by eapply fan_step_lim_ok.
  - eapply fan_step_staggered; [done|apply Hlim|done..].
Qed.

(** In a state in shape at most [concurrency] tasks are in flight. *)
Lemma fan_shape_bounded j s :
  fan_shape j s →
  (Z.of_nat (count_active (phases s)) ≤ maxConcurrency (limit d))%Z.
Proof.
  intros ((_ & _ & Hcount & _) & (Hok & _ & Hmax) & _).
  unfold lim_ok in Hok. lia.
Qed.

Variable fs0 : FS.

(** Handing over the next [n] items, from a state in which [j] have
    been. *)
Lemma fan_submit_upto_staggered j n s :
  j + n ≤ length items →
  fan_sync items j s ∧ fan_lim_ok d s ∧ fan_destined d items fs0 s →
  fan_staggered s → fan_staggered (foldl (fan_submit d items) s (seq j n)).
Proof.
  intros Hjn Hinv Hs. induction n as [|n IH]; [done|].
  rewrite seq_S, foldl_app. simpl.
  destruct (fan_submit_upto d items fs0 j n s) as (Hsync & (_ & _ & Hmax) & _);
    [lia|done|].
  apply (fan_submit_staggered (j + n)); [done|lia|done|apply IH; lia].
Qed.

(** A step of the fan-out keeps the invariant and the stagger. *)
Lemma fan_step_inv_staggered i s s' :
  fan_inv d items fs0 s ∧ fan_staggered s → fan_step d items i s = Some s' →
  fan_inv d items fs0 s' ∧ fan_staggered s'.
Proof.
  intros [Hinv Hs] Hi. split; [by eapply fan_step_inv|].
  destruct Hinv as (Hsync & (_ & _ & Hmax) & _). by eapply fan_step_staggered.
Qed.

(** When the streams of the first [concurrency] items hang, their tasks
    hold every slot for ever: no other task is started. *)
Lemma hung_head_waits s i ph :
  fan_inv d items fs0 s → fan_staggered s →
  Forall (λ it, item_result d fs0 it = None)
    (take (Z.to_nat (maxConcurrency (limit d))) items) →
  phases s !! i = Some ph → Z.to_nat (maxConcurrency (limit d)) ≤ i →
  is_Queued ph = true.
Proof.
  intros Hinv Hs Hhang Hi Hge. destruct (is_Queued ph) eqn:Hq; [done|exfalso].
  pose proof (Hs i ph Hi Hq) as Hlt. pose proof (lookup_lt_Some _ _ _ Hi) as Hlen.
  pose proof (count_active_take_mono (phases s) _ i Hge) as Hmono.
  rewrite count_active_all, length_take in Hmono; [lia|].
  apply Forall_lookup. intros j phj [Hj Hjn]%lookup_take_Some.
  destruct (lookup_lt_is_Some_2 items j) as [it Hit];
    [destruct Hinv as ((<- & _) & _); lia|].
  assert (item_result d fs0 it = None) as Hnone.
  { apply (Forall_at Hhang j). by rewrite lookup_take_lt. }
  destruct phj as [|rest|e|r]; [|done|done|].
  - destruct Hinv as ((_ & _ & _ & k & _ & _ & Hqueued) & _).
    pose proof (proj1 (Hqueued j _ Hj) eq_refl).
    assert (k ≤ i) as Hki%(Hqueued i ph Hi) by lia. congruence.
  - rewrite (fan_inv_done d items fs0 s j it r Hinv Hit Hj) in Hnone. done.
Qed.

Hypothesis d_wf : downloader_wf d.

Lemma fan_init_staggered : fan_staggered (fan_init d items fs0).
Proof.
  apply (fan_submit_upto_staggered 0); [done|by apply fan_blank_inv|].
  by intros i ph [-> _]%lookup_replicate.
Qed.

Lemma fan_reach_staggered s : fan_reach d items fs0 s → fan_staggered s.
Proof.
  intros Hr.
  cut (fan_inv d items fs0 s ∧ fan_staggered s); [by intros [_ ?]|].
  apply (rtc_invariant (fan_rel d items)
           (λ s, fan_inv d items fs0 s ∧ fan_staggered s))
    with (s := fan_init d items fs0); [| |done].
  - intros s1 s2 Hinv [i Hi]. by eapply fan_step_inv_staggered.
  - split; [by apply fan_init_inv|apply fan_init_staggered].
Qed.

(** ** The theorems *)

(** C26: with a concurrency of one the run is serial: in every reachable
    state, when the download of an item has been started, the downloads of
    all the items before it have returned. *)
Theorem fan_serial s i j :
  maxConcurrency (limit d) = 1%Z → fan_reach d items fs0 s → j < i →
  started s i → returned s j.
Proof.
  intros Hone Hr Hji (ph_i & Hi & Hqi).
  destruct (lookup_lt_is_Some_2 (phases s) j) as [ph_j Hj];
    [apply lookup_lt_Some in Hi; lia|].
  exists ph_j. split; [done|].
  pose proof (fan_reach_staggered s Hr i ph_i Hi Hqi) as Hlt.
  apply (fan_reach_inv d items fs0 d_wf) in Hr
    as ((_ & _ & _ & k & _ & _ & Hqueued) & _).
  assert (is_active ph_j = false) as Ha.
  { assert (count_active (take i (phases s)) = 0) as Hz by lia.
    apply sum_list_with_0 in Hz. rewrite Forall_lookup in Hz.
    specialize (Hz j ph_j). rewrite lookup_take_lt in Hz by done.
    specialize (Hz Hj). unfold phase_active in Hz. by destruct (is_active ph_j). }
  assert (is_Queued ph_j = false) as Hq.
  { destruct (is_Queued ph_j) eqn:Hq; [|done].
    apply (Hqueued j ph_j Hj) in Hq.
    assert (k ≤ i) as Hki%(Hqueued i ph_i Hi) by lia. congruence. }
  by destruct ph_j.
Qed.

(** C27: with a concurrency of at least the number of items no download
    ever waits: in every reachable state every download has been
    started. *)
Theorem fan_no_wait s i :
  (Z.of_nat (length items) ≤ maxConcurrency (limit d))%Z →
  fan_reach d items fs0 s → i < length items → started s i.
Proof.
  intros Hmany Hr Hlt.
  apply (fan_reach_inv d items fs0 d_wf) in Hr
    as ((Hlen & _ & Hcount & k & _ & Hqueue & Hqueued) & (_ & He & Hmax) & _).
  destruct (lookup_lt_is_Some_2 (phases s) i) as [ph Hi]; [lia|].
  exists ph. split; [done|]. destruct (is_Queued ph) eqn:Hq; [exfalso|done].
  pose proof (proj1 (Hqueued i ph Hi) Hq) as Hk.
  assert (is_active ph = false) as Ha by (by destruct ph).
  pose proof (count_active_lt_length _ _ _ Hi Ha) as Hc.
  unfold lim_eager in He. rewrite Hqueue in He.
  destruct (length items - k) as [|m] eqn:Hm; [lia|].
  specialize (He ltac:(done)). lia.
Qed.

End capacity.

(** ** On the playlist of the demonstration *)

Module CapacityDemo.
Import Demo DemoDownloader FanoutDemo.

(** The downloader of the demonstration with room for [n] downloads. *)
Definition demo_with (n : Z) : YoutubeDownloader :=
  {| outputFolder := "out"; url := url demo;
     limit := {| maxConcurrency := n; activeCount := 0; queue := [] |} |}.

Lemma demo_with_wf n : (1 ≤ n)%Z → downloader_wf (demo_with n).
Proof.
  intros Hn. unfold downloader_wf, lim_ok, lim_idle. simpl.
  repeat split; (done || lia).
Qed.

(** One at a time: when [B] is being cleaned up, [A] has returned. *)
Lemma fan_serial_witness :
  returned (run_schedule (demo_with 1) its [0; 0; 0; 1; 1]
              (fan_init (demo_with 1) its fs_out)) 0.
Proof.
  apply (fan_serial (demo_with 1) its fs_out (demo_with_wf 1 ltac:(lia)) _ 1 0);
    [done|apply run_schedule_rtc|lia|].
  exists (Cleaning forbidden). vm_compute. done.
Defined.

(** With room for three, the third item does not wait. *)
Lemma fan_no_wait_witness : started (fan_init (demo_with 3) its fs_out) 2.
Proof.
  apply (fan_no_wait (demo_with 3) its fs_out (demo_with_wf 3 ltac:(lia)));
    [simpl; lia|apply rtc_refl|simpl; lia].
Defined.

End CapacityDemo.
