(* ===== verification/Paths.v ===== *)
(** * When the output paths of a playlist are distinct

    The file system at the end of a run is the one of the sequential run
    when no two items share an output path ([distinct_paths]).  The path of
    an item is made by the collaborators, from the slug of its title; this
    file says what it takes of them: that the slugs of the titles differ,
    and that [path.join] with the output folder keeps different names
    apart. *)

From S2P Require Import Prelude Js Types FileSystem Collab Limiter Downloader.
From S2P Require Import Single Fanout.

Open Scope string_scope.
Open Scope list_scope.
Open Scope nat_scope.

Section paths.
Context `{Collaborators}.
Variable d : YoutubeDownloader.
Variable items : list YtplItem.

(** The slug of the title of an item. *)
Definition item_slug (it : YtplItem) : string := createSlug (title it).

Lemma task_path_slug it :
  task_path d it = path_join (outputFolder d) (item_slug it +:+ DEFAULT_FORMAT).
Proof. reflexivity. Qed.

(** The path is an injective function of the slug when [path.join] is one
    of the name. *)
Lemma path_of_slug_inj :
  Inj (=) (=) (path_join (outputFolder d)) →
  Inj (=) (=) (λ slug, path_join (outputFolder d) (slug +:+ DEFAULT_FORMAT)).
Proof. intros Hj s1 s2 Heq%(inj _). by eapply string_app_inj_r. Qed.

(** The output paths of a playlist are distinct when the slugs of its
    titles are and [path.join] with the output folder keeps different names
    apart: the extension added to every slug is the same and identifies no
    two of them. *)
Lemma distinct_slugs_distinct_paths :
  Inj (=) (=) (path_join (outputFolder d)) →
  NoDup (item_slug <$> items) → distinct_paths d items.
Proof.
  intros Hj Hnd. unfold distinct_paths.
  change (NoDup (((λ slug, path_join (outputFolder d) (slug +:+ DEFAULT_FORMAT))
                    ∘ item_slug) <$> items)).
  rewrite list_fmap_compose.
  apply NoDup_fmap_2; [by apply path_of_slug_inj|done].
Qed.

End paths.

(** ** On the playlist of the demonstration *)

Module PathsDemo.
Import Demo DemoDownloader FanoutDemo.

Lemma distinct_slugs_distinct_paths_witness : distinct_paths demo its.
Proof.
  apply (distinct_slugs_distinct_paths demo its).
  - intros n1 n2 Heq. by apply (inj (String.app "out/")) in Heq.
  - unfold item_slug. apply (bool_decide_unpack _). vm_compute. reflexivity.
Defined.

End PathsDemo.
