(* ===== verification/Playlist.v ===== *)
(** * [downloadPlaylist]: the run of a playlist

    The public method of the class: it checks that the URL names a
    playlist, makes sure the output folder exists, prints the banner, lists
    the playlist, prints its title, downloads the items through the limiter
    and prints the report.  The world is the file system and the console;
    the interleaving of the downloads is a parameter (the schedule), and
    the theorems hold for every schedule. *)

From S2P Require Import Prelude Js Types FileSystem Collab Limiter Downloader.
From S2P Require Import Single Report Fanout Wellformed.

Open Scope string_scope.
Open Scope list_scope.
Open Scope nat_scope.
Open Scope eff_scope.

Section playlist.
Context `{Collaborators}.

Definition not_a_playlist : Thrown := mkError "The provided URL is not a playlist".

(** [`Youtube Downloader ${YoutubeDownloader.VERSION}`] *)
Definition banner : LogLine := Log ("Youtube Downloader " +:+ VERSION).

(** [console.log('Downloading playlist:', title)] *)
Definition playlist_line (title : string) : LogLine :=
  log2 "Downloading playlist:" title.

(** [await ytpl(playlistId)]: a rejection is thrown. *)
Definition await_ytpl (playlistId : string) : eff World Thrown YtplResult :=
  match ytpl playlistId with
  | inl e => eff_throw e
  | inr listed => eff_ret listed
  end.

(** The method past its guard, for the playlist id it has read. *)
Definition download_listed (d : YoutubeDownloader) (playlistId : string)
    (sched : list nat) : eff World Thrown unit :=
  on_fs (ensureOutputFolder d) ;;;
  print banner ;;;
  let! listed := await_ytpl playlistId in
  print (playlist_line (playlist_title listed)) ;;;
  let! results := on_fs (fan_out d (items listed) sched) in
  logResults results (declared <$> items listed).

(** [downloadPlaylist()]: [searchParams.get('list')] is [null] or a string,
    and the guard refuses [null] and the empty string. *)
Definition downloadPlaylist (d : YoutubeDownloader) (sched : list nat)
  : eff World Thrown unit :=
  let playlistId := searchParams_get "list" (searchParams (url d)) in
  if falsy_opt playlistId then eff_throw not_a_playlist
  else download_listed d (default "" playlistId) sched.

(** The world after the folder has been ensured and the two lines printed. *)
Definition announced (d : YoutubeDownloader) (title : string) (w : World) : World :=
  {| fs := (ensureOutputFolder d (fs w)).1;
     console := console w ++ [banner; playlist_line title] |}.

(** The run that downloads the items one after the other. *)
Definition sequential_results (d : YoutubeDownloader) (listed : YtplResult)
    (w : World) : completion Thrown (list DownloadResult) :=
  (download_each d (items listed) (ensureOutputFolder d (fs w)).1).2.

(** ** Unfolding the method *)

Lemma downloadPlaylist_guard d sched w playlistId :
  searchParams_get "list" (searchParams (url d)) = Some playlistId →
  playlistId ≠ "" →
  downloadPlaylist d sched w = download_listed d playlistId sched w.
Proof.
  intros Hid Hne. unfold downloadPlaylist. rewrite Hid. simpl.
  by rewrite (proj2 (falsy_false playlistId)).
Qed.

Lemma download_listed_rejected d playlistId sched w e :
  ytpl playlistId = inl e →
  download_listed d playlistId sched w =
  ({| fs := (ensureOutputFolder d (fs w)).1; console := console w ++ [banner] |},
   Throw e).
Proof.
  intros Hy. unfold download_listed, eff_bind, on_fs, await_ytpl.
  pose proof (ensureOutputFolder_completion d (fs w)) as Hc.
  destruct (ensureOutputFolder d (fs w)) as [fs1 c]. simpl in *. subst c.
  simpl. by rewrite Hy.
Qed.

Lemma download_listed_eq d playlistId sched w listed :
  ytpl playlistId = inr listed →
  download_listed d playlistId sched w =
  eff_bind (on_fs (fan_out d (items listed) sched))
    (λ results, logResults results (declared <$> items listed))
    (announced d (playlist_title listed) w).
Proof.
  intros Hy. unfold download_listed, announced, await_ytpl.
  unfold eff_bind at 1 2 3 4, on_fs at 1.
  pose proof (ensureOutputFolder_completion d (fs w)) as Hc.
  destruct (ensureOutputFolder d (fs w)) as [fs1 c]. simpl in *. subst c.
  simpl. rewrite Hy. simpl. by rewrite <- app_assoc.
Qed.

(** The fan-out of the method, in the world the announcement left. *)
Lemma fan_out_announced d listed sched w :
  downloader_wf d →
  on_fs (fan_out d (items listed) sched) (announced d (playlist_title listed) w) =
  ({| fs := (fan_out d (items listed) sched (ensureOutputFolder d (fs w)).1).1;
      console := console w ++ [banner; playlist_line (playlist_title listed)] |},
   sequential_results d listed w).
Proof.
  intros Hwf. unfold on_fs, sequential_results, announced. cbn [fs console].
  rewrite (download_each_completion d _ (items listed) _ eq_refl).
  by rewrite (fan_out_eq d (items listed) _ Hwf sched).
Qed.

Lemma all_settle_results d its fs0 rs :
  (download_each d its fs0).2 = Return rs →
  all_settle d its fs0 ∧ length rs = length its.
Proof.
  rewrite (download_each_completion d fs0 its fs0 eq_refl).
  destruct (mapM _ its) as [rs'|] eqn:Hm; [|done]. intros [= ->]. split.
  - apply mapM_is_Some. by exists rs.
  - apply mapM_Some in Hm. symmetry. by eapply Forall2_length.
Qed.

(** The method when every download returns: the report is printed after
    the two lines of the announcement. *)
Lemma download_listed_report d playlistId sched w listed rs :
  downloader_wf d → ytpl playlistId = inr listed →
  sequential_results d listed w = Return rs →
  download_listed d playlistId sched w =
  ({| fs := (fan_out d (items listed) sched (ensureOutputFolder d (fs w)).1).1;
      console := console w ++ banner :: playlist_line (playlist_title listed)
                   :: render (run_report (declared <$> items listed) rs) |},
   Return tt).
Proof.
  intros Hwf Hy Hrs. rewrite (download_listed_eq _ _ _ _ listed) by done.
  unfold eff_bind. rewrite fan_out_announced, Hrs by done.
  apply all_settle_results in Hrs as [_ Hlen].
  rewrite logResults_lines by (by rewrite length_fmap, Hlen).
  rewrite <- render_run_report. unfold print_all. simpl.
  by rewrite <- app_assoc.
Qed.

(** When the output folder is no directory, every download fails on
    opening its file. *)
Lemma download_each_no_folder d its fs0 :
  outputFolder d ∉ dirs fs0 →
  (download_each d its fs0).2 =
  Return ((λ it, result_failed (error_message (ENOENT (task_path d it)))) <$> its).
Proof.
  intros Hd. rewrite (download_each_completion d fs0 its fs0 eq_refl).
  rewrite (proj2 (mapM_Some _ its
    ((λ it, result_failed (error_message (ENOENT (task_path d it)))) <$> its)));
    [done|].
  apply Forall2_fmap_r, Forall_Forall2_diag, Forall_forall. intros it _.
  by apply expected_result_no_folder.
Qed.

Lemma successCount_failed {A} (f : A → string) (l : list A) :
  successCount ((λ a, result_failed (f a)) <$> l) = 0.
Proof.
  unfold successCount. rewrite (filter_bool_never success); [done|].
  by apply Forall_fmap, Forall_true.
Qed.

(** A path that is a file is no directory, and [ensureOutputFolder] leaves
    it as it is. *)
Lemma ensureOutputFolder_on_file d fs0 :
  fs_wf fs0 → is_file (outputFolder d) fs0 = true →
  ensureOutputFolder d fs0 = (fs0, Return tt) ∧ outputFolder d ∉ dirs fs0.
Proof.
  intros Hwf Hf. split.
  - apply ensureOutputFolder_exists, existsSync_true. right. by apply is_file_true.
  - intros Hd%Hwf. apply is_file_true in Hf as [? ?]. congruence.
Qed.

(** The method leaves the file system well formed, however it ends. *)
Lemma downloadPlaylist_wf d sched w :
  downloader_wf d → fs_wf (fs w) → fs_wf (fs (downloadPlaylist d sched w).1).
Proof.
  intros Hd Hw. unfold downloadPlaylist. case_match; [done|].
  pose proof (ensureOutputFolder_wf d (fs w) Hw) as Hw1.
  destruct (ytpl (default "" (searchParams_get "list" (searchParams (url d)))))
    as [e|listed] eqn:Hy.
  - by rewrite (download_listed_rejected _ _ _ _ e Hy).
  - rewrite (download_listed_eq _ _ _ _ listed Hy).
    pose proof (fan_out_wf d (items listed) _ Hd Hw1 sched) as Hw2.
    unfold eff_bind, on_fs, announced. cbn [fs console].
    destruct (fan_out _ _ _ _) as [fs2 [rs| |]]; cbn [fst snd fs] in *;
      [|done..].
    by rewrite logResults_fs.
Qed.

(** ** The theorems of the method *)

(** C28: a URL without a [list] parameter, or with an empty one, is refused
    before anything is done: [downloadPlaylist] throws "The provided URL is
    not a playlist" and leaves the file system and the console as they
    were. *)
Theorem downloadPlaylist_not_a_playlist d sched w :
  searchParams_get "list" (searchParams (url d)) = None ∨
  searchParams_get "list" (searchParams (url d)) = Some "" →
  downloadPlaylist d sched w = (w, Throw not_a_playlist).
Proof.
  intros Hid%falsy_opt_true. unfold downloadPlaylist. by rewrite Hid.
Qed.

(** C29: when the playlist cannot be listed, [downloadPlaylist] throws the
    rejection of the lister, after the output folder has been ensured and
    the banner printed, and before any download. *)
Theorem downloadPlaylist_listing_fails d sched w playlistId e :
  searchParams_get "list" (searchParams (url d)) = Some playlistId →
  playlistId ≠ "" → ytpl playlistId = inl e →
  downloadPlaylist d sched w =
  ({| fs := (ensureOutputFolder d (fs w)).1; console := console w ++ [banner] |},
   Throw e).
Proof.
  intros Hid Hne Hy. rewrite (downloadPlaylist_guard _ _ _ playlistId) by done.
  by apply download_listed_rejected.
Qed.

Section listed.
Variable d : YoutubeDownloader.
Variable sched : list nat.
Variable w : World.
Variable playlistId : string.
Variable listed : YtplResult.
Hypothesis d_wf : downloader_wf d.
Hypothesis url_list :
  searchParams_get "list" (searchParams (url d)) = Some playlistId.
Hypothesis id_nonempty : playlistId ≠ "".
Hypothesis ytpl_lists : ytpl playlistId = inr listed.

(** C4: a run of a playlist whose downloads all return prints, under every
    schedule, the banner, the title of the playlist and the report of the
    run: the number of successes out of the number of items, and the
    failures with title and message in playlist order; and it returns
    although some downloads failed. *)
Theorem downloadPlaylist_reports rs :
  sequential_results d listed w = Return rs →
  (downloadPlaylist d sched w).2 = Return tt ∧
  console (downloadPlaylist d sched w).1 =
  console w ++ banner :: playlist_line (playlist_title listed)
    :: render (run_report (declared <$> items listed) rs).
Proof.
  intros Hrs. rewrite (downloadPlaylist_guard _ _ _ playlistId) by done.
  by rewrite (download_listed_report _ _ _ _ listed rs).
Qed.

(** When moreover no two items share an output path, the run leaves,
    under every schedule, the file system that downloading the items one
    after the other leaves. *)
Lemma downloadPlaylist_files rs :
  distinct_paths d (items listed) →
  sequential_results d listed w = Return rs →
  fs (downloadPlaylist d sched w).1 =
  (download_each d (items listed) (ensureOutputFolder d (fs w)).1).1.
Proof.
  intros Hnd Hrs. rewrite (downloadPlaylist_guard _ _ _ playlistId) by done.
  rewrite (download_listed_report _ _ _ _ listed rs) by done. cbn [fst fs].
  rewrite fan_out_eq by done. cbn [fst]. apply fan_final_fs; [done..|].
  by apply all_settle_results in Hrs as [? _].
Qed.

(** A download that never settles keeps [downloadPlaylist] from returning:
    the announcement is printed and no report ever is. *)
Lemma downloadPlaylist_hangs :
  sequential_results d listed w = Pending →
  (downloadPlaylist d sched w).2 = Pending ∧
  console (downloadPlaylist d sched w).1 =
  console w ++ [banner; playlist_line (playlist_title listed)].
Proof.
  intros Hp. rewrite (downloadPlaylist_guard _ _ _ playlistId) by done.
  rewrite (download_listed_eq _ _ _ _ listed) by done.
  unfold eff_bind. by rewrite fan_out_announced, Hp by done.
Qed.

(** The empty playlist: nothing is downloaded, and the report counts no
    success out of no item. *)
Lemma downloadPlaylist_empty :
  items listed = [] →
  downloadPlaylist d sched w =
  ({| fs := (ensureOutputFolder d (fs w)).1;
      console := console w ++ [banner; playlist_line (playlist_title listed);
                               summary_line 0 0] |},
   Return tt).
Proof.
  intros He. rewrite (downloadPlaylist_guard _ _ _ playlistId) by done.
  rewrite (download_listed_report _ _ _ _ listed []);
    [|done..|unfold sequential_results; by rewrite He].
  rewrite He. do 2 f_equal.
  rewrite fan_out_eq by done. cbn [fst].
  rewrite fan_final_fs; [done|done|apply NoDup_nil_2|apply Forall_nil_2].
Qed.

(** When every download succeeds the report is its first line: as many
    successes as items, and no list of failures. *)
Lemma downloadPlaylist_all_succeed rs :
  sequential_results d listed w = Return rs →
  Forall (λ r, success r = true) rs →
  (downloadPlaylist d sched w).2 = Return tt ∧
  console (downloadPlaylist d sched w).1 =
  console w ++ [banner; playlist_line (playlist_title listed);
                summary_line (length (items listed)) (length (items listed))].
Proof.
  intros Hrs Hall. rewrite (downloadPlaylist_guard _ _ _ playlistId) by done.
  rewrite (download_listed_eq _ _ _ _ listed) by done.
  unfold eff_bind. rewrite fan_out_announced, Hrs by done.
  rewrite logResults_all_succeeded by done.
  apply all_settle_results in Hrs as [_ Hlen].
  rewrite length_fmap, Hlen. unfold print. simpl. by rewrite <- app_assoc.
Qed.

(** C37: when the output folder is an existing regular file, the method
    does not notice: [existsSync] is satisfied, every download fails on
    opening its file, and the run returns with a report of no success. *)
Theorem downloadPlaylist_folder_is_file :
  fs_wf (fs w) → is_file (outputFolder d) (fs w) = true →
  (downloadPlaylist d sched w).2 = Return tt ∧
  summary_line 0 (length (items listed)) ∈ console (downloadPlaylist d sched w).1.
Proof.
  intros Hwf Hf.
  destruct (ensureOutputFolder_on_file d (fs w) Hwf Hf) as [He Hd].
  rewrite (downloadPlaylist_guard _ _ _ playlistId) by done.
  rewrite (download_listed_report _ _ _ _ listed
    ((λ it, result_failed (error_message (ENOENT (task_path d it)))) <$> items listed));
    try done.
  - split; [done|]. cbn [fst console].
    rewrite render_run_report, length_fmap.
    rewrite (successCount_failed (λ it, error_message (ENOENT (task_path d it)))).
    set_solver.
  - unfold sequential_results. rewrite He. by apply download_each_no_folder.
Qed.

End listed.


End playlist.

(** ** The method on the playlists of the demonstration *)

Module PlaylistDemo.
Import Demo DemoDownloader FanoutDemo.

Definition mix : YtplResult := {| items := its; playlist_title := "Mix" |}.

Definition stalled : YtplResult :=
  {| items := [item "A"; item "H"; item "C"]; playlist_title := "Stalled" |}.

(** Downloaders for the URL of a video, of a playlist that is not there, and
    of a playlist with a stream that hangs. *)
Definition with_params (params : list (string * string)) : YoutubeDownloader :=
  {| outputFolder := "out"; url := {| href := playlist_url; searchParams := params |};
     limit := limit demo |}.

Definition demo_video : YoutubeDownloader := with_params [("v", "A")].
Definition demo_gone : YoutubeDownloader := with_params [("list", "PL0")].
Definition demo_stalled : YoutubeDownloader := with_params [("list", "PL2")].

(** A world in which the output folder is a regular file. *)
Definition world_file : World :=
  {| fs := {| dirs := ∅; files := {["out" := ["not a folder"]]} |}; console := [] |}.

Lemma with_params_wf params : downloader_wf (with_params params).
Proof. apply demo_wf. Qed.

Lemma downloadPlaylist_not_a_playlist_witness :
  downloadPlaylist demo_video [] world0 = (world0, Throw not_a_playlist).
Proof. apply (downloadPlaylist_not_a_playlist demo_video [] world0). by left. Defined.

Lemma downloadPlaylist_listing_fails_witness :
  downloadPlaylist demo_gone [] world0 =
  ({| fs := (ensureOutputFolder demo_gone fs_empty).1; console := [banner] |},
   Throw (mkError "Unknown Playlist")).
Proof.
  apply (downloadPlaylist_listing_fails demo_gone [] world0 "PL0"); done.
Defined.

Lemma downloadPlaylist_reports_witness :
  (downloadPlaylist demo [1; 0; 1] world0).2 = Return tt ∧
  console (downloadPlaylist demo [1; 0; 1] world0).1 =
  [Log "Youtube Downloader 1.0.0"; Log "Downloading playlist: Mix";
   Log "Downloaded 2/3 musics successfully"; failures_header;
   LogError "- Song B: Status code: 403"].
Proof.
  exact (downloadPlaylist_reports demo [1; 0; 1] world0 "PL1" mix demo_wf
           eq_refl ltac:(done) eq_refl
           [result_ok; result_failed "Status code: 403"; result_ok]
           ltac:(vm_compute; reflexivity)).
Defined.

Lemma downloadPlaylist_files_witness :
  fs (downloadPlaylist demo [1; 0; 1] world0).1 =
  (download_each demo its (ensureOutputFolder demo fs_empty).1).1.
Proof.
  apply (downloadPlaylist_files demo [1; 0; 1] world0 "PL1" mix demo_wf
           eq_refl ltac:(done) eq_refl
           [result_ok; result_failed "Status code: 403"; result_ok] its_distinct).
  vm_compute. reflexivity.
Defined.

Lemma downloadPlaylist_hangs_witness :
  (downloadPlaylist demo_stalled [] world0).2 = Pending ∧
  console (downloadPlaylist demo_stalled [] world0).1 =
  [banner; playlist_line "Stalled"].
Proof.
  apply (downloadPlaylist_hangs demo_stalled [] world0 "PL2" stalled
           (with_params_wf _) eq_refl ltac:(done) eq_refl).
  vm_compute. reflexivity.
Defined.

Lemma downloadPlaylist_folder_is_file_witness :
  (downloadPlaylist demo [] world_file).2 = Return tt ∧
  summary_line 0 3 ∈ console (downloadPlaylist demo [] world_file).1.
Proof.
  apply (downloadPlaylist_folder_is_file demo [] world_file "PL1" mix demo_wf
           eq_refl ltac:(done) eq_refl); [|vm_compute; reflexivity].
  intros p Hp. by apply elem_of_empty in Hp.
Defined.


End PlaylistDemo.
