(* ===== verification/Join.v ===== *)
(** * Handing more items to a limiter in use

    The limiter is a field of the object ([this.limit]), so every call of
    [downloadPlaylist] on one downloader hands its items to the same
    limiter.  When a call reaches its fan-out while downloads of earlier
    calls are in flight, its items wait behind theirs.

    The state is the one of the fan-out ([Fan]) over the items handed over
    so far; [fan_join] is [items.map(item => this.limit(...))] on that
    state, for the items of one more call.  This file shows that it keeps
    what the fan-out keeps: the shape of the state ([fan_shape]), the
    results the tasks are bound for ([fan_destined]) and well-formedness
    ([fan_wf]). *)

From S2P Require Import Prelude Js Types FileSystem Collab Limiter Downloader.
From S2P Require Import Single Fanout Wellformed Bounds Capacity.

Open Scope string_scope.
Open Scope list_scope.
Open Scope nat_scope.

Section join.
Context `{Collaborators}.
Variable d : YoutubeDownloader.
Variables handed new : list YtplItem.

(** The tasks of the new items, before they are handed over. *)
Definition fan_extend (s : Fan) : Fan :=
  {| lim := lim s;
     phases := phases s ++ replicate (length new) Queued;
     ffs := ffs s |}.

(** [items.map(item => this.limit(...))] for the new items, on the limiter
    as the earlier calls have left it. *)
Definition fan_join (s : Fan) : Fan :=
  foldl (fan_submit d (handed ++ new)) (fan_extend s)
    (seq (length handed) (length new)).

Lemma count_active_extend phs n :
  count_active (phs ++ replicate n Queued) = count_active phs.
Proof.
  unfold count_active. rewrite sum_list_with_app.
  fold (count_active (replicate n Queued)). rewrite count_active_Queued. lia.
Qed.

(** A phase of the extended state is a phase of an earlier task, or waits
    behind them. *)
Lemma fan_extend_lookup s i ph :
  phases (fan_extend s) !! i = Some ph →
  phases s !! i = Some ph ∨ (length (phases s) ≤ i ∧ ph = Queued).
Proof.
  simpl. intros [?|[? [-> _]%lookup_replicate]]%lookup_app_Some; auto.
Qed.

Lemma fan_extend_sync s :
  fan_sync handed (length handed) s →
  fan_sync (handed ++ new) (length handed) (fan_extend s).
Proof.
  intros (Hlen & _ & Hcount & k & Hk & Hq & Hqueued).
  apply (fan_sync_intro _ _ _ k); simpl; try done.
  - rewrite !length_app, length_replicate. lia.
  - rewrite length_app. lia.
  - by rewrite count_active_extend.
  - intros i ph [Hph|[Hi ->]]%fan_extend_lookup; [by apply Hqueued|].
    split; [lia|done].
Qed.

Lemma fan_extend_staggered s : fan_staggered d s → fan_staggered d (fan_extend s).
Proof.
  intros Hs i ph [Hph|[_ ->]]%fan_extend_lookup Hq; [|done]. simpl.
  rewrite take_app_le by (apply Nat.lt_le_incl; by eapply lookup_lt_Some).
  by apply (Hs i ph).
Qed.

(** The new items are handed over in the shape the earlier calls left. *)
Lemma fan_join_shape s :
  fan_shape d handed (length handed) s →
  fan_shape d (handed ++ new) (length (handed ++ new)) (fan_join s).
Proof.
  intros (Hsync & Hlim & Hs). rewrite length_app.
  apply fan_submit_upto_shape; [by rewrite length_app|].
  split; [by apply fan_extend_sync|split; [done|by apply fan_extend_staggered]].
Qed.

Lemma fan_extend_destined fs0 s :
  length (phases s) = length handed →
  fan_destined d handed fs0 s →
  fan_destined d (handed ++ new) fs0 (fan_extend s).
Proof.
  intros Hlen [Hd Hdest]. split; [done|].
  intros i it ph Hit [Hph|[_ ->]]%fan_extend_lookup; [|done].
  apply (Hdest i it ph); [|done]. rewrite <- Hit. symmetry.
  apply lookup_app_l. rewrite <- Hlen. by eapply lookup_lt_Some.
Qed.

(** The tasks stay bound for the results of their items. *)
Lemma fan_join_destined fs0 s :
  length (phases s) = length handed →
  fan_destined d handed fs0 s →
  fan_destined d (handed ++ new) fs0 (fan_join s).
Proof.
  intros Hlen Hd. apply fan_submits_destined. by apply fan_extend_destined.
Qed.

Lemma fan_join_inv fs0 s :
  fan_inv d handed fs0 s → fan_staggered d s →
  fan_inv d (handed ++ new) fs0 (fan_join s) ∧ fan_staggered d (fan_join s).
Proof.
  intros (Hsync & Hlim & Hdest) Hs.
  destruct (fan_join_shape s) as (Hsync' & Hlim' & Hs'); [done|].
  split; [|done]. split; [done|split; [done|]].
  apply fan_join_destined; [apply Hsync|done].
Qed.

(** The tasks of the new items cost what their streams are long. *)
Lemma fan_extend_cost s :
  length (phases s) = length handed →
  fan_cost (handed ++ new) (fan_extend s) ≤ fan_cost handed s + run_bound new.
Proof.
  intros Hlen. unfold fan_cost. simpl. rewrite imap_app, sum_list_with_app.
  apply Nat.add_le_mono.
  - apply Nat.eq_le_incl, sum_list_imap_ext. intros i ph Hph.
    unfold task_cost. by rewrite lookup_app_l by (rewrite <- Hlen; by eapply lookup_lt_Some).
  - apply sum_list_imap_le; [apply length_replicate|].
    intros i ph it [-> _]%lookup_replicate Hit. unfold task_cost. simpl.
    by rewrite lookup_app_r, Hlen, Nat.add_comm, Nat.add_sub, Hit by lia.
Qed.

Lemma fan_join_cost s :
  fan_sync handed (length handed) s ∧ fan_lim_ok d s →
  fan_cost (handed ++ new) (fan_join s) ≤ fan_cost handed s + run_bound new.
Proof.
  intros [Hsync Hlim]. etrans; [|apply fan_extend_cost, Hsync].
  apply fan_submit_upto_cost; [by rewrite length_app|].
  split; [by apply fan_extend_sync|done].
Qed.

(** *** Well-formedness *)

Lemma fan_extend_wf s : fan_wf handed s → fan_wf (handed ++ new) (fan_extend s).
Proof.
  intros [Hlen Hfs Hph Hq]. split; simpl; [|done| |].
  - by rewrite !length_app, length_replicate, Hlen.
  - apply Forall_app. split; [done|]. by apply Forall_replicate.
  - eapply Forall_impl; [done|]. intros i Hi. simpl in *. rewrite length_app. lia.
Qed.

Lemma fan_join_wf s : fan_wf handed s → fan_wf (handed ++ new) (fan_join s).
Proof.
  intros Hs. unfold fan_join.
  assert (∀ n, n ≤ length new →
    fan_wf (handed ++ new)
      (foldl (fan_submit d (handed ++ new)) (fan_extend s) (seq (length handed) n)))
    as Hn; [|by apply Hn].
  induction n as [|n IH]; intros Hle; [by apply fan_extend_wf|].
  rewrite seq_S, foldl_app. simpl.
  apply fan_submit_wf; [apply IH; lia|]. rewrite length_app. lia.
Qed.

End join.

(** The first call hands its items to the limiter of the constructor: the
    fan-out of [Fanout]. *)
Lemma fan_join_blank `{Collaborators} d new fs :
  fan_join d [] new {| lim := limit d; phases := []; ffs := fs |}
  = fan_init d new fs.
Proof. reflexivity. Qed.
