(* ===== verification/Calls.v ===== *)
(** * The calls in progress on one downloader

    [downloadPlaylist] is an [async] method: a call runs up to an [await],
    is suspended there, and goes on when the promise it awaits has
    settled.  Other calls on the same object may start and go on in
    between.  They share the limiter of the object ([this.limit]), the file
    system and the console.

    A call ([Call]) is where it is suspended: at
    [await this.ensureOutputFolder()], at [await ytpl(playlistId)], at
    [await Promise.all(...)], or nowhere any more.  The system ([Sys]) is
    the fan-out over all the items handed to the limiter so far, the
    console, and the calls made.  An event ([Event]) is a new call
    ([Invoke]), the resumption of a call ([Resume]), or a step of a
    download ([Step]); [sys_step] is the program from one suspension to the
    next.  The theorems hold for every sequence of events. *)

From S2P Require Import Prelude Js Types FileSystem Collab Limiter Downloader.
From S2P Require Import Single Report Fanout Bounds Capacity Join Playlist.

Open Scope string_scope.
Open Scope list_scope.
Open Scope nat_scope.
Open Scope eff_scope.

(** Where a call is suspended. *)
Inductive Call : Type :=
  | AwaitFolder (playlistId : string) (missing : bool)
  | AwaitListing (playlistId : string)
  | AwaitAll (listed : YtplResult) (first : nat)
  | Finished (c : completion Thrown unit).

Inductive Event : Type :=
  | Invoke
  | Resume (k : nat)
  | Step (i : nat).

#[export] Instance Event_eq_dec : EqDecision Event.
Proof. solve_decision. Defined.

Record Sys : Type := mkSys {
  fan : Fan;
  handed : list YtplItem;
  printed : Console;
  calls : list Call;
}.

(** The stage of a call in the pipeline of the method. *)
Definition call_rank (c : Call) : nat :=
  match c with
  | AwaitFolder _ _ => 0
  | AwaitListing _ => 1
  | AwaitAll _ _ => 2
  | Finished _ => 3
  end.

(** What the caller has of a call: the promise the method returned. *)
Definition call_completion (c : option Call) : completion Thrown unit :=
  match c with
  | Some (Finished r) => r
  | _ => Pending
  end.

Definition sys_world (s : Sys) : World :=
  {| fs := ffs (fan s); console := printed s |}.

Definition with_world (w : World) (s : Sys) : Sys :=
  {| fan := {| lim := lim (fan s); phases := phases (fan s); ffs := fs w |};
     handed := handed s; printed := console w; calls := calls s |}.

Definition with_fan (f : Fan) (s : Sys) : Sys :=
  {| fan := f; handed := handed s; printed := printed s; calls := calls s |}.

Definition with_call (k : nat) (c : Call) (s : Sys) : Sys :=
  {| fan := fan s; handed := handed s; printed := printed s;
     calls := <[k := c]> (calls s) |}.

(** The tasks of the [n] items handed over from position [first] on. *)
Definition call_tasks (first n : nat) (f : Fan) : Fan :=
  {| lim := lim f; phases := take n (drop first (phases f)); ffs := ffs f |}.

Definition is_Invoke (e : Event) : bool :=
  match e with Invoke => true | _ => false end.

(** The calls made by the events of a list. *)
Definition invocations (events : list Event) : nat :=
  length (filter (λ e, is_Invoke e = true) events).

(** The tasks of a call that awaits [Promise.all] are those of its items. *)
Definition call_wf (its : list YtplItem) (c : Call) : Prop :=
  match c with
  | AwaitAll listed first =>
      take (length (items listed)) (drop first its) = items listed
  | _ => True
  end.

Lemma World_eta (w : World) : {| fs := fs w; console := console w |} = w.
Proof. by destruct w. Qed.

Section calls.
Context `{Collaborators}.
Variable d : YoutubeDownloader.

(** No call yet: the limiter of the constructor, no task. *)
Definition sys_init (w : World) : Sys :=
  {| fan := {| lim := limit d; phases := []; ffs := fs w |};
     handed := []; printed := console w; calls := [] |}.

(** [downloadPlaylist()] up to its first [await]: the guard, and
    [existsSync] of [ensureOutputFolder]. *)
Definition invoke (s : Sys) : Sys :=
  let playlistId := searchParams_get "list" (searchParams (url d)) in
  let c := if falsy_opt playlistId then Finished (Throw not_a_playlist)
           else AwaitFolder (default "" playlistId)
                  (negb (existsSync (outputFolder d) (ffs (fan s)))) in
  {| fan := fan s; handed := handed s; printed := printed s;
     calls := calls s ++ [c] |}.

(** A call goes on from where it is suspended, up to its next [await] or
    its end. *)
Definition resume (c : Call) (s : Sys) : option (Call * Sys) :=
  match c with
  | AwaitFolder playlistId missing =>
      let made := if missing then mkdir_recursive (outputFolder d) else eff_ret tt in
      match (on_fs made ;;; print banner) (sys_world s) with
      | (w, Return _) => Some (AwaitListing playlistId, with_world w s)
      | (w, Throw e) => Some (Finished (Throw e), with_world w s)
      | (_, Pending) => None
      end
  | AwaitListing playlistId =>
      match ytpl playlistId with
      | inl e => Some (Finished (Throw e), s)
      | inr listed =>
          Some (AwaitAll listed (length (handed s)),
                {| fan := fan_join d (handed s) (items listed) (fan s);
                   handed := handed s ++ items listed;
                   printed := printed s ++ [playlist_line (playlist_title listed)];
                   calls := calls s |})
      end
  | AwaitAll listed first =>
      results ← fan_results (call_tasks first (length (items listed)) (fan s));
      let (w, r) := logResults results (declared <$> items listed) (sys_world s) in
      Some (Finished r, with_world w s)
  | Finished _ => None
  end.

Definition sys_step (e : Event) (s : Sys) : option Sys :=
  match e with
  | Invoke => Some (invoke s)
  | Resume k =>
      c ← calls s !! k;
      '(c', s') ← resume c s;
      Some (with_call k c' s')
  | Step i =>
      f ← fan_step d (handed s) i (fan s);
      Some (with_fan f s)
  end.

Definition sys_rel (s s' : Sys) : Prop := ∃ e, sys_step e s = Some s'.

Definition sys_reach (w : World) (s : Sys) : Prop := rtc sys_rel (sys_init w) s.

(** The events of a list, one after the other; an event that is not
    possible is skipped. *)
Definition sys_run (events : list Event) (s : Sys) : Sys :=
  foldl (λ s e, default s (sys_step e s)) s events.

(** The events of a list, each of which must be possible. *)
Fixpoint sys_exec (events : list Event) (s : Sys) : option Sys :=
  match events with
  | [] => Some s
  | e :: rest => s' ← sys_step e s; sys_exec rest s'
  end.

(** What the downloads of a playlist take at most, from its listing. *)
Definition listing_cost (playlistId : string) : nat :=
  match ytpl playlistId with
  | inl _ => 0
  | inr listed => run_bound (items listed)
  end.

(** The events a call has ahead, at most: its resumptions and the steps of
    its downloads that are not handed over yet. *)
Definition call_cost (c : Call) : nat :=
  match c with
  | AwaitFolder playlistId _ => 3 + listing_cost playlistId
  | AwaitListing playlistId => 2 + listing_cost playlistId
  | AwaitAll _ _ => 1
  | Finished _ => 0
  end.

Definition invoke_cost : nat :=
  3 + listing_cost (default "" (searchParams_get "list" (searchParams (url d)))).

(** The events the system has ahead, at most, if no call is made. *)
Definition sys_cost (s : Sys) : nat :=
  fan_cost (handed s) (fan s) + sum_list_with call_cost (calls s).

(** The downloads in flight and waiting are brought to their end. *)
Definition sys_drain (s : Sys) : Sys :=
  with_fan (run_all d (handed s) (fan_fuel d (handed s) (fan s)) (fan s)) s.

(** ** Runs *)

Lemma sys_run_rtc events s : rtc sys_rel s (sys_run events s).
Proof.
  revert s. induction events as [|e events IH]; intros s; [done|]. simpl.
  destruct (sys_step e s) as [s'|] eqn:He; simpl; [|apply IH].
  eapply rtc_l; [by exists e|apply IH].
Qed.

Lemma sys_run_app events1 events2 s :
  sys_run (events1 ++ events2) s = sys_run events2 (sys_run events1 s).
Proof. apply foldl_app. Qed.

(** The steps of the downloads are steps of the system. *)
Lemma sys_tasks_rtc s f :
  rtc (fan_rel d (handed s)) (fan s) f → rtc sys_rel s (with_fan f s).
Proof.
  destruct s as [f0 its out cs]. simpl.
  induction 1 as [|f1 f2 f3 [i Hi] _ IH]; [done|].
  eapply rtc_l; [|apply IH]. exists (Step i). simpl. by rewrite Hi.
Qed.

Lemma sys_drain_rtc s : rtc sys_rel s (sys_drain s).
Proof. apply sys_tasks_rtc, run_all_rtc. Qed.

(** The steps of a schedule. *)
Lemma sys_run_schedule sched s :
  sys_run (Step <$> sched) s = with_fan (run_schedule d (handed s) sched (fan s)) s.
Proof.
  revert s. induction sched as [|i sched IH]; intros s; [by destruct s|].
  simpl. rewrite IH. unfold run_schedule. simpl.
  by destruct (fan_step d (handed s) i (fan s)).
Qed.

(** ** One call, from its start to its end *)

(** The events of one call on a fresh downloader: the call, its two
    resumptions, the steps of its downloads in the order of the schedule and
    then to their end, and its last resumption. *)
Definition one_call (sched : list nat) (w : World) : Sys :=
  sys_run [Resume 0]
    (sys_drain (sys_run ([Invoke; Resume 0; Resume 0] ++ (Step <$> sched))
                  (sys_init w))).

Lemma sys_step_resume k c s c' s' :
  calls s !! k = Some c → resume c s = Some (c', s') →
  sys_step (Resume k) s = Some (with_call k c' s').
Proof. intros Hk Hr. unfold sys_step. rewrite Hk. simpl. by rewrite Hr. Qed.

Lemma sys_step_finished k r s :
  calls s !! k = Some (Finished r) → sys_step (Resume k) s = None.
Proof. intros Hk. unfold sys_step. by rewrite Hk. Qed.

(** Without tasks nothing steps. *)
Lemma sys_idle sched s :
  handed s = [] → phases (fan s) = [] →
  sys_drain (sys_run (Step <$> sched) s) = s.
Proof.
  destruct s as [[l phs fs0] its out cs]. simpl. intros -> ->.
  rewrite sys_run_schedule. unfold sys_drain, with_fan. simpl.
  assert (run_schedule d [] sched {| lim := l; phases := []; ffs := fs0 |}
          = {| lim := l; phases := []; ffs := fs0 |}) as ->; [|done].
  induction sched as [|i sched IH]; [done|]. apply IH.
Qed.

(** A call that is over is resumed no more. *)
Lemma one_call_stopped sched s r :
  handed s = [] → phases (fan s) = [] → calls s = [Finished r] →
  sys_run [Resume 0] (sys_drain (sys_run (Step <$> sched) s)) = s.
Proof.
  intros Hh Hp Hc. rewrite sys_idle by done. unfold sys_run. cbn [foldl].
  by rewrite (sys_step_finished 0 r) by (by rewrite Hc).
Qed.

(** A call on a URL that names no playlist is over at once. *)
Lemma one_call_refused w :
  falsy_opt (searchParams_get "list" (searchParams (url d))) = true →
  sys_run [Invoke; Resume 0; Resume 0] (sys_init w) =
  {| fan := fan (sys_init w); handed := []; printed := console w;
     calls := [Finished (Throw not_a_playlist)] |}.
Proof.
  intros Hf. unfold sys_run. cbn [foldl].
  change (sys_step Invoke (sys_init w)) with (Some (invoke (sys_init w))).
  cbn [default id]. unfold invoke. rewrite Hf. cbn [sys_init calls app].
  set (s1 := mkSys _ _ _ _).
  by rewrite !(sys_step_finished 0 (Throw not_a_playlist) s1 eq_refl).
Qed.

(** The folder is ensured as [ensureOutputFolder] does it. *)
Lemma resume_folder playlistId s :
  resume (AwaitFolder playlistId (negb (existsSync (outputFolder d) (ffs (fan s))))) s
  = Some (AwaitListing playlistId,
          with_world {| fs := (ensureOutputFolder d (ffs (fan s))).1;
                        console := printed s ++ [banner] |} s).
Proof.
  pose proof (ensureOutputFolder_completion d (ffs (fan s))) as Hc.
  unfold resume, eff_bind, on_fs, print, sys_world. cbn [fs console].
  unfold ensureOutputFolder in *.
  destruct (negb (existsSync _ _)); [|done].
  destruct (mkdir_recursive _ _) as [fs1 c]. simpl in Hc. by subst c.
Qed.

(** A call that passes the guard awaits the folder. *)
Lemma invoke_guarded playlistId s :
  searchParams_get "list" (searchParams (url d)) = Some playlistId →
  playlistId ≠ "" →
  invoke s =
  {| fan := fan s; handed := handed s; printed := printed s;
     calls := calls s ++ [AwaitFolder playlistId
                            (negb (existsSync (outputFolder d) (ffs (fan s))))] |}.
Proof.
  intros Hid Hne. unfold invoke. rewrite Hid. simpl.
  by rewrite (proj2 (falsy_false playlistId)).
Qed.

(** The call up to its listing. *)
Lemma one_call_listing playlistId w :
  searchParams_get "list" (searchParams (url d)) = Some playlistId →
  playlistId ≠ "" →
  sys_run [Invoke; Resume 0] (sys_init w) =
  {| fan := {| lim := limit d; phases := [];
               ffs := (ensureOutputFolder d (fs w)).1 |};
     handed := []; printed := console w ++ [banner];
     calls := [AwaitListing playlistId] |}.
Proof.
  intros Hid Hne. unfold sys_run. cbn [foldl].
  change (sys_step Invoke (sys_init w)) with (Some (invoke (sys_init w))).
  cbn [default id]. rewrite (invoke_guarded playlistId) by done.
  set (s1 := mkSys _ _ _ _).
  by rewrite (sys_step_resume 0 _ s1 _ _ eq_refl (resume_folder playlistId s1)).
Qed.

(** The call when the listing is rejected. *)
Lemma one_call_rejected playlistId w e :
  searchParams_get "list" (searchParams (url d)) = Some playlistId →
  playlistId ≠ "" → ytpl playlistId = inl e →
  sys_run [Invoke; Resume 0; Resume 0] (sys_init w) =
  {| fan := {| lim := limit d; phases := [];
               ffs := (ensureOutputFolder d (fs w)).1 |};
     handed := []; printed := console w ++ [banner];
     calls := [Finished (Throw e)] |}.
Proof.
  intros Hid Hne Hy.
  change [Invoke; Resume 0; Resume 0] with ([Invoke; Resume 0] ++ [Resume 0]).
  rewrite sys_run_app, (one_call_listing playlistId) by done.
  unfold sys_run. cbn [foldl]. set (s1 := mkSys _ _ _ _).
  assert (resume (AwaitListing playlistId) s1 = Some (Finished (Throw e), s1))
    as Hr by (simpl; by rewrite Hy).
  by rewrite (sys_step_resume 0 _ s1 _ _ eq_refl Hr).
Qed.

Section listed.
Variable w : World.
Variable sched : list nat.
Variable playlistId : string.
Variable listed : YtplResult.
Hypothesis d_wf : downloader_wf d.
Hypothesis Hid : searchParams_get "list" (searchParams (url d)) = Some playlistId.
Hypothesis Hne : playlistId ≠ "".
Hypothesis Hlisted : ytpl playlistId = inr listed.

(** The call when its downloads have no step left. *)
Lemma one_call_drained :
  sys_drain (sys_run ([Invoke; Resume 0; Resume 0] ++ (Step <$> sched)) (sys_init w))
  = {| fan := fan_final d (items listed) (ensureOutputFolder d (fs w)).1 sched;
       handed := items listed;
       printed := console w ++ [banner; playlist_line (playlist_title listed)];
       calls := [AwaitAll listed 0] |}.
Proof.
  rewrite sys_run_app. change [Invoke; Resume 0; Resume 0]
    with ([Invoke; Resume 0] ++ [Resume 0]).
  rewrite sys_run_app, (one_call_listing playlistId) by done.
  simpl. rewrite Hlisted. simpl. rewrite sys_run_schedule.
  unfold sys_drain, with_fan. simpl. by rewrite <- app_assoc.
Qed.

Lemma one_call_listed :
  (sys_world (one_call sched w), call_completion (calls (one_call sched w) !! 0))
  = download_listed d playlistId sched w.
Proof.
  unfold one_call. rewrite one_call_drained.
  rewrite (download_listed_eq _ _ _ _ listed) by done.
  unfold eff_bind, on_fs, announced, fan_out. cbn [fs console].
  fold (fan_final d (items listed) (ensureOutputFolder d (fs w)).1 sched).
  set (f := fan_final _ _ _ _).
  assert (call_tasks 0 (length (items listed)) f = f) as Hall.
  { destruct (fan_reach_inv d (items listed) _ d_wf f (fan_final_reach _ _ _ _))
      as ((Hlen & _) & _).
    unfold call_tasks. rewrite drop_0, <- Hlen, firstn_all. by destruct f. }
  simpl. rewrite Hall. unfold promise_all.
  destruct (fan_results f) as [rs|]; simpl; [|done].
  unfold sys_world. simpl. by destruct (logResults _ _ _) as [[fs' out] r].
Qed.

End listed.

(** ** The shape of the system *)

Definition sys_shape (s : Sys) : Prop :=
  fan_shape d (handed s) (length (handed s)) (fan s) ∧
  Forall (call_wf (handed s)) (calls s).

(** Items handed over later leave the tasks of a call where they are. *)
Lemma call_wf_app its new c : call_wf its c → call_wf (its ++ new) c.
Proof.
  destruct c as [| |listed first|]; simpl; try done. intros Hc.
  rewrite drop_app, take_app_le; [done|].
  rewrite <- Hc at 1. rewrite length_take. lia.
Qed.

(** A call that has handed over its items awaits their tasks. *)
Lemma call_wf_joined its listed :
  call_wf (its ++ items listed) (AwaitAll listed (length its)).
Proof. simpl. by rewrite drop_app_length, firstn_all. Qed.

Lemma resume_shape c s c' s' :
  sys_shape s → resume c s = Some (c', s') →
  fan_shape d (handed s') (length (handed s')) (fan s') ∧
  Forall (call_wf (handed s')) (calls s) ∧ call_wf (handed s') c' ∧
  calls s' = calls s.
Proof.
  intros [Hf Hc] Hr. destruct c as [id missing|id|listed first|r]; simpl in Hr.
  - destruct (eff_bind _ _ _) as [w [[]|e|]]; by simplify_eq/=.
  - destruct (ytpl id) as [e|listed]; simplify_eq/=; [done|].
    split; [by apply fan_join_shape|].
    split; [|split; [apply call_wf_joined|done]].
    eapply Forall_impl; [done|]. intros c. apply call_wf_app.
  - destruct (fan_results _) as [rs|]; simplify_eq/=.
    destruct (logResults _ _ _) as [w r]. by simplify_eq/=.
  - done.
Qed.

Lemma sys_step_shape e s s' :
  sys_shape s → sys_step e s = Some s' → sys_shape s'.
Proof.
  intros Hs He. destruct e as [|k|i]; simpl in He.
  - simplify_eq/=. destruct Hs as [Hf Hc]. split; [done|].
    apply Forall_app. split; [done|]. apply Forall_singleton.
    by destruct (falsy_opt _).
  - destruct (calls s !! k) as [c|] eqn:Hk; simplify_eq/=.
    destruct (resume c s) as [[c' s1]|] eqn:Hr; simplify_eq/=.
    destruct (resume_shape c s c' s1 Hs Hr) as (Hf & Hc & Hc' & Heq).
    split; [done|]. simpl. rewrite Heq. by apply Forall_insert.
  - destruct (fan_step d _ i _) as [f|] eqn:Hi; simplify_eq/=.
    destruct Hs as [Hf Hc]. split; [by eapply fan_step_shape|done].
Qed.

Lemma sys_rtc_shape s s' : sys_shape s → rtc sys_rel s s' → sys_shape s'.
Proof.
  apply (rtc_invariant sys_rel sys_shape).
  intros s1 s2 Hs [e He]. by eapply sys_step_shape.
Qed.

(** ** A call moves forward *)

Lemma resume_rank c s c' s' :
  resume c s = Some (c', s') → call_rank c < call_rank c'.
Proof.
  destruct c as [id missing|id|listed first|r]; simpl; [| | |done].
  - destruct (eff_bind _ _ _) as [w [[]|e|]]; intros; simplify_eq/=; lia.
  - destruct (ytpl id); intros; simplify_eq/=; lia.
  - destruct (fan_results _); [|done]. simpl.
    destruct (logResults _ _ _). intros; simplify_eq/=; lia.
Qed.

Lemma resume_calls c s c' s' : resume c s = Some (c', s') → calls s' = calls s.
Proof.
  destruct c as [id missing|id|listed first|r]; simpl; [| | |done].
  - destruct (eff_bind _ _ _) as [w [[]|e|]]; intros; by simplify_eq/=.
  - destruct (ytpl id); intros; by simplify_eq/=.
  - destruct (fan_results _); [|done]. simpl.
    destruct (logResults _ _ _). intros; by simplify_eq/=.
Qed.

(** Inversion of the resumption of a call. *)
Lemma sys_step_Resume k s s' :
  sys_step (Resume k) s = Some s' →
  ∃ c c' s1, calls s !! k = Some c ∧ resume c s = Some (c', s1) ∧
             s' = with_call k c' s1 ∧ calls s' = <[k := c']> (calls s) ∧
             call_rank c < call_rank c'.
Proof.
  simpl. intros He. destruct (calls s !! k) as [c|] eqn:Hk; simplify_eq/=.
  destruct (resume c s) as [[c' s1]|] eqn:Hr; simplify_eq/=.
  exists c, c', s1. rewrite (resume_calls _ _ _ _ Hr).
  repeat split; [done|by eapply resume_rank].
Qed.

(** A call that awaits the folder or the listing can always go on: the
    promises of [mkdir] and of the lister settle. *)
Lemma resume_early c s : call_rank c < 2 → is_Some (resume c s).
Proof.
  destruct c as [id missing|id|listed first|r]; simpl; [| |lia..]; intros _.
  - unfold eff_bind, on_fs, print, mkdir_recursive, eff_ret.
    destruct missing; [destruct (is_file _ _)|]; simpl; eauto.
  - destruct (ytpl id); eauto.
Qed.

(** ** The console is shared *)

(** The calls only append to the console: a line printed by one call is
    never lost to another. *)
Lemma resume_printed c s c' s' :
  resume c s = Some (c', s') → printed s `prefix_of` printed s'.
Proof.
  destruct c as [id missing|id|listed first|r]; simpl; [| | |done].
  - unfold eff_bind, on_fs, print, sys_world. cbn [fs console].
    destruct (if missing then _ else _) as [fs1 [[]|e|]];
      intros; simplify_eq/=; [by eexists|done].
  - destruct (ytpl id); intros; simplify_eq/=; [done|by eexists].
  - destruct (fan_results _) as [rs|]; [|done]. simpl.
    pose proof (logResults_console rs (declared <$> items listed) (sys_world s)).
    destruct (logResults _ _ _). intros; by simplify_eq/=.
Qed.

Lemma sys_step_printed e s s' :
  sys_step e s = Some s' → printed s `prefix_of` printed s'.
Proof.
  destruct e as [|k|i]; simpl; intros He.
  - by simplify_eq/=.
  - destruct (calls s !! k) as [c|]; simplify_eq/=.
    destruct (resume c s) as [[c' s1]|] eqn:Hr; simplify_eq/=.
    by eapply resume_printed.
  - destruct (fan_step d _ i _); by simplify_eq/=.
Qed.

Lemma sys_rtc_printed s s' :
  rtc sys_rel s s' → printed s `prefix_of` printed s'.
Proof.
  induction 1 as [|s1 s2 s3 [e He] _ IH]; [done|].
  etrans; [by eapply sys_step_printed|done].
Qed.

(** ** Every event is paid for *)

Lemma resume_cost c s c' s' :
  sys_shape s → resume c s = Some (c', s') →
  fan_cost (handed s') (fan s') + call_cost c'
  < fan_cost (handed s) (fan s) + call_cost c.
Proof.
  intros [(Hsync & Hlim & _) _] Hr.
  destruct c as [id missing|id|listed first|r]; simpl in Hr.
  - destruct (eff_bind _ _ _) as [w [[]|e|]]; simplify_eq/=;
      unfold fan_cost; simpl; lia.
  - unfold call_cost, listing_cost.
    destruct (ytpl id) as [e|listed]; simplify_eq/=; [lia|].
    pose proof (fan_join_cost d (handed s) (items listed) (fan s)
                  (conj Hsync Hlim)). lia.
  - destruct (fan_results _) as [rs|]; simplify_eq/=.
    destruct (logResults _ _ _) as [w r]. simplify_eq/=.
    unfold fan_cost; simpl; lia.
  - done.
Qed.

Lemma sys_step_cost e s s' :
  sys_shape s → sys_step e s = Some s' →
  sys_cost s' + (if is_Invoke e then 0 else 1)
  ≤ sys_cost s + (if is_Invoke e then invoke_cost else 0).
Proof.
  intros Hs He. unfold sys_cost. destruct e as [|k|i]; simpl in He.
  - simplify_eq/=. rewrite sum_list_with_app. simpl.
    unfold invoke_cost. destruct (falsy_opt _); simpl; lia.
  - destruct (calls s !! k) as [c|] eqn:Hk; simplify_eq/=.
    destruct (resume c s) as [[c' s1]|] eqn:Hr; simplify_eq/=.
    pose proof (resume_cost _ _ _ _ Hs Hr) as Hlt.
    rewrite (resume_calls _ _ _ _ Hr).
    pose proof (sum_list_with_insert call_cost (calls s) k c c' Hk). lia.
  - destruct (fan_step d _ i _) as [f|] eqn:Hi; simplify_eq/=.
    destruct Hs as [(Hsync & _) _].
    pose proof (fan_step_cost d _ _ _ _ _ Hsync Hi). lia.
Qed.

Lemma sys_exec_cost events s s' :
  sys_shape s → sys_exec events s = Some s' →
  length events + sys_cost s'
  ≤ sys_cost s + invocations events * (1 + invoke_cost).
Proof.
  revert s. induction events as [|e events IH]; intros s Hs; simpl.
  - intros [= ->]. unfold invocations. simpl. lia.
  - destruct (sys_step e s) as [s1|] eqn:He; [|done]. simpl. intros Hrun.
    pose proof (sys_step_cost e s s1 Hs He) as Hc.
    specialize (IH s1 (sys_step_shape _ _ _ Hs He) Hrun).
    unfold invocations in *. rewrite filter_cons.
    destruct (is_Invoke e) eqn:Hi;
      [rewrite decide_True by done; cbn [length]|rewrite decide_False by done];
      lia.
Qed.

Variable w0 : World.
Hypothesis d_wf : downloader_wf d.

Lemma sys_init_shape : sys_shape (sys_init w0).
Proof.
  split; [|done]. simpl.
  pose proof (fan_init_inv d [] (fs w0) d_wf) as (Hsync & Hlim & _).
  pose proof (fan_init_staggered d [] (fs w0) d_wf) as Hs. done.
Qed.

Lemma sys_reach_shape s : sys_reach w0 s → sys_shape s.
Proof. apply sys_rtc_shape, sys_init_shape. Qed.

(** ** The output folder, and what the downloads are bound for

    A download is bound for a result by the directories it finds
    ([fan_destined]).  The calls make one directory at most, the output
    folder, and the first call to go on from
    [await this.ensureOutputFolder()] makes it, before any item is handed
    to the limiter: from then on the directories are those of
    [folder_made], the file system of the start with the folder.  This
    holds when the path of the folder is not that of a regular file. *)

Definition folder_made : FS := (ensureOutputFolder d (fs w0)).1.

(** A call that has not passed [ensureOutputFolder], and will not without
    making the folder. *)
Definition before_folder (c : Call) : Prop :=
  match c with
  | AwaitFolder _ missing => missing = true
  | Finished _ => True
  | _ => False
  end.

(** The folder is missing, as it was at the start: no call has gone on
    from [ensureOutputFolder], and no item is handed over. *)
Definition sys_unmade (s : Sys) : Prop :=
  existsSync (outputFolder d) (ffs (fan s)) = false ∧ ffs (fan s) ≡ᵈ fs w0 ∧
  handed s = [] ∧ Forall before_folder (calls s).

Definition sys_bound (s : Sys) : Prop :=
  sys_unmade s ∨ fan_destined d (handed s) folder_made (fan s).

Definition sys_inv (s : Sys) : Prop := sys_shape s ∧ sys_bound s.

(** A file system with the same directories serves as well. *)
Lemma destined_with_fs its fs0 f fs1 :
  fan_destined d its fs0 f → fs1 ≡ᵈ ffs f →
  fan_destined d its fs0 {| lim := lim f; phases := phases f; ffs := fs1 |}.
Proof. intros [Hd Hdest] Hfs. split; [simpl; by etrans|done]. Qed.

(** What going on from [ensureOutputFolder] changes. *)
Lemma resume_folder_fan playlistId missing s c' s' :
  resume (AwaitFolder playlistId missing) s = Some (c', s') →
  handed s' = handed s ∧
  fan s' = {| lim := lim (fan s); phases := phases (fan s);
              ffs := if missing
                     then (mkdir_recursive (outputFolder d) (ffs (fan s))).1
                     else ffs (fan s) |}.
Proof.
  unfold resume, eff_bind, on_fs, print, sys_world. cbn [fs console].
  destruct missing; [destruct (mkdir_recursive _ _) as [fs1 [[]|e|]]|];
    intros; by simplify_eq/=.
Qed.

Hypothesis folder_not_file : is_file (outputFolder d) (fs w0) = false.

Lemma folder_made_is_dir : is_dir (outputFolder d) folder_made = true.
Proof. by apply ensureOutputFolder_is_dir. Qed.

(** Making the folder when it is missing gives the directories of
    [folder_made]; making it again changes none. *)
Lemma mkdir_unmade fs1 :
  existsSync (outputFolder d) fs1 = false → fs1 ≡ᵈ fs w0 →
  (mkdir_recursive (outputFolder d) fs1).1 ≡ᵈ folder_made.
Proof.
  intros Hx Hd. pose proof Hx as [Hnd Hnf]%existsSync_false.
  rewrite mkdir_recursive_ok by by apply is_file_false.
  unfold folder_made. rewrite ensureOutputFolder_missing.
  - unfold same_dirs. simpl. by rewrite Hd.
  - apply existsSync_false. rewrite <- Hd. split; [done|].
    by apply is_file_false.
Qed.

Lemma mkdir_made fs1 :
  fs1 ≡ᵈ folder_made → (mkdir_recursive (outputFolder d) fs1).1 ≡ᵈ fs1.
Proof.
  intros Hd. pose proof folder_made_is_dir as Hin%is_dir_true.
  unfold mkdir_recursive. destruct (is_file _ fs1); [done|].
  unfold same_dirs in *. simpl. set_solver.
Qed.

Lemma sys_init_bound : sys_bound (sys_init w0).
Proof.
  destruct (existsSync (outputFolder d) (fs w0)) eqn:Hx.
  - right. unfold folder_made. rewrite ensureOutputFolder_exists by done.
    split; [done|]. by intros i it ph Hit.
  - by left.
Qed.

Lemma invoke_bound s : sys_bound s → sys_bound (invoke s).
Proof.
  intros [(Hx & Hd & Hh & Hc)|Hdest]; [left|by right].
  split; [done|]. split; [done|]. split; [done|]. simpl.
  apply Forall_app. split; [done|]. apply Forall_singleton.
  destruct (falsy_opt _); [done|]. simpl. by rewrite Hx.
Qed.

(** Whatever call goes on, the directories are those of [folder_made]
    afterwards. *)
Lemma resume_bound c s c' s' :
  sys_shape s → sys_bound s → (sys_unmade s → before_folder c) →
  resume c s = Some (c', s') →
  fan_destined d (handed s') folder_made (fan s').
Proof.
  intros [(Hsync & _) _] Hb Hc Hr.
  destruct c as [id missing|id|listed first|r]; [| | |done].
  - apply resume_folder_fan in Hr as [-> ->].
    destruct Hb as [Hu|Hdest].
    + rewrite (Hc Hu). destruct Hu as (Hx & Hd & -> & _).
      split; [by apply mkdir_unmade|]. by intros i it ph Hit.
    + apply destined_with_fs; [done|].
      destruct missing; [|done]. apply mkdir_made, Hdest.
  - destruct Hb as [Hu|Hdest]; [by destruct (Hc Hu)|]. simpl in Hr.
    destruct (ytpl id) as [e|listed]; simplify_eq/=; [done|].
    apply fan_join_destined; [apply Hsync|done].
  - destruct Hb as [Hu|Hdest]; [by destruct (Hc Hu)|]. simpl in Hr.
    destruct (fan_results _) as [rs|]; simplify_eq/=.
    pose proof (logResults_fs rs (declared <$> items listed) (sys_world s)) as Hfs.
    destruct (logResults _ _ _) as [w r]. simplify_eq/=.
    apply destined_with_fs; [done|]. by rewrite Hfs.
Qed.

(** While the folder is missing no download has a step to take. *)
Lemma sys_unmade_idle i s :
  sys_unmade s → fan_step d (handed s) i (fan s) = None.
Proof.
  intros (_ & _ & Hh & _). apply fan_step_None. intros it ph Hit.
  by rewrite Hh in Hit.
Qed.

Lemma sys_step_inv e s s' : sys_inv s → sys_step e s = Some s' → sys_inv s'.
Proof.
  intros [Hs Hb] He. split; [by eapply sys_step_shape|].
  destruct e as [|k|i]; simpl in He.
  - simplify_eq/=. by apply invoke_bound.
  - destruct (calls s !! k) as [c|] eqn:Hk; simplify_eq/=.
    destruct (resume c s) as [[c' s1]|] eqn:Hr; simplify_eq/=.
    right. apply (resume_bound c s c' s1); [done..| |done].
    intros (_ & _ & _ & Hc). by apply (Forall_at Hc k).
  - destruct (fan_step d _ i _) as [f|] eqn:Hi; simplify_eq/=.
    destruct Hb as [Hu|Hdest]; [by rewrite sys_unmade_idle in Hi|].
    right. by eapply fan_step_destined.
Qed.

Lemma sys_reach_inv s : sys_reach w0 s → sys_inv s.
Proof.
  apply (rtc_invariant sys_rel sys_inv).
  - intros s1 s2 Hs [e He]. by eapply sys_step_inv.
  - split; [apply sys_init_shape|apply sys_init_bound].
Qed.

(** The invariant of the fan-out, for all the tasks handed over. *)
Lemma sys_reach_fan_inv s :
  sys_reach w0 s → ∃ fs0, fan_inv d (handed s) fs0 (fan s).
Proof.
  intros [[(? & ? & ?) _] [(_ & Hd & Hh & _)|Hdest]]%sys_reach_inv.
  - exists (fs w0). split; [done|]. split; [done|]. split; [done|].
    rewrite Hh. by intros i it ph Hit.
  - by exists folder_made.
Qed.

(** Brought to their end, the downloads have no step left. *)
Lemma sys_drain_stuck s :
  sys_reach w0 s → fan_stuck d (handed (sys_drain s)) (fan (sys_drain s)).
Proof.
  intros [fs0 Hinv]%sys_reach_fan_inv. simpl. by apply (run_all_stuck d _ fs0).
Qed.

(** ** What a call awaits *)

Section awaiting.
Variable s : Sys.
Variable k : nat.
Variable listed : YtplResult.
Variable first : nat.
Hypothesis s_reach : sys_reach w0 s.
Hypothesis s_call : calls s !! k = Some (AwaitAll listed first).

Lemma call_items_handed :
  take (length (items listed)) (drop first (handed s)) = items listed.
Proof.
  destruct (sys_reach_inv s s_reach) as [[_ Hc] _].
  apply (Forall_at Hc k _ s_call).
Qed.

(** The tasks of the call that are done have the results of its items. *)
(** A call that awaits its downloads has passed [ensureOutputFolder]. *)
Lemma call_fan_inv :
  fan_inv d (handed s) folder_made (fan s) ∧ fan_staggered d (fan s).
Proof.
  destruct (sys_reach_inv s s_reach) as [[(? & ? & ?) _] [(_ & _ & _ & Hc)|?]];
    [|done].
  by destruct (Forall_at Hc k _ s_call).
Qed.

Lemma call_tasks_bound :
  (Forall (λ it, is_Some (item_result d folder_made it)) (items listed) →
   Forall (λ ph, is_Done ph = true)
     (take (length (items listed)) (drop first (phases (fan s))))) →
  fan_results (call_tasks first (length (items listed)) (fan s))
  = mapM (item_result d folder_made) (items listed).
Proof.
  intros Hdone. destruct call_fan_inv as [Hinv _].
  apply fan_results_bound; simpl; [| |done].
  - rewrite <- call_items_handed at 2.
    rewrite !length_take, !length_drop. by destruct Hinv as ((-> & _) & _).
  - intros i it r Hit [Hph _]%lookup_take_Some.
    rewrite <- call_items_handed in Hit. apply lookup_take_Some in Hit as [Hit _].
    rewrite lookup_drop in Hit. rewrite lookup_drop in Hph.
    by eapply fan_inv_done.
Qed.

(** What the call is resumed with is what its items give downloaded one
    after the other. *)
Lemma call_results_sequential rs :
  fan_results (call_tasks first (length (items listed)) (fan s)) = Some rs →
  (download_each d (items listed) folder_made).2 = Return rs.
Proof.
  intros Hrs. rewrite (download_each_completion d folder_made _ _ eq_refl).
  rewrite <- call_tasks_bound, Hrs; [done|]. intros _.
  apply fan_results_Some in Hrs. simpl in Hrs. rewrite Hrs.
  by apply Forall_fmap, Forall_true.
Qed.

(** When no download has a step left and no stream of the items handed
    over before the call's hangs, the call has what its items give. *)
Lemma call_results_settled :
  fan_stuck d (handed s) (fan s) →
  Forall (λ it, is_Some (item_result d folder_made it)) (take first (handed s)) →
  fan_results (call_tasks first (length (items listed)) (fan s))
  = mapM (item_result d folder_made) (items listed).
Proof.
  intros Hstuck Hbefore. apply call_tasks_bound. intros Hown.
  destruct call_fan_inv as [Hinv _].
  rewrite take_drop_commute. apply Forall_drop.
  apply (fan_stuck_done_upto d (handed s) folder_made d_wf _ _ Hinv Hstuck).
  rewrite <- take_take_drop, call_items_handed. by apply Forall_app.
Qed.

(** The call goes on with the report of its results. *)
Lemma resume_reports rs :
  fan_results (call_tasks first (length (items listed)) (fan s)) = Some rs →
  sys_step (Resume k) s =
  Some (with_call k (Finished (Return tt))
          (with_world {| fs := ffs (fan s);
                         console := printed s ++
                           render (run_report (declared <$> items listed) rs) |} s)).
Proof.
  intros Hrs. apply (sys_step_resume k (AwaitAll listed first)); [done|].
  simpl. rewrite Hrs. simpl.
  rewrite logResults_lines, <- render_run_report; [done|].
  apply fan_results_Some in Hrs. simpl in Hrs.
  apply (f_equal length) in Hrs. rewrite length_fmap in Hrs.
  rewrite length_fmap, <- Hrs, length_take. lia.
Qed.

(** When no download has a step left and no stream of its items and of
    the items handed over before them hangs, the call goes on. *)
Lemma call_resumes :
  fan_stuck d (handed s) (fan s) →
  Forall (λ it, is_Some (item_result d folder_made it))
    (take (first + length (items listed)) (handed s)) →
  is_Some (sys_step (Resume k) s).
Proof.
  intros Hstuck Hall. rewrite <- take_take_drop in Hall.
  apply Forall_app in Hall as [Hbefore Hown].
  rewrite call_items_handed in Hown.
  apply mapM_is_Some in Hown as [rs Hm].
  erewrite resume_reports; [done|]. by rewrite call_results_settled.
Qed.

End awaiting.

(** ** The theorems *)

(** C12: the method as it runs, from one [await] to the next, is the method:
    the events of one call of [downloadPlaylist] on a fresh downloader, with
    the steps of its downloads in any order, leave the file system and the
    console, and give the caller the completion, that the method gives as a
    function of the schedule. *)
Theorem one_call_refines sched :
  (sys_world (one_call sched w0), call_completion (calls (one_call sched w0) !! 0))
  = downloadPlaylist d sched w0.
Proof.
  unfold downloadPlaylist.
  destruct (falsy_opt _) eqn:Hf.
  - unfold one_call.
    rewrite sys_run_app, one_call_refused,
      (one_call_stopped _ _ (Throw not_a_playlist)) by done.
    unfold sys_world, eff_throw. simpl. by rewrite World_eta.
  - apply falsy_opt_false in Hf as (playlistId & Hid & Hne). rewrite Hid. simpl.
    destruct (ytpl playlistId) as [e|listed] eqn:Hy;
      [|by apply (one_call_listed w0 sched playlistId listed)].
    rewrite (download_listed_rejected _ _ _ _ e Hy). unfold one_call.
    by rewrite sys_run_app, (one_call_rejected playlistId _ e),
      (one_call_stopped _ _ (Throw e)) by done.
Qed.

(** C13: the bound on the downloads in flight is a bound of the object, not
    of a call: however many calls of [downloadPlaylist] are in progress on
    one downloader, and however they and their downloads interleave, at
    most [concurrency] downloads are in flight. *)
Theorem calls_in_flight_bounded s :
  sys_reach w0 s →
  (Z.of_nat (count_active (phases (fan s))) ≤ maxConcurrency (limit d))%Z.
Proof. intros [Hf _]%sys_reach_shape. by eapply fan_shape_bounded. Qed.

(** C19: every run is finite, and as long as the streams allow: a sequence
    of events takes, for each call of [downloadPlaylist] made in it, at most
    the call, its three resumptions, and one step per event of every stream
    of the playlist (at least one per item) and one clean-up per item,
    however the calls and their downloads interleave. *)
Theorem calls_terminate events s :
  sys_exec events (sys_init w0) = Some s →
  length events ≤ invocations events * (1 + invoke_cost).
Proof.
  intros Hrun. pose proof (sys_exec_cost events _ s sys_init_shape Hrun) as Hc.
  unfold sys_cost at 2 in Hc. simpl in Hc. unfold fan_cost in Hc. simpl in Hc. lia.
Qed.

(** A call moves forward only: an event leaves every call where it
    is or further on, in the order folder, listing, downloads, end, and the
    resumption of a call takes it further on. *)
Lemma call_progress e s s' k c :
  sys_step e s = Some s' → calls s !! k = Some c →
  ∃ c', calls s' !! k = Some c' ∧ call_rank c ≤ call_rank c' ∧
        (e = Resume k → call_rank c < call_rank c').
Proof.
  intros He Hk. destruct e as [|k0|i]; simpl in He.
  - simplify_eq/=. exists c.
    split; [by apply lookup_app_l_Some|split; [lia|done]].
  - apply sys_step_Resume in He as (c0 & c0' & s1 & Hk0 & _ & _ & -> & Hlt).
    destruct (decide (k0 = k)) as [->|Hne].
    + exists c0'. pose proof (lookup_lt_Some _ _ _ Hk) as Hlen.
      rewrite list_lookup_insert_eq by done.
      simplify_eq. split; [done|]. split; [lia|done].
    + exists c. rewrite list_lookup_insert_ne by done.
      split; [done|]. split; [lia|congruence].
  - destruct (fan_step d _ i _) as [f|]; simplify_eq/=. by exists c.
Qed.

(** C14: every call reports on its own playlist, whatever other calls are in
    progress and whichever of them made the output folder: when the path of
    the folder is not that of a regular file, a call that is resumed from
    [await Promise.all] prints the run report of its items as they are when
    downloaded one after the other into the folder, and returns; and it is
    resumed once no download has a step left, if no stream of its items and
    of the items handed over before them hangs. *)
Theorem call_reports s k listed first :
  sys_reach w0 s → calls s !! k = Some (AwaitAll listed first) →
  (∀ s', sys_step (Resume k) s = Some s' →
         ∃ rs, (download_each d (items listed) folder_made).2 = Return rs ∧
               printed s' = printed s ++
                 render (run_report (declared <$> items listed) rs) ∧
               calls s' !! k = Some (Finished (Return tt))) ∧
  (fan_stuck d (handed s) (fan s) →
   Forall (λ it, is_Some (item_result d folder_made it))
     (take (first + length (items listed)) (handed s)) →
   is_Some (sys_step (Resume k) s)).
Proof.
  intros Hr Hk. split.
  - intros s' Hs'.
    destruct (fan_results (call_tasks first (length (items listed)) (fan s)))
      as [rs|] eqn:Hrs; [|unfold sys_step in Hs'; rewrite Hk in Hs'; simpl in Hs';
                          by rewrite Hrs in Hs'].
    rewrite (resume_reports s k listed first Hk rs Hrs) in Hs'.
    exists rs. simplify_eq/=.
    split; [by eapply call_results_sequential|split; [done|]].
    apply list_lookup_insert_eq. by eapply lookup_lt_Some.
  - by apply call_resumes.
Qed.

(** C33: streams that hang starve every later call on the downloader: when
    the path of the output folder is not that of a regular file and the
    streams of the first [concurrency] items handed to the limiter hang, a call whose items were handed over
    after them is never resumed from [await Promise.all], whatever its own
    streams do. *)
Theorem calls_hang_starves s k listed first :
  Forall (λ it, item_result d folder_made it = None)
    (take (Z.to_nat (maxConcurrency (limit d))) (handed s)) →
  Z.to_nat (maxConcurrency (limit d)) ≤ first → items listed ≠ [] →
  sys_reach w0 s → calls s !! k = Some (AwaitAll listed first) →
  sys_step (Resume k) s = None.
Proof.
  intros Hhang Hfirst Hsome Hr Hk. unfold sys_step. rewrite Hk. simpl.
  destruct (fan_results _) as [rs|] eqn:Hrs; [exfalso|done].
  apply fan_results_Some in Hrs. simpl in Hrs.
  destruct (call_fan_inv s k listed first Hr Hk) as [Hinv Hs].
  pose proof (call_items_handed s k listed first Hr Hk) as Hits.
  destruct (items listed) as [|it its] eqn:Hl; [done|].
  assert (is_Some (drop first (handed s) !! 0)) as [it0 Hit0].
  { apply lookup_lt_is_Some. apply (f_equal length) in Hits.
    rewrite length_take in Hits. cbn [length] in Hits. lia. }
  rewrite lookup_drop, Nat.add_0_r in Hit0.
  destruct (lookup_lt_is_Some_2 (phases (fan s)) first) as [ph Hph].
  { destruct Hinv as ((-> & _) & _). by eapply lookup_lt_Some. }
  assert (is_Queued ph = true) as Hq
    by (by apply (hung_head_waits d (handed s) folder_made (fan s) first)).
  assert (take (length (it :: its)) (drop first (phases (fan s))) !! 0 = Some ph)
    as Hd by (by rewrite lookup_take_lt, lookup_drop, Nat.add_0_r by (simpl; lia)).
  rewrite Hrs, list_lookup_fmap in Hd. destruct (rs !! 0); simplify_eq/=.
Qed.

End calls.

(** ** On the playlists of the demonstration *)

Module CallsDemo.
Import Demo DemoDownloader FanoutDemo PlaylistDemo.

(** A world in which the output folder exists. *)
Definition world_out : World := {| fs := fs_out; console := [] |}.

(** Two calls on the downloader of the demonstration: the second is made
    and has handed over its items while [A] and [B] of the first are in
    flight. *)
Definition two_calls : list Event :=
  [Invoke; Resume 0; Resume 0; Step 1; Invoke; Resume 1; Step 0; Resume 1].

Definition overlapped : Sys := sys_run demo two_calls (sys_init demo world_out).

(** A downloader with room for one download, for a playlist whose first
    stream hangs. *)
Definition demo_hung : YoutubeDownloader :=
  {| outputFolder := "out";
     url := {| href := playlist_url; searchParams := [("list", "PL3")] |};
     limit := {| maxConcurrency := 1; activeCount := 0; queue := [] |} |}.

Lemma demo_hung_wf : downloader_wf demo_hung.
Proof. unfold downloader_wf, lim_ok, lim_idle. simpl. repeat split; (done || lia). Qed.

Lemma one_call_refines_witness :
  (sys_world (one_call demo [1; 1; 0] world0),
   call_completion (calls (one_call demo [1; 1; 0] world0) !! 0))
  = downloadPlaylist demo [1; 1; 0] world0.
Proof. exact (one_call_refines demo world0 demo_wf [1; 1; 0]). Defined.

Lemma calls_in_flight_bounded_witness :
  (Z.of_nat (count_active (phases (fan overlapped))) ≤ 2)%Z.
Proof.
  apply (calls_in_flight_bounded demo world_out demo_wf overlapped).
  apply sys_run_rtc.
Defined.

(** The eight events of the two calls are within the bound of two calls of
    a playlist of three items, which is twenty-eight. *)
Lemma calls_terminate_witness :
  length two_calls ≤ invocations two_calls * (1 + invoke_cost demo).
Proof.
  apply (calls_terminate demo world_out demo_wf two_calls overlapped).
  vm_compute. reflexivity.
Defined.

(** The resumption of a call that awaits the folder takes it to the
    listing. *)
Lemma call_progress_witness :
  ∃ c', calls (sys_run demo [Invoke; Resume 0] (sys_init demo world0)) !! 0 = Some c' ∧
        0 ≤ call_rank c' ∧ (Resume 0 = Resume 0 → 0 < call_rank c').
Proof.
  apply (call_progress demo (Resume 0) (sys_run demo [Invoke] (sys_init demo world0))
           _ 0 (AwaitFolder "PL1" true)); vm_compute; reflexivity.
Defined.

(** Two calls made before the output folder exists: both find it missing,
    the second makes it, the first makes it again and lists first. *)
Definition racing : list Event :=
  [Invoke; Invoke; Resume 1; Resume 0; Resume 0; Step 1; Resume 1; Step 0].

Definition raced : Sys := sys_run demo racing (sys_init demo world0).

(** The second of the two calls is resumed when the downloads are over, and
    reports on the three items although it overlapped with the first. *)
Lemma call_reports_witness :
  is_Some (sys_step demo (Resume 1) (sys_drain demo raced)).
Proof.
  assert (sys_reach demo world0 (sys_drain demo raced)) as Hr
    by (unfold sys_reach; etrans; [apply sys_run_rtc|apply sys_drain_rtc]).
  apply (proj2 (call_reports demo world0 demo_wf eq_refl
                  (sys_drain demo raced) 1 mix 3 Hr eq_refl)).
  - apply (sys_drain_stuck demo world0 demo_wf eq_refl), sys_run_rtc.
  - repeat constructor; vm_compute; eauto.
Defined.

(** With room for one download and a first stream that hangs, the second
    call is never resumed. *)
Lemma calls_hang_starves_witness :
  sys_step demo_hung (Resume 1)
    (sys_run demo_hung [Invoke; Resume 0; Resume 0; Invoke; Resume 1; Resume 1; Step 0]
       (sys_init demo_hung world_out)) = None.
Proof.
  apply (calls_hang_starves demo_hung world_out demo_hung_wf eq_refl _ 1
           {| items := [item "H"; item "A"]; playlist_title := "Hung" |} 2);
    [by repeat constructor|simpl; lia|done|apply sys_run_rtc|vm_compute; reflexivity].
Defined.

End CallsDemo.
