(* ===== verification/Sound.v ===== *)
(** * What holds of the calls, whatever the streams

    Facts about the states the calls on a downloader can reach, none
    of which depends on what the streams do.

    - The tasks and the file system are well formed ([fan_wf]), as in the
      fan-out of one call: handing over the items of one more call and
      making the folder keep it.
    - Every call in progress is a call of this downloader ([call_origin]):
      it lists the playlist the URL names, and the items it awaits are
      those the lister returned for it.
    - No file comes to be where the output folder goes ([folder_free]), so
      the [mkdir] of [ensureOutputFolder] does not fail, and a call that
      goes on from it goes on to the listing ([resume_folder_made]).

    The limiter admits the items in the order the calls handed them over,
    and leaves no slot idle, across the calls ([calls_start_in_order],
    [calls_no_idle_slot]); and two calls that await their downloads await
    the downloads of the same items ([calls_list_alike]). *)

From S2P Require Import Prelude Js Types FileSystem Collab Limiter Downloader.
From S2P Require Import Single Report Fanout Wellformed Bounds Capacity.
From S2P Require Import Join Playlist Calls.

Open Scope string_scope.
Open Scope list_scope.
Open Scope nat_scope.

Section sound.
Context `{Collaborators}.
Variable d : YoutubeDownloader.

(** A call of this downloader lists the playlist of its URL. *)
Definition call_origin (c : Call) : Prop :=
  match c with
  | AwaitFolder playlistId _ | AwaitListing playlistId =>
      searchParams_get "list" (searchParams (url d)) = Some playlistId ∧
      playlistId ≠ ""
  | AwaitAll listed _ =>
      ∃ playlistId,
        searchParams_get "list" (searchParams (url d)) = Some playlistId ∧
        playlistId ≠ "" ∧ ytpl playlistId = inr listed
  | Finished _ => True
  end.

Definition sys_wf (s : Sys) : Prop :=
  fan_wf (handed s) (fan s) ∧ Forall call_origin (calls s).

(** ** The resumptions, one by one *)

(** From [ensureOutputFolder], when no file is in the way: the folder is
    made if it was missing, the banner is printed, and the call awaits
    the listing. *)
Lemma resume_folder_made playlistId missing s :
  is_file (outputFolder d) (ffs (fan s)) = false →
  resume d (AwaitFolder playlistId missing) s =
  Some (AwaitListing playlistId,
        with_world
          {| fs := if missing
                   then (mkdir_recursive (outputFolder d) (ffs (fan s))).1
                   else ffs (fan s);
             console := printed s ++ [banner] |} s).
Proof.
  intros Hf. unfold resume, eff_bind, on_fs, print, sys_world. cbn [fs console].
  destruct missing; [by rewrite mkdir_recursive_ok by done|done].
Qed.

(** From [await Promise.all]: the file system and the tasks stay as they
    are, and the call returns. *)
Lemma resume_awaited listed first s c' s' :
  resume d (AwaitAll listed first) s = Some (c', s') →
  fan s' = fan s ∧ handed s' = handed s.
Proof.
  simpl. destruct (fan_results _) as [rs|]; [|done]. simpl.
  pose proof (logResults_fs rs (declared <$> items listed) (sys_world s)) as Hfs.
  destruct (logResults _ _ _) as [w r]. intros; simplify_eq/=.
  split; [|done]. destruct (fan s). simpl in *. by subst.
Qed.

Lemma resume_awaited_returns listed first s c' s' :
  resume d (AwaitAll listed first) s = Some (c', s') →
  c' = Finished (Return tt).
Proof.
  simpl. destruct (fan_results _) as [rs|] eqn:Hrs; [|done]. simpl.
  apply fan_results_Some in Hrs. simpl in Hrs.
  apply (f_equal length) in Hrs. rewrite length_fmap, length_take in Hrs.
  rewrite logResults_lines by (rewrite length_fmap; lia).
  intros; by simplify_eq/=.
Qed.

(** ** Preservation *)

Lemma invoke_origin s :
  call_origin
    (if falsy_opt (searchParams_get "list" (searchParams (url d)))
     then Finished (Throw not_a_playlist)
     else AwaitFolder
            (default "" (searchParams_get "list" (searchParams (url d))))
            (negb (existsSync (outputFolder d) (ffs (fan s))))).
Proof.
  destruct (falsy_opt _) eqn:Hf; simpl; [done|].
  apply falsy_opt_false in Hf as (playlistId & Hid & Hne). by rewrite Hid.
Qed.

Lemma resume_origin c s c' s' :
  call_origin c → resume d c s = Some (c', s') → call_origin c'.
Proof.
  intros Hc Hr. destruct c as [id missing|id|listed first|r]; simpl in Hr.
  - destruct (eff_bind _ _ _) as [w [[]|e|]]; by simplify_eq/=.
  - destruct (ytpl id) as [e|listed] eqn:Hy; simplify_eq/=; [done|].
    destruct Hc as [Hid Hne]. by exists id.
  - destruct (fan_results _); [|done]. simpl in Hr.
    destruct (logResults _ _ _). by simplify_eq/=.
  - done.
Qed.

Lemma resume_fan_wf c s c' s' :
  fan_wf (handed s) (fan s) → resume d c s = Some (c', s') →
  fan_wf (handed s') (fan s').
Proof.
  intros Hwf Hr. destruct c as [id missing|id|listed first|r]; [| | |done].
  - apply resume_folder_fan in Hr as [-> ->].
    destruct Hwf as [Hlen Hfs Hph Hq]. split; simpl; [done| |done..].
    destruct missing; [by apply mkdir_recursive_wf|done].
  - simpl in Hr. destruct (ytpl id) as [e|listed]; simplify_eq/=; [done|].
    by apply fan_join_wf.
  - by apply resume_awaited in Hr as [-> ->].
Qed.

Lemma sys_step_wf e s s' : sys_wf s → sys_step d e s = Some s' → sys_wf s'.
Proof.
  intros [Hwf Hc] He. destruct e as [|k|i].
  - simpl in He. simplify_eq. split; [done|]. simpl.
    apply Forall_app. split; [done|]. apply Forall_singleton, invoke_origin.
  - apply sys_step_Resume in He as (c & c' & s1 & Hk & Hr & -> & Hcalls & _).
    split; [apply (resume_fan_wf c s c' s1 Hwf Hr)|]. rewrite Hcalls.
    apply Forall_insert; [done|]. eapply resume_origin; [|done].
    by apply (Forall_at Hc k).
  - simpl in He. destruct (fan_step d _ i _) as [f|] eqn:Hi; simplify_eq/=.
    split; [by eapply fan_step_wf|done].
Qed.

(** ** The reachable states *)

Variable w0 : World.
Hypothesis d_wf : downloader_wf d.
Hypothesis fs0_wf : fs_wf (fs w0).

(** Reachable states are closed under the events. *)
Lemma sys_reach_step e s s' :
  sys_reach d w0 s → sys_step d e s = Some s' → sys_reach d w0 s'.
Proof. intros Hr He. eapply rtc_r; [done|by exists e]. Qed.

Lemma sys_init_wf : sys_wf (sys_init d w0).
Proof.
  destruct d_wf as (_ & _ & _ & _ & Hq). split; [|apply Forall_nil_2].
  split; simpl; [done|done|done|]. by rewrite Hq.
Qed.

Lemma sys_reach_wf s : sys_reach d w0 s → sys_wf s.
Proof.
  apply (rtc_invariant (sys_rel d) sys_wf); [|apply sys_init_wf].
  intros s1 s2 Hs [e He]. by eapply sys_step_wf.
Qed.

(** *** Admission across the calls *)

(** The downloads are started in the order the calls handed the items
    over: a download that has been started has all the downloads handed
    over before it started, whichever calls they belong to. *)
Lemma calls_start_in_order s i j :
  sys_reach d w0 s → j ≤ i → started (fan s) i → started (fan s) j.
Proof.
  intros [((Hlen & _ & _ & k & _ & _ & Hq) & _) _]%(sys_reach_shape d w0 d_wf)
    Hji (ph & Hi & Hqi).
  destruct (lookup_lt_is_Some_2 (phases (fan s)) j) as [ph' Hj];
    [apply lookup_lt_Some in Hi; lia|].
  exists ph'. split; [done|]. destruct (is_Queued ph') eqn:Hq'; [|done].
  apply (Hq j ph' Hj) in Hq'. assert (k ≤ i) as Hk by lia.
  apply (Hq i ph Hi) in Hk. congruence.
Qed.

(** No slot is idle while a download of any call waits. *)
Lemma calls_no_idle_slot s i ph :
  sys_reach d w0 s → phases (fan s) !! i = Some ph → is_Queued ph = true →
  Z.of_nat (count_active (phases (fan s))) = maxConcurrency (limit d).
Proof.
  intros [((Hlen & _ & Hcount & k & Hk & Hqueue & Hq) & (_ & He & Hmax) & _) _]
    %(sys_reach_shape d w0 d_wf) Hi Hqi.
  apply (Hq i ph Hi) in Hqi. pose proof (lookup_lt_Some _ _ _ Hi) as Hlt.
  rewrite Hcount, <- Hmax. apply He. rewrite Hqueue. intros Hnil.
  apply (f_equal length) in Hnil. rewrite length_seq in Hnil. simpl in Hnil. lia.
Qed.

(** Two calls that await their downloads await the downloads of the same
    items: the URL and the folder are fields of the object, so the calls
    on it write to the same paths. *)
Lemma calls_list_alike s k1 k2 listed1 first1 listed2 first2 :
  sys_reach d w0 s →
  calls s !! k1 = Some (AwaitAll listed1 first1) →
  calls s !! k2 = Some (AwaitAll listed2 first2) →
  listed1 = listed2.
Proof.
  intros [_ Ho]%sys_reach_wf Hk1 Hk2.
  destruct (Forall_at Ho k1 _ Hk1) as (id1 & Hid1 & _ & Hy1).
  destruct (Forall_at Ho k2 _ Hk2) as (id2 & Hid2 & _ & Hy2).
  congruence.
Qed.

(** *** The folder *)

Hypothesis folder_not_file : is_file (outputFolder d) (fs w0) = false.

(** In a reachable state no file is where the folder goes. *)
Lemma folder_free s :
  sys_reach d w0 s → is_file (outputFolder d) (ffs (fan s)) = false.
Proof.
  intros Hr. pose proof (wf_fs _ _ (proj1 (sys_reach_wf s Hr))) as Hwf.
  destruct (sys_reach_inv d w0 d_wf folder_not_file s Hr)
    as [_ [(Hx & _)|[Hd _]]].
  - apply existsSync_false in Hx as [_ Hx]. by apply is_file_false.
  - apply is_file_false, Hwf. rewrite Hd.
    apply is_dir_true, (folder_made_is_dir d w0 folder_not_file).
Qed.

End sound.
