(* ===== verification/SharedPool.v ===== *)
(** * The limiter of the object, across the calls

    [Admission] shows that the fan-out of one call implements the pool of
    the limiter's specification.  The limiter is a field of the object, so
    what the specification promises of it is a promise about all the calls
    made on the object: this file shows that every state the calls reach
    is the end of a run of the pool, from the empty pool, in which every
    item handed over by any call is submitted once, in the order the calls
    handed the items over.

    The events of the calls are read as runs of the pool: a call that goes
    on from the lister submits its items ([fan_join_refines]); a step of a
    download is no transition, or a finish and at most one start
    ([download_step_refines] in [Admission]); the other events leave the
    pool as it is. *)

From S2P Require Import Prelude Js Types FileSystem Collab Limiter Downloader.
From S2P Require Import Single Report Fanout Admission Wellformed Bounds Capacity.
From S2P Require Import Join Playlist Calls Sound.

Open Scope string_scope.
Open Scope list_scope.
Open Scope nat_scope.

Section shared.
Context `{Collaborators}.
Variable d : YoutubeDownloader.

(** Tasks that are not handed over yet are not in the pool. *)
Lemma fan_extend_pool new s : fan_pool d (fan_extend new s) = fan_pool d s.
Proof.
  unfold fan_pool, fan_extend, in_flight. simpl. f_equal.
  rewrite active_from_app, (active_from_idle _ (replicate _ _)), app_nil_r;
    [done|by apply Forall_replicate].
Qed.

(** A call hands its items over: a run of the pool that submits them. *)
Lemma fan_join_refines handed new s :
  fan_shape d handed (length handed) s →
  ∃ labs, pool_steps (fan_pool d s) labs (fan_pool d (fan_join d handed new s))
          ∧ label_submits labs = seq (length handed) (length new).
Proof.
  intros (Hsync & Hlim & _). rewrite <- (fan_extend_pool new s).
  apply hand_over_upto_refines; [by rewrite length_app| |done].
  by apply fan_extend_sync.
Qed.

(** The resumption of a call, as a run of the pool. *)
Lemma resume_refines_pool c s c' s' :
  sys_shape d s → resume d c s = Some (c', s') →
  ∃ labs, pool_steps (fan_pool d (fan s)) labs (fan_pool d (fan s')) ∧
          label_submits labs
          = seq (length (handed s)) (length (handed s') - length (handed s)).
Proof.
  intros [Hshape _] Hr. destruct c as [id missing|id|listed first|r]; [| | |done].
  - apply resume_folder_fan in Hr as [-> ->]. exists [].
    rewrite Nat.sub_diag. split; [|done].
    unfold fan_pool. simpl. constructor.
  - simpl in Hr. destruct (ytpl id) as [e|listed]; simplify_eq/=.
    + exists []. rewrite Nat.sub_diag. split; [constructor|done].
    + rewrite length_app, Nat.add_comm, Nat.add_sub.
      by apply fan_join_refines.
  - apply resume_awaited in Hr as [-> ->]. exists [].
    rewrite Nat.sub_diag. split; [constructor|done].
Qed.

Lemma resume_handed c s c' s' :
  resume d c s = Some (c', s') → length (handed s) ≤ length (handed s').
Proof.
  intros Hr. destruct c as [id missing|id|listed first|r]; [| | |done].
  - by apply resume_folder_fan in Hr as [-> _].
  - simpl in Hr. destruct (ytpl id) as [e|listed]; simplify_eq/=; [done|].
    rewrite length_app. lia.
  - by apply resume_awaited in Hr as [_ ->].
Qed.

(** An event, as a run of the pool that submits the items it hands
    over. *)
Lemma sys_step_refines_pool e s s' :
  sys_shape d s → sys_step d e s = Some s' →
  ∃ labs, pool_steps (fan_pool d (fan s)) labs (fan_pool d (fan s')) ∧
          seq 0 (length (handed s)) ++ label_submits labs
          = seq 0 (length (handed s')).
Proof.
  intros Hs He. destruct e as [|k|i].
  - simpl in He. simplify_eq. exists []. split; [constructor|apply app_nil_r].
  - apply sys_step_Resume in He as (c & c' & s1 & Hk & Hr & -> & _ & _).
    destruct (resume_refines_pool c s c' s1 Hs Hr) as (labs & Hsteps & Hsub).
    exists labs. split; [done|]. rewrite Hsub, <- seq_app. simpl. f_equal.
    pose proof (resume_handed _ _ _ _ Hr). lia.
  - simpl in He. destruct (fan_step d _ i _) as [f|] eqn:Hi; simplify_eq/=.
    destruct Hs as [(Hsync & (_ & _ & Hmax) & _) _].
    destruct (download_step_refines d (handed s) (fan s) i f Hsync Hmax Hi)
      as (labs & Hsteps & Hlabs).
    exists labs. split; [done|].
    by rewrite (step_labels_submit_nothing labs i Hlabs), app_nil_r.
Qed.

Variable w0 : World.
Hypothesis d_wf : downloader_wf d.

(** C21: the limiter of the object implements the pool of its specification
    across the calls: every state the calls on a downloader reach, however
    they and their downloads interleave, is the end of a run of the pool
    from the empty pool in which every item handed over by any call is
    submitted once, in the order the calls handed the items over. *)
Theorem calls_refine_pool s :
  sys_reach d w0 s →
  ∃ labs, pool_steps
            {| capacity := maxConcurrency (limit d); running := []; waiting := [] |}
            labs (fan_pool d (fan s))
          ∧ label_submits labs = seq 0 (length (handed s)).
Proof.
  revert s. unfold sys_reach. apply rtc_ind_r.
  - exists []. split; [|done]. destruct d_wf as (_ & _ & _ & _ & Hq).
    unfold fan_pool, sys_init. simpl. rewrite Hq. constructor.
  - intros s1 s2 Hr1 [e He] (labs & Hrun & Hsub).
    destruct (sys_step_refines_pool e s1 s2) as (labs' & Hstep & Hsub');
      [by apply (sys_reach_shape d w0)|done|].
    exists (labs ++ labs'). split; [by eapply pool_steps_app|].
    unfold label_submits in *. rewrite omap_app, Hsub. apply Hsub'.
Qed.

End shared.

(** ** On the playlists of the demonstration *)

Module SharedPoolDemo.
Import Demo DemoDownloader FanoutDemo PlaylistDemo CallsDemo.

(** The two overlapping calls: six items submitted, in the order handed
    over. *)
Lemma calls_refine_pool_witness :
  ∃ labs, pool_steps {| capacity := 2; running := []; waiting := [] |}
            labs (fan_pool demo (fan overlapped))
          ∧ label_submits labs = seq 0 6.
Proof.
  apply (calls_refine_pool demo world_out demo_wf overlapped).
  apply sys_run_rtc.
Defined.

End SharedPoolDemo.
