(* ===== verification/Completion.v ===== *)
(** * Every call completes

    [Calls] shows what a call of [downloadPlaylist] does when it goes on;
    this file shows that it does go on, to its end, whatever calls are in
    progress with it, when no stream of the playlist hangs.

    The event loop is given a strategy ([sys_complete]): every call is
    resumed, twice, which takes it to its [await Promise.all]; the
    downloads are moved until none has a step left; and every call is
    resumed once more.  An event that is not possible is skipped, so the
    strategy applies to every state.  Each round of resumptions takes the
    calls of one stage to the next ([resume_pass]).

    What a call completes with is what a call alone completes with: an
    error when the URL names no playlist or the lister rejects, and
    otherwise nothing, whatever downloads failed ([call_done]).  [mkdir]
    cannot fail on the way, since no file comes to be where the folder
    goes ([folder_free] in [Sound]). *)

From S2P Require Import Prelude Js Types FileSystem Collab Limiter Downloader.
From S2P Require Import Single Report Fanout Wellformed Bounds Capacity.
From S2P Require Import Join Playlist Calls Sound.

Open Scope string_scope.
Open Scope list_scope.
Open Scope nat_scope.

Section completion.
Context `{Collaborators}.
Variable d : YoutubeDownloader.

(** Every call made so far is resumed, in the order of the calls. *)
Definition resume_all (s : Sys) : Sys :=
  sys_run d (Resume <$> seq 0 (length (calls s))) s.

(** The calls are taken to [await Promise.all], the downloads to their end,
    and the calls to theirs. *)
Definition sys_complete (s : Sys) : Sys :=
  resume_all (sys_drain d (resume_all (resume_all s))).

Definition is_Finished (c : Call) : bool :=
  match c with Finished _ => true | _ => false end.

Lemma rank_Finished c : 2 < call_rank c → is_Finished c = true.
Proof. destruct c; simpl; (done || lia). Qed.

(** ** A round of resumptions *)

Lemma resume_all_rtc s : rtc (sys_rel d) s (resume_all s).
Proof. apply sys_run_rtc. Qed.

(** A round takes every call of stage [r] to a later stage, when the calls
    of that stage can go on in every state of the round. *)
Lemma resume_pass (I : Sys → Prop) (r : nat) :
  (∀ k s s', I s → Forall (λ c, r ≤ call_rank c) (calls s) →
             sys_step d (Resume k) s = Some s' → I s') →
  (∀ k c s, I s → calls s !! k = Some c → call_rank c = r →
            is_Some (sys_step d (Resume k) s)) →
  ∀ n j s, I s → Forall (λ c, r ≤ call_rank c) (calls s) →
    Forall (λ c, r < call_rank c) (take j (calls s)) →
    j + n = length (calls s) →
    I (sys_run d (Resume <$> seq j n) s) ∧
    Forall (λ c, r < call_rank c) (calls (sys_run d (Resume <$> seq j n) s)).
Proof.
  intros Hkeep Hon. induction n as [|n IH]; intros j s HI Hle Hlt Hlen.
  { rewrite take_ge in Hlt by lia. done. }
  destruct (lookup_lt_is_Some_2 (calls s) j) as [c Hc]; [lia|].
  pose proof (Forall_at Hle j c Hc) as Hr. simpl in Hr.
  cbn [seq fmap list_fmap sys_run foldl]. fold (sys_run d (Resume <$> seq (S j) n)).
  destruct (sys_step d (Resume j) s) as [s'|] eqn:He; cbn [from_option id].
  - pose proof He as (c0 & c' & s1 & Hc0 & _ & _ & Hcalls & Hrank)%sys_step_Resume.
    simplify_eq. apply IH.
    + by eapply Hkeep.
    + rewrite Hcalls. apply Forall_insert; [done|]. simpl. lia.
    + rewrite Hcalls, (take_S_r _ _ c'), take_insert_ge by
        (done || by apply list_lookup_insert_eq, lookup_lt_Some with c).
      apply Forall_app. split; [done|]. apply Forall_singleton. lia.
    + rewrite Hcalls, length_insert. lia.
  - apply IH; [done..| |lia].
    rewrite (take_S_r _ _ c) by done.
    apply Forall_app. split; [done|]. apply Forall_singleton.
    destruct (decide (call_rank c = r)) as [Heq|Hne]; [|lia].
    destruct (Hon j c s HI Hc Heq) as [s' Hs']. congruence.
Qed.

Lemma resume_all_pass (I : Sys → Prop) (r : nat) s :
  (∀ k s s', I s → Forall (λ c, r ≤ call_rank c) (calls s) →
             sys_step d (Resume k) s = Some s' → I s') →
  (∀ k c s, I s → calls s !! k = Some c → call_rank c = r →
            is_Some (sys_step d (Resume k) s)) →
  I s → Forall (λ c, r ≤ call_rank c) (calls s) →
  I (resume_all s) ∧ Forall (λ c, S r ≤ call_rank c) (calls (resume_all s)).
Proof.
  intros Hkeep Hon HI Hle.
  by apply (resume_pass I r Hkeep Hon (length (calls s)) 0 s).
Qed.

(** A call before its [await Promise.all] can go on. *)
Lemma sys_step_early k c s :
  calls s !! k = Some c → call_rank c < 2 → is_Some (sys_step d (Resume k) s).
Proof.
  intros Hk Hr. destruct (resume_early d c s Hr) as [[c' s'] Hs].
  by rewrite (sys_step_resume d k c s c' s').
Qed.

(** ** The streams of the playlist settle *)

Variable w0 : World.
Hypothesis d_wf : downloader_wf d.
Hypothesis folder_not_file : is_file (outputFolder d) (fs w0) = false.
Hypothesis fs0_wf : fs_wf (fs w0).

Hypothesis streams_settle : ∀ playlistId listed,
  searchParams_get "list" (searchParams (url d)) = Some playlistId →
  ytpl playlistId = inr listed →
  all_settle d (items listed) (folder_made d w0).

(** *** What a call alone completes with *)

Lemma alone_refused sched :
  falsy_opt (searchParams_get "list" (searchParams (url d))) = true →
  (downloadPlaylist d sched w0).2 = Throw not_a_playlist.
Proof. intros Hf. unfold downloadPlaylist. by rewrite Hf. Qed.

Lemma alone_rejected sched playlistId e :
  searchParams_get "list" (searchParams (url d)) = Some playlistId →
  playlistId ≠ "" → ytpl playlistId = inl e →
  (downloadPlaylist d sched w0).2 = Throw e.
Proof.
  intros Hid Hne Hy. rewrite (downloadPlaylist_guard _ _ _ playlistId) by done.
  by rewrite (download_listed_rejected _ _ _ _ e).
Qed.

Lemma alone_returns sched playlistId listed :
  searchParams_get "list" (searchParams (url d)) = Some playlistId →
  playlistId ≠ "" → ytpl playlistId = inr listed →
  (downloadPlaylist d sched w0).2 = Return tt.
Proof.
  intros Hid Hne Hy. rewrite (downloadPlaylist_guard _ _ _ playlistId) by done.
  destruct (mapM_is_Some_2 (item_result d (folder_made d w0)) (items listed))
    as [rs Hrs]; [by apply (streams_settle playlistId)|].
  rewrite (download_listed_report _ _ _ _ listed rs); [done..|].
  unfold sequential_results.
  by rewrite (download_each_completion d (folder_made d w0) _ _ eq_refl), Hrs.
Qed.

(** *** What holds of the calls *)

(** A call that has completed has completed as a call alone does. *)
Definition call_done (c : Call) : Prop :=
  match c with
  | Finished r => ∀ sched, r = (downloadPlaylist d sched w0).2
  | _ => True
  end.

(** The streams of the items handed to the limiter settle, and the calls
    that have completed have done so as a call alone. *)
Definition sys_settling (s : Sys) : Prop :=
  all_settle d (handed s) (folder_made d w0) ∧ Forall call_done (calls s).

Lemma invoke_done s :
  call_done (if falsy_opt (searchParams_get "list" (searchParams (url d)))
             then Finished (Throw not_a_playlist)
             else AwaitFolder
                    (default "" (searchParams_get "list" (searchParams (url d))))
                    (negb (existsSync (outputFolder d) (ffs (fan s))))).
Proof.
  destruct (falsy_opt _) eqn:Hf; simpl; [|done].
  intros sched. by rewrite alone_refused.
Qed.

Lemma resume_settling c s c' s' :
  sys_reach d w0 s → all_settle d (handed s) (folder_made d w0) →
  call_origin d c → resume d c s = Some (c', s') →
  all_settle d (handed s') (folder_made d w0) ∧ call_done c'.
Proof.
  intros Hreach Hs Hc Hr.
  destruct c as [id missing|id|listed first|r]; [| | |done].
  - rewrite (resume_folder_made d id missing s) in Hr
      by (by apply (folder_free d w0)).
    by simplify_eq/=.
  - destruct Hc as [Hid Hne]. simpl in Hr.
    destruct (ytpl id) as [e|listed] eqn:Hy; simplify_eq/=.
    + split; [done|]. intros sched. by rewrite (alone_rejected sched id e).
    + split; [|done]. apply Forall_app. split; [done|].
      by apply (streams_settle id).
  - pose proof (resume_awaited_returns d _ _ _ _ _ Hr) as ->.
    apply resume_awaited in Hr as [_ ->]. split; [done|].
    destruct Hc as (id & Hid & Hne & Hy). intros sched.
    by rewrite (alone_returns sched id listed).
Qed.

Lemma sys_step_settling e s s' :
  sys_reach d w0 s → sys_settling s → sys_step d e s = Some s' →
  sys_settling s'.
Proof.
  intros Hreach [Hs Hc] He. destruct e as [|k|i].
  - simpl in He. simplify_eq. split; [done|]. simpl.
    apply Forall_app. split; [done|]. apply Forall_singleton, invoke_done.
  - apply sys_step_Resume in He as (c & c' & s1 & Hk & Hr & -> & Hcalls & _).
    destruct (resume_settling c s c' s1) as [Hs' Hc']; [done..| |done|].
    { destruct (sys_reach_wf d w0 d_wf fs0_wf s Hreach) as [_ Ho].
      by apply (Forall_at Ho k). }
    split; [done|]. rewrite Hcalls. by apply Forall_insert.
  - simpl in He. by destruct (fan_step d _ i _); simplify_eq/=.
Qed.

Lemma sys_reach_settling s : sys_reach d w0 s → sys_settling s.
Proof.
  revert s. unfold sys_reach.
  apply rtc_ind_r; [by split; apply Forall_nil_2|].
  intros s1 s2 Hr1 [e He] Hs1. by eapply sys_step_settling.
Qed.

(** ** The three rounds *)

(** The first two rounds: every call reaches its [await Promise.all], or
    its end. *)
Lemma resume_all_early r s :
  r < 2 → sys_reach d w0 s → Forall (λ c, r ≤ call_rank c) (calls s) →
  sys_reach d w0 (resume_all s) ∧
  Forall (λ c, S r ≤ call_rank c) (calls (resume_all s)).
Proof.
  intros Hr. apply resume_all_pass.
  - intros k s1 s2 Hs1 _. by apply (sys_reach_step d w0).
  - intros k c s1 _ Hk Hc. apply (sys_step_early k c); [done|lia].
Qed.

(** The last round: no download has a step left, and the calls go on from
    [await Promise.all]. *)
Definition sys_over (s : Sys) : Prop :=
  sys_reach d w0 s ∧ fan_stuck d (handed s) (fan s).

Lemma sys_over_step k s s' :
  sys_over s → Forall (λ c, 2 ≤ call_rank c) (calls s) →
  sys_step d (Resume k) s = Some s' → sys_over s'.
Proof.
  intros [Hr Hstuck] Hle He. split; [by eapply (sys_reach_step d w0)|].
  apply sys_step_Resume in He as (c & c' & s1 & Hk & Hres & -> & _ & _).
  pose proof (Forall_at Hle k c Hk) as Hc. simpl in Hc.
  destruct c as [| |listed first|r]; simpl in Hc; [lia..| |done].
  apply resume_awaited in Hres as [Hf Hh]. simpl. by rewrite Hf, Hh.
Qed.

Lemma sys_over_resumes k c s :
  sys_over s → calls s !! k = Some c → call_rank c = 2 →
  is_Some (sys_step d (Resume k) s).
Proof.
  intros [Hr Hstuck] Hk Hc.
  destruct c as [| |listed first|r]; simpl in Hc; try lia.
  apply (call_resumes d w0 d_wf folder_not_file s k listed first Hr Hk Hstuck).
  apply Forall_take. by destruct (sys_reach_settling s Hr).
Qed.

Lemma resume_all_over s :
  sys_over s → Forall (λ c, 2 ≤ call_rank c) (calls s) →
  sys_over (resume_all s) ∧ Forall (λ c, 3 ≤ call_rank c) (calls (resume_all s)).
Proof.
  apply resume_all_pass; [apply sys_over_step|apply sys_over_resumes].
Qed.

(** A call that has completed in a reachable state has completed as a call
    alone does. *)
Lemma finished_alone s c sched :
  sys_reach d w0 s → c ∈ calls s → 2 < call_rank c →
  c = Finished (downloadPlaylist d sched w0).2.
Proof.
  intros [_ Hc]%sys_reach_settling Hin Hrank.
  pose proof (proj1 (Forall_forall _ _) Hc c Hin) as Hof.
  destruct c as [| | |r]; simpl in Hrank; [lia..|]. by rewrite (Hof sched).
Qed.

(** ** The theorem *)

(** C16: every call completes, and as it would alone, whatever calls are in
    progress with it: when no stream of the playlist hangs and the path of
    the output folder is not that of a regular file, then from every state
    the calls on a downloader can reach, resuming the calls and moving the
    downloads to their end leaves every call made completed, with the
    completion of a call of [downloadPlaylist] made alone, and no download
    with a step to take. *)
Theorem calls_complete s sched :
  sys_reach d w0 s →
  sys_reach d w0 (sys_complete s) ∧
  Forall (λ c, c = Finished (downloadPlaylist d sched w0).2)
    (calls (sys_complete s)) ∧
  fan_stuck d (handed (sys_complete s)) (fan (sys_complete s)).
Proof.
  intros Hr. unfold sys_complete.
  destruct (resume_all_early 0 s) as [Hr1 Hc1];
    [lia|done|by apply Forall_true; intros; lia|].
  destruct (resume_all_early 1 (resume_all s)) as [Hr2 Hc2]; [lia|done..|].
  set (s2 := resume_all (resume_all s)) in *.
  destruct (resume_all_over (sys_drain d s2)) as [[Hr3 Hs3] Hc3]; [|done|].
  - split; [unfold sys_reach; by etrans; [|apply sys_drain_rtc]|].
    by apply (sys_drain_stuck d w0).
  - split; [done|]. split; [|done].
    apply Forall_forall. intros c Hin.
    apply (finished_alone _ c sched Hr3 Hin).
    by apply (proj1 (Forall_forall _ _) Hc3 c Hin).
Qed.

(** ** No call is left waiting *)

(** A call that has not completed can go on, or a download has a step to
    take. *)
Lemma waiting_moves s k c :
  sys_reach d w0 s → calls s !! k = Some c → call_rank c < 3 →
  ∃ e, e ≠ Invoke ∧ is_Some (sys_step d e s).
Proof.
  intros Hr Hk Hc. destruct (decide (call_rank c < 2)) as [Hlt|Hge].
  { exists (Resume k). split; [done|]. by apply (sys_step_early k c). }
  destruct (first_step d (handed s) (seq 0 (length (handed s))) (fan s))
    as [f|] eqn:Hf.
  - apply first_step_Some in Hf as (i & _ & Hi). exists (Step i).
    split; [done|]. simpl. by rewrite Hi.
  - apply first_step_stuck in Hf. exists (Resume k). split; [done|].
    apply (sys_over_resumes k c); [done..|lia].
Qed.

(** C17: the calls on a downloader never come to a halt before their end:
    when no stream of the playlist hangs and the path of the output folder
    is not that of a regular file, then in every state the calls can reach
    either every call made has completed, with the completion of a call
    made alone, or a call can be resumed or a download has a step to
    take. *)
Theorem calls_deadlock_free s sched :
  sys_reach d w0 s →
  Forall (λ c, c = Finished (downloadPlaylist d sched w0).2) (calls s) ∨
  ∃ e, e ≠ Invoke ∧ is_Some (sys_step d e s).
Proof.
  intros Hr.
  destruct (decide (Forall (λ c, 2 < call_rank c) (calls s))) as [Hall|Hex].
  - left. apply Forall_forall. intros c Hin.
    apply (finished_alone s c sched Hr Hin).
    by apply (proj1 (Forall_forall _ _) Hall c Hin).
  - right. apply not_Forall_Exists in Hex; [|apply _].
    apply Exists_exists in Hex as (c & Hin & Hc).
    apply list_elem_of_lookup in Hin as [k Hk].
    apply (waiting_moves s k c Hr Hk). simpl in Hc. lia.
Qed.

End completion.

(** ** On the playlists of the demonstration *)

Module CompletionDemo.
Import Demo DemoDownloader FanoutDemo PlaylistDemo CallsDemo.

(** No stream of the playlist of the demonstration hangs. *)
Lemma demo_streams_settle playlistId listed :
  searchParams_get "list" (searchParams (url demo)) = Some playlistId →
  ytpl playlistId = inr listed →
  all_settle demo (items listed) (folder_made demo world0).
Proof.
  intros Hid Hy. simpl in Hid. simplify_eq.
  vm_compute in Hy. simplify_eq. repeat constructor; vm_compute; eauto.
Qed.

(** The two calls made before the folder exists both complete, as a call
    alone does: they return, although an item failed. *)
Lemma calls_complete_witness :
  Forall (λ c, c = Finished (downloadPlaylist demo [] world0).2)
    (calls (sys_complete demo raced)).
Proof.
  apply (calls_complete demo world0 demo_wf eq_refl fs_empty_wf
           demo_streams_settle).
  apply sys_run_rtc.
Defined.

(** In the state the two calls have reached, a call can go on or a
    download can. *)
Lemma calls_deadlock_free_witness :
  Forall (λ c, c = Finished (downloadPlaylist demo [] world0).2) (calls raced) ∨
  ∃ e, e ≠ Invoke ∧ is_Some (sys_step demo e raced).
Proof.
  apply (calls_deadlock_free demo world0 demo_wf eq_refl fs_empty_wf
           demo_streams_settle).
  apply sys_run_rtc.
Defined.

End CompletionDemo.
