(* ===== verification/Console.v ===== *)
(** * The console of overlapping calls

    The calls on a downloader print to one console.  Each line is printed
    by the resumption of one call: the banner when the call goes on from
    [ensureOutputFolder], the title of the playlist when it goes on from
    the lister, the report when it goes on from [Promise.all].

    [sys_logged] runs a list of events and keeps, beside the state, the
    lines printed, each with the index of the call that printed it.  The
    theorem of this file says that the console is an interleaving of the
    consoles of the calls taken alone: it holds the logged lines in their
    order, and the lines of one call ([lines_of]) are, in their order, a
    prefix of what [downloadPlaylist] prints when called alone, all of it
    once the call has completed. *)

From S2P Require Import Prelude Js Types FileSystem Collab Limiter Downloader.
From S2P Require Import Single Report Fanout Wellformed Bounds Capacity.
From S2P Require Import Join Playlist Calls Sound.

Open Scope string_scope.
Open Scope list_scope.
Open Scope nat_scope.

(** A log is a list of lines, each with the index of the call that printed
    it.  The lines of call [k], in the order they were printed: *)
Definition lines_of (k : nat) (log : list (nat * LogLine)) : list LogLine :=
  (filter (λ p, p.1 = k) log).*2.

(** The lines a step added to the console. *)
Definition emitted (s s' : Sys) : list LogLine :=
  drop (length (printed s)) (printed s').

(** The lines of a step, with the call that printed them: only the
    resumption of a call prints. *)
Definition step_log (e : Event) (s s' : Sys) : list (nat * LogLine) :=
  match e with
  | Resume k => pair k <$> emitted s s'
  | _ => []
  end.

Lemma lines_of_app k log1 log2 :
  lines_of k (log1 ++ log2) = lines_of k log1 ++ lines_of k log2.
Proof. unfold lines_of. by rewrite filter_app, fmap_app. Qed.

Lemma lines_of_tagged k k0 (lines : list LogLine) :
  lines_of k (pair k0 <$> lines) = if decide (k0 = k) then lines else [].
Proof.
  unfold lines_of. destruct (decide (k0 = k)) as [Heq|Hne].
  - induction lines as [|line lines IH]; [done|].
    rewrite fmap_cons, filter_cons, decide_True, fmap_cons by done.
    by rewrite IH.
  - induction lines as [|line lines IH]; [done|].
    by rewrite fmap_cons, filter_cons, decide_False.
Qed.

Lemma tagged_lines (k : nat) (lines : list LogLine) : (pair k <$> lines).*2 = lines.
Proof. induction lines as [|line lines IH]; [done|]. by rewrite !fmap_cons, IH. Qed.

Lemma emitted_app s s' lines :
  printed s' = printed s ++ lines → emitted s s' = lines.
Proof. intros Hp. unfold emitted. by rewrite Hp, drop_app_length. Qed.

Lemma emitted_same s s' : printed s' = printed s → emitted s s' = [].
Proof. intros Hp. apply emitted_app. by rewrite app_nil_r. Qed.

Section console.
Context `{Collaborators}.
Variable d : YoutubeDownloader.

(** One event, with the lines it prints added to the log; an event that
    is not possible is skipped. *)
Definition log_step (sl : Sys * list (nat * LogLine)) (e : Event) : Sys * list (nat * LogLine) :=
  match sys_step d e sl.1 with
  | Some s' => (s', sl.2 ++ step_log e sl.1 s')
  | None => sl
  end.

Definition sys_logged (events : list Event) (s : Sys) : Sys * list (nat * LogLine) :=
  foldl log_step (s, []) events.

(** ** The log and the console *)

Lemma sys_step_emitted e s s' :
  sys_step d e s = Some s' → printed s' = printed s ++ emitted s s'.
Proof.
  intros [lines Hl]%sys_step_printed. by rewrite (emitted_app s s' lines).
Qed.

(** Invocations and downloads print nothing. *)
Lemma step_log_lines e s s' :
  sys_step d e s = Some s' → (step_log e s s').*2 = emitted s s'.
Proof.
  destruct e as [|k|i]; simpl; intros He.
  - simplify_eq. by rewrite emitted_same.
  - apply tagged_lines.
  - destruct (fan_step d _ i _); simplify_eq/=. by rewrite emitted_same.
Qed.

(** What holds of the state and the log at the start, and is kept by every
    step, holds at the end of every run. *)
Lemma logged_invariant (P : Sys → list (nat * LogLine) → Prop) :
  (∀ e s s' log, P s log → sys_step d e s = Some s' →
                 P s' (log ++ step_log e s s')) →
  ∀ events s log, P s log →
    P (foldl log_step (s, log) events).1 (foldl log_step (s, log) events).2.
Proof.
  intros Hstep events. induction events as [|e events IH]; intros s log HP; [done|].
  simpl. unfold log_step at 2 4. simpl.
  destruct (sys_step d e s) as [s'|] eqn:He; apply IH; [by eapply Hstep|done].
Qed.

(** The logged run is the run. *)
Lemma sys_logged_run events s : (sys_logged events s).1 = sys_run d events s.
Proof.
  unfold sys_logged. generalize (@nil (nat * LogLine)).
  revert s. induction events as [|e events IH]; intros s log; [done|].
  simpl. unfold log_step at 2. simpl.
  destruct (sys_step d e s) as [s'|]; apply IH.
Qed.

(** The console holds the logged lines, in their order. *)
Lemma sys_logged_console events s :
  printed (sys_logged events s).1 = printed s ++ (sys_logged events s).2.*2.
Proof.
  apply (logged_invariant (λ s' log, printed s' = printed s ++ log.*2));
    [|by rewrite app_nil_r].
  intros e s1 s2 log Hp He.
  rewrite fmap_app, (step_log_lines e s1 s2 He), app_assoc, <- Hp.
  by apply (sys_step_emitted e).
Qed.

(** ** What a call alone prints *)

Variable w0 : World.
Variable sched : list nat.
Hypothesis d_wf : downloader_wf d.

(** The console of a call of [downloadPlaylist] made alone, from the file
    system of the start and an empty console. *)
Definition alone_console : list LogLine :=
  console (downloadPlaylist d sched {| fs := fs w0; console := [] |}).1.

Lemma alone_silent :
  falsy_opt (searchParams_get "list" (searchParams (url d))) = true →
  alone_console = [].
Proof. intros Hf. unfold alone_console, downloadPlaylist. by rewrite Hf. Qed.

Section listing.
Variable playlistId : string.
Hypothesis Hid : searchParams_get "list" (searchParams (url d)) = Some playlistId.
Hypothesis Hne : playlistId ≠ "".

Lemma alone_banner e : ytpl playlistId = inl e → alone_console = [banner].
Proof.
  intros Hy. unfold alone_console.
  rewrite (downloadPlaylist_guard _ _ _ playlistId) by done.
  by rewrite (download_listed_rejected _ _ _ _ e).
Qed.

Lemma alone_report listed rs :
  ytpl playlistId = inr listed →
  (download_each d (items listed) (folder_made d w0)).2 = Return rs →
  alone_console =
  [banner; playlist_line (playlist_title listed)] ++
  render (run_report (declared <$> items listed) rs).
Proof.
  intros Hy Hrs. unfold alone_console.
  rewrite (downloadPlaylist_guard _ _ _ playlistId) by done.
  by rewrite (download_listed_report _ _ _ _ listed rs).
Qed.

Lemma alone_announced listed :
  ytpl playlistId = inr listed →
  [banner; playlist_line (playlist_title listed)] `prefix_of` alone_console.
Proof.
  intros Hy.
  destruct (download_each d (items listed) (folder_made d w0)).2
    as [rs|e|] eqn:Hrs.
  - rewrite (alone_report listed rs) by done. by eexists.
  - rewrite (download_each_completion d (folder_made d w0) _ _ eq_refl) in Hrs.
    by destruct (mapM _ _).
  - unfold alone_console.
    rewrite (proj2 (downloadPlaylist_hangs d sched
                      {| fs := fs w0; console := [] |} playlistId listed
                      d_wf Hid Hne Hy Hrs)).
    by exists [].
Qed.

End listing.

(** ** The lines of a call *)

(** What a call has printed, by where it is. *)
Definition call_lines (c : Call) : list LogLine :=
  match c with
  | AwaitFolder _ _ => []
  | AwaitListing _ => [banner]
  | AwaitAll listed _ => [banner; playlist_line (playlist_title listed)]
  | Finished _ => alone_console
  end.

(** The log has, of every call, the lines of where the call is, and no
    line of a call that has not been made. *)
Definition log_ok (s : Sys) (log : list (nat * LogLine)) : Prop :=
  ∀ k, lines_of k log = from_option call_lines [] (calls s !! k).

Lemma call_lines_prefix c :
  call_origin d c → call_lines c `prefix_of` alone_console.
Proof.
  destruct c as [id missing|id|listed first|r]; simpl.
  - intros _. apply prefix_nil.
  - intros [Hid Hne]. destruct (ytpl id) as [e|listed] eqn:Hy.
    + by rewrite (alone_banner id Hid Hne e).
    + etrans; [|by apply (alone_announced id Hid Hne listed)].
      by exists [playlist_line (playlist_title listed)].
  - intros (id & Hid & Hne & Hy). by apply (alone_announced id).
  - done.
Qed.

Hypothesis fs0_wf : fs_wf (fs w0).
Hypothesis folder_not_file : is_file (outputFolder d) (fs w0) = false.

(** The lines the resumption of a call prints take it from the lines of
    where it was to the lines of where it is. *)
Lemma resume_emits k c s s' :
  sys_reach d w0 s → calls s !! k = Some c →
  sys_step d (Resume k) s = Some s' →
  ∃ c', calls s' = <[k := c']> (calls s) ∧
        call_lines c ++ emitted s s' = call_lines c'.
Proof.
  intros Hr Hk He.
  pose proof (Forall_at
    (proj2 (sys_reach_wf d w0 d_wf fs0_wf s Hr)) k c Hk) as Ho.
  destruct c as [id missing|id|listed first|r].
  - rewrite (sys_step_resume d k _ s _ _ Hk (resume_folder_made d id missing s
      (folder_free d w0 d_wf fs0_wf folder_not_file s Hr))) in He.
    simplify_eq. exists (AwaitListing id). split; [done|].
    by rewrite (emitted_app _ _ [banner]) by done.
  - destruct Ho as [Hid Hne]. unfold sys_step in He. rewrite Hk in He.
    simpl in He. destruct (ytpl id) as [e|listed] eqn:Hy; simplify_eq/=.
    + exists (Finished (Throw e)). split; [done|].
      rewrite emitted_same by done. simpl.
      by rewrite (alone_banner id Hid Hne e).
    + exists (AwaitAll listed (length (handed s))). split; [done|].
      by rewrite (emitted_app _ _ [playlist_line (playlist_title listed)]) by done.
  - destruct Ho as (id & Hid & Hne & Hy).
    destruct (fan_results (call_tasks first (length (items listed)) (fan s)))
      as [rs|] eqn:Hrs;
      [|unfold sys_step in He; rewrite Hk in He; simpl in He;
        by rewrite Hrs in He].
    rewrite (resume_reports d s k listed first Hk rs Hrs) in He. simplify_eq.
    exists (Finished (Return tt)). split; [done|].
    rewrite (emitted_app _ _ (render (run_report (declared <$> items listed) rs)))
      by done.
    symmetry. apply (alone_report id Hid Hne listed rs Hy).
    by apply (call_results_sequential d w0 d_wf folder_not_file s k listed first).
  - unfold sys_step in He. rewrite Hk in He. done.
Qed.

Lemma log_ok_step e s s' log :
  sys_reach d w0 s → log_ok s log → sys_step d e s = Some s' →
  log_ok s' (log ++ step_log e s s').
Proof.
  intros Hr Hlog He k. rewrite lines_of_app, Hlog. destruct e as [|k0|i].
  - simpl in He. simplify_eq. simpl. rewrite app_nil_r.
    destruct (decide (k < length (calls s))) as [Hlt|Hge];
      [by rewrite lookup_app_l|].
    rewrite lookup_app_r, (lookup_ge_None_2 (calls s)) by lia.
    destruct (k - length (calls s)) as [|n]; [|done]. simpl.
    destruct (falsy_opt _) eqn:Hf; [|done]. simpl. by rewrite alone_silent.
  - simpl. rewrite lines_of_tagged.
    destruct (calls s !! k0) as [c|] eqn:Hk0;
      [|unfold sys_step in He; by rewrite Hk0 in He].
    destruct (resume_emits k0 c s s' Hr Hk0 He) as (c' & -> & Hlines).
    case_decide as Hkk.
    + subst k0. rewrite Hk0, list_lookup_insert_eq by by eapply lookup_lt_Some.
      done.
    + by rewrite list_lookup_insert_ne, app_nil_r.
  - simpl in He. destruct (fan_step d _ i _); simplify_eq/=.
    by rewrite app_nil_r.
Qed.

Lemma sys_logged_ok events :
  sys_reach d w0 (sys_logged events (sys_init d w0)).1 ∧
  log_ok (sys_logged events (sys_init d w0)).1
         (sys_logged events (sys_init d w0)).2.
Proof.
  apply (logged_invariant (λ s log, sys_reach d w0 s ∧ log_ok s log));
    [|split; [apply rtc_refl|by intros k]].
  intros e s s' log [Hr Hlog] He.
  split; [by eapply (sys_reach_step d w0)|by apply log_ok_step].
Qed.

(** ** The theorem *)

(** C15: the console of overlapping calls is an interleaving of the consoles
    of the calls alone: after any events, the console holds the lines the
    resumptions printed, in their order; the lines printed by one call are,
    in their order, the first lines of what [downloadPlaylist] prints when
    called alone; and they are all its lines once the call has completed.
    The path of the output folder is assumed not to be that of a regular
    file. *)
Theorem console_interleaves events k :
  printed (sys_run d events (sys_init d w0)) =
    console w0 ++ (sys_logged events (sys_init d w0)).2.*2 ∧
  lines_of k (sys_logged events (sys_init d w0)).2 `prefix_of` alone_console ∧
  (∀ r, calls (sys_run d events (sys_init d w0)) !! k = Some (Finished r) →
        lines_of k (sys_logged events (sys_init d w0)).2 = alone_console).
Proof.
  rewrite <- (sys_logged_run events).
  destruct (sys_logged_ok events) as [Hr Hlog].
  split; [apply sys_logged_console|]. rewrite (Hlog k). split.
  - destruct (calls _ !! k) as [c|] eqn:Hk; [|apply prefix_nil]. simpl.
    apply call_lines_prefix.
    by apply (Forall_at
      (proj2 (sys_reach_wf d w0 d_wf fs0_wf _ Hr)) k).
  - by intros r ->.
Qed.

End console.

(** ** On the playlists of the demonstration *)

Module ConsoleDemo.
Import Demo DemoDownloader FanoutDemo PlaylistDemo CallsDemo.

(** Two calls made before the folder exists, run to their end. *)
Definition racing_to_end : list Event :=
  racing ++ (Step <$> mjoin (replicate 5 (seq 0 6))) ++ [Resume 0; Resume 1].

Lemma console_interleaves_witness :
  lines_of 1 (sys_logged demo racing_to_end (sys_init demo world0)).2
  = alone_console demo world0 [].
Proof.
  apply (proj2 (proj2 (console_interleaves demo world0 [] demo_wf fs_empty_wf
                         eq_refl racing_to_end 1)) (Return tt)).
  vm_compute. reflexivity.
Defined.

End ConsoleDemo.
