(* ===== verification/Files.v ===== *)
(** * The files the calls leave

    Calls that overlap on one downloader write to the same paths: the URL
    and the folder are fields of the object, so every call downloads the
    items of the same playlist.  What a file holds while two downloads
    write to it is outside the model of the file system; whether the file
    is there is not, and this file shows what the catch block of
    [downloadSingle] promises of it across the calls.

    Two facts hold of a path in every state the calls reach ([fan_files]):

    - when every download to the path has returned a failure, no file is
      at the path: the last of them to return removed it, and no download
      has opened it since ([path_failed]);
    - when no download to the path is bound to fail and one of them has
      started, the file is at the path: the download that started opened
      it, and the downloads that write to it never remove it
      ([path_kept]).

    A path to which one download fails and another succeeds is covered by
    neither: whether the file is there at the end depends on which of the
    two returned last.  When no two items of the playlist share a path the
    downloads to a path are downloads of one item and are bound for one
    result, so once all have returned the file of an item is there exactly
    when its download succeeded ([calls_files]). *)

From S2P Require Import Prelude Js Types FileSystem Collab Limiter Downloader.
From S2P Require Import Single Report Fanout Wellformed Bounds Capacity.
From S2P Require Import Join Playlist Calls Sound Completion.

Open Scope string_scope.
Open Scope list_scope.
Open Scope nat_scope.

(** Whether a result is a failure; a download that never returns has not
    failed. *)
Definition failing (o : option DownloadResult) : bool :=
  from_option (λ r, negb (success r)) false o.

Section files.
Context `{Collaborators}.
Variable d : YoutubeDownloader.

Section one_state.
Variable items : list YtplItem.
Variable fs0 : FS.

(** Task [i] writes to [p], and is in phase [ph]. *)
Definition on_path (p : string) (s : Fan) (i : nat) (ph : Phase) : Prop :=
  ∃ it, items !! i = Some it ∧ task_path d it = p ∧ phases s !! i = Some ph.

(** Every download to [p] has returned a failure, and there is one. *)
Definition path_failed (p : string) (s : Fan) : Prop :=
  (∃ i ph, on_path p s i ph) ∧
  ∀ i ph, on_path p s i ph → is_Done ph = true ∧ failing (destiny ph) = true.

(** A download to [p] has started, and none is bound to fail. *)
Definition path_kept (p : string) (s : Fan) : Prop :=
  (∃ i ph, on_path p s i ph ∧ is_Queued ph = false) ∧
  ∀ it, it ∈ items → task_path d it = p →
        failing (item_result d fs0 it) = false.

Definition fan_files (s : Fan) : Prop :=
  ∀ p, (path_failed p s → is_file p (ffs s) = false) ∧
       (path_kept p s → is_file p (ffs s) = true).

(** What the invariant is proved with: every task has a phase, and the
    tasks started are bound for the results of their items. *)
Definition files_inv (s : Fan) : Prop :=
  length (phases s) = length items ∧ fan_destined d items fs0 s ∧ fan_files s.

(** ** One task changes its phase *)

(** The tasks to another path are as they were. *)
Lemma on_path_other p s i it ph' fs' j ph :
  items !! i = Some it → task_path d it ≠ p →
  on_path p (set_phase i ph' fs' s) j ph ↔ on_path p s j ph.
Proof.
  intros Hit Hne. unfold on_path. simpl.
  destruct (decide (i = j)) as [<-|Hij]; [|by rewrite list_lookup_insert_ne].
  split; intros (it' & Hit' & Hp & _); by simplify_eq.
Qed.

Lemma on_path_self s i it ph ph' fs' :
  items !! i = Some it → phases s !! i = Some ph →
  on_path (task_path d it) (set_phase i ph' fs' s) i ph'.
Proof.
  intros Hit Hph. exists it. split; [done|]. split; [done|]. simpl.
  apply list_lookup_insert_eq. by eapply lookup_lt_Some.
Qed.

(** The invariant is kept when a task changes its phase and the files as
    a download does: the other paths are left alone, a download that
    returns a failure leaves no file, and a download that is not bound to
    fail leaves its file where it is, or makes it when it starts. *)
Lemma files_update s i it ph ph' fs' :
  fan_files s → items !! i = Some it → phases s !! i = Some ph →
  (∀ q, task_path d it ≠ q → is_file q fs' = is_file q (ffs s)) →
  (is_Done ph' = true → failing (destiny ph') = true →
   is_file (task_path d it) fs' = false) →
  (failing (item_result d fs0 it) = false →
   (is_Queued ph = false → is_file (task_path d it) (ffs s) = true) →
   is_file (task_path d it) fs' = true) →
  fan_files (set_phase i ph' fs' s).
Proof.
  intros Hs Hit Hph Hframe Hfail Hkeep p.
  destruct (decide (task_path d it = p)) as [<-|Hne].
  - split.
    + intros [_ Hall].
      destruct (Hall i ph' (on_path_self s i it ph ph' fs' Hit Hph)); auto.
    + intros [_ Hall]. simpl. apply Hkeep.
      * apply Hall; [by eapply list_elem_of_lookup_2|done].
      * intros Hq. apply (Hs (task_path d it)). split; [|done].
        exists i, ph. split; [by exists it|done].
  - pose proof (λ j phj, on_path_other p s i it ph' fs' j phj Hit Hne) as Ho.
    simpl. rewrite Hframe by done. split.
    + intros [(j & phj & Hj) Hall]. apply (Hs p). split.
      * exists j, phj. by apply Ho.
      * intros j' phj' Hj'. by apply (Hall j' phj'), Ho.
    + intros [(j & phj & Hj & Hq) Hall]. apply (Hs p). split; [|done].
      exists j, phj. split; [by apply Ho|done].
Qed.

(** ** The steps of a download *)

(** A download that starts leaves the other paths alone, and makes its
    file unless it is bound to fail. *)
Lemma task_start_frame path url q fs :
  path ≠ q → is_file q (task_start d path url fs).2 = is_file q fs.
Proof. intros Hne. by apply is_file_ext, task_start_other. Qed.

Lemma expected_result_opens path url fs :
  failing (expected_result d path url fs) = false →
  open_error (outputFolder d) path fs = None.
Proof.
  unfold expected_result, expected_events.
  by destruct (open_error (outputFolder d) path fs).
Qed.

(** A step leaves the other paths alone; the step that returns a failure
    removes the file; the steps of a download that is not bound to fail
    leave the file where it is. *)
Lemma task_step_frame path q ph fs ph' fs' :
  task_step path ph fs = Some (ph', fs') → path ≠ q →
  is_file q fs' = is_file q fs.
Proof. intros Hstep Hne. by eapply is_file_ext, task_step_other. Qed.

Lemma task_step_cleaned path ph fs ph' fs' :
  task_step path ph fs = Some (ph', fs') →
  is_Done ph' = true → failing (destiny ph') = true → is_file path fs' = false.
Proof.
  task_step_cases; try done.
  intros _ _. apply unlink_is_file.
Qed.

Lemma task_step_kept path ph fs ph' fs' :
  task_step path ph fs = Some (ph', fs') → failing (destiny ph) = false →
  is_file path fs' = is_file path fs.
Proof.
  task_step_cases; try done.
  intros _. apply write_chunk_is_file.
Qed.

(** ** The operations of the fan-out *)

Lemma files_start s i : files_inv s → files_inv (start d items i s).
Proof.
  intros (Hlen & Hd & Hs). destruct (items !! i) as [it|] eqn:Hit;
    [|unfold start; by rewrite Hit].
  split; [|split; [by apply destined_start|]].
  { rewrite (start_eq _ _ _ it) by done. simpl. by rewrite length_insert. }
  destruct (lookup_lt_is_Some_2 (phases s) i) as [ph Hph];
    [rewrite Hlen; by eapply lookup_lt_Some|].
  rewrite (start_eq _ _ _ it) by done.
  apply (files_update _ _ it ph); [done|done|done| |done|].
  { intros q Hq.
    pose proof (task_start_frame (task_path d it) (shortUrl it) q (ffs s) Hq) as Ho.
    by rewrite task_start_eq in Ho. }
  intros Hok _. apply open_write_is_file, (expected_result_opens _ (shortUrl it)).
  destruct Hd as [Hd _]. unfold item_result in Hok.
  by rewrite (expected_result_proper _ _ _ _ _ Hd).
Qed.

Lemma files_resume s : files_inv s → files_inv (fan_resume d items s).
Proof.
  intros Hs. unfold fan_resume.
  destruct (resumeNext (lim s)) as [[t|] l']; simpl; [by apply files_start|done].
Qed.

Lemma files_submit s i : files_inv s → files_inv (fan_submit d items s i).
Proof. intros. rewrite fan_submit_resume. by apply files_resume. Qed.

Lemma files_submits (l : list nat) s :
  files_inv s → files_inv (foldl (fan_submit d items) s l).
Proof.
  revert s. induction l as [|i l IH]; intros s Hs; [done|].
  simpl. by apply IH, files_submit.
Qed.

Lemma files_task_step s i it ph ph' fs' :
  files_inv s → items !! i = Some it → phases s !! i = Some ph →
  task_step (task_path d it) ph (ffs s) = Some (ph', fs') →
  files_inv (set_phase i ph' fs' s).
Proof.
  intros (Hlen & Hd & Hs) Hit Hph Hstep.
  split; [simpl; by rewrite length_insert|].
  split; [by eapply destined_task_step|].
  apply (files_update _ _ it ph); [done..| | |].
  - intros q Hq. by eapply task_step_frame.
  - by eapply task_step_cleaned.
  - intros Hok Hfile. rewrite (task_step_kept _ _ _ _ _ Hstep).
    + apply Hfile, active_not_Queued. by eapply task_step_active.
    + destruct Hd as [_ Hd]. rewrite (Hd i it ph); [done..|].
      apply active_not_Queued. by eapply task_step_active.
Qed.

Lemma files_step i s s' :
  files_inv s → fan_step d items i s = Some s' → files_inv s'.
Proof.
  intros Hs (it & ph & ph' & fs' & Hit & Hph & Hstep & ->)%fan_step_Some.
  pose proof (files_task_step _ _ _ _ _ _ Hs Hit Hph Hstep) as Hs'.
  destruct (is_Done ph'); [|done].
  rewrite fan_finish_resume. by apply files_resume.
Qed.

(** Making a directory changes no file. *)
Lemma files_with_fs s fs1 :
  (∀ q, is_file q fs1 = is_file q (ffs s)) → fan_files s →
  fan_files {| lim := lim s; phases := phases s; ffs := fs1 |}.
Proof. intros Hfs Hs p. simpl. rewrite Hfs. apply (Hs p). Qed.

(** With no item there is no path to speak of. *)
Lemma files_none s : items = [] → fan_files s.
Proof.
  intros Hnil p. split.
  - intros [(i & ph & it & Hit & _) _]. by rewrite Hnil in Hit.
  - intros [(i & ph & (it & Hit & _) & _) _]. by rewrite Hnil in Hit.
Qed.

End one_state.

(** ** One more call hands its items over *)

Section join.
Variable handed new : list YtplItem.
Variable fs0 : FS.

Lemma on_path_extend p s i ph :
  on_path handed p s i ph → on_path (handed ++ new) p (fan_extend new s) i ph.
Proof.
  intros (it & Hit & Hp & Hph). exists it.
  split; [by apply lookup_app_l_Some|]. split; [done|].
  by apply lookup_app_l_Some.
Qed.

(** A task that has started is a task of the items handed over before. *)
Lemma on_path_extended p s i ph :
  length (phases s) = length handed → is_Queued ph = false →
  on_path (handed ++ new) p (fan_extend new s) i ph → on_path handed p s i ph.
Proof.
  intros Hlen Hq (it & Hit & Hp & [Hph|[_ ->]]%fan_extend_lookup); [|done].
  exists it. split; [|done]. rewrite <- Hit. symmetry.
  apply lookup_app_l. rewrite <- Hlen. by eapply lookup_lt_Some.
Qed.

Lemma files_extend s :
  files_inv handed fs0 s → files_inv (handed ++ new) fs0 (fan_extend new s).
Proof.
  intros (Hlen & Hd & Hs).
  split; [simpl; rewrite !length_app, length_replicate; lia|].
  split; [by apply fan_extend_destined|]. intros p. simpl. split.
  - intros [(i & ph & Hi) Hall]. apply (Hs p).
    assert (∀ j phj, on_path (handed ++ new) p (fan_extend new s) j phj →
                     on_path handed p s j phj) as Hback.
    { intros j phj Hj. apply on_path_extended; [done| |done].
      destruct (Hall j phj Hj) as [Hdone _]. by destruct phj. }
    split; [exists i, ph; by apply Hback|].
    intros j phj Hj. by apply (Hall j phj), on_path_extend.
  - intros [(i & ph & Hi & Hq) Hall]. apply (Hs p). split.
    + exists i, ph. split; [by apply on_path_extended|done].
    + intros it Hin. apply Hall, elem_of_app. by left.
Qed.

Lemma files_join s :
  files_inv handed fs0 s →
  files_inv (handed ++ new) fs0 (fan_join d handed new s).
Proof. intros Hs. by apply files_submits, files_extend. Qed.

End join.

(** ** The calls *)

Section calls.
Variable w0 : World.
Hypothesis d_wf : downloader_wf d.
Hypothesis fs0_wf : fs_wf (fs w0).
Hypothesis folder_not_file : is_file (outputFolder d) (fs w0) = false.

Definition sys_files (s : Sys) : Prop :=
  fan_files (handed s) (folder_made d w0) (fan s).

Lemma resume_files c s c' s' :
  sys_inv d w0 s → (sys_unmade d w0 s → before_folder c) → sys_files s →
  resume d c s = Some (c', s') → sys_files s'.
Proof.
  intros [[(Hsync & _) _] Hb] Hc Hs Hr. unfold sys_files.
  destruct c as [id missing|id|listed first|r]; [| | |done].
  - apply resume_folder_fan in Hr as [-> ->]. apply files_with_fs; [|done].
    intros q. destruct missing; [apply mkdir_recursive_is_file|done].
  - destruct Hb as [Hu|Hdest]; [by destruct (Hc Hu)|]. simpl in Hr.
    destruct (ytpl id) as [e|listed]; simplify_eq/=; [done|].
    apply files_join. split; [apply Hsync|done].
  - by apply resume_awaited in Hr as [-> ->].
Qed.

Lemma sys_step_files e s s' :
  sys_inv d w0 s → sys_files s → sys_step d e s = Some s' → sys_files s'.
Proof.
  intros Hinv Hs He. destruct e as [|k|i].
  - simpl in He. by simplify_eq.
  - apply sys_step_Resume in He as (c & c' & s1 & Hk & Hr & -> & _).
    apply (resume_files c s c' s1); [done| |done..].
    intros (_ & _ & _ & Hc). by apply (Forall_at Hc k).
  - simpl in He. destruct (fan_step d _ i _) as [f|] eqn:Hi; simplify_eq/=.
    destruct Hinv as [[(Hsync & _) _] [Hu|Hdest]];
      [by rewrite (sys_unmade_idle d w0) in Hi|].
    eapply files_step; [|done]. split; [apply Hsync|done].
Qed.

(** In every state the calls reach, the paths whose downloads have all
    failed hold no file, and the paths written to by downloads that do
    not fail hold one. *)
Lemma sys_reach_files s : sys_reach d w0 s → sys_files s.
Proof.
  revert s. apply rtc_ind_r; [by apply files_none|].
  intros s1 s2 Hr1 [e He] Hs. apply (sys_step_files e s1); [|done..].
  by apply sys_reach_inv.
Qed.

(** *** One playlist *)

Section listing.
Variable playlistId : string.
Variable listed : YtplResult.
Hypothesis url_list :
  searchParams_get "list" (searchParams (url d)) = Some playlistId.
Hypothesis lister_returns : ytpl playlistId = inr listed.

(** Every item handed over is an item of the playlist the URL names. *)
Lemma resume_listed c s c' s' :
  call_origin d c → resume d c s = Some (c', s') →
  Forall (.∈ items listed) (handed s) → Forall (.∈ items listed) (handed s').
Proof.
  intros Ho Hr Hs. destruct c as [id missing|id|listed' first|r]; [| | |done].
  - by apply resume_folder_fan in Hr as [-> _].
  - destruct Ho as [Hid _]. simpl in Hr. assert (id = playlistId) as -> by congruence.
    rewrite lister_returns in Hr. simplify_eq/=.
    apply Forall_app. split; [done|]. by apply Forall_forall.
  - by apply resume_awaited in Hr as [_ ->].
Qed.

Lemma sys_reach_listed s :
  sys_reach d w0 s → Forall (.∈ items listed) (handed s).
Proof.
  revert s. apply rtc_ind_r; [apply Forall_nil_2|].
  intros s1 s2 Hr1 [e He] Hs. destruct e as [|k|i].
  - simpl in He. by simplify_eq.
  - apply sys_step_Resume in He as (c & c' & s1' & Hk & Hr & -> & _).
    apply (resume_listed c s1 c' s1'); [|done..].
    destruct (sys_reach_wf d w0 d_wf fs0_wf s1 Hr1) as [_ Ho].
    by apply (Forall_at Ho k).
  - simpl in He. destruct (fan_step d _ i _) as [f|]; by simplify_eq/=.
Qed.

Hypothesis paths_distinct : distinct_paths d (items listed).

(** The downloads to one path are downloads of one item. *)
Lemma same_path_same_item s i j it it' :
  sys_reach d w0 s → handed s !! i = Some it → handed s !! j = Some it' →
  task_path d it' = task_path d it → it' = it.
Proof.
  intros Hall%sys_reach_listed Hi Hj Hp.
  apply (Forall_at Hall i it), list_elem_of_lookup in Hi as [n Hn].
  apply (Forall_at Hall j it'), list_elem_of_lookup in Hj as [m Hm].
  pose proof (NoDup_fmap_lookup (task_path d) _ m n it' it paths_distinct Hm Hn Hp).
  congruence.
Qed.

(** A download that has returned has returned what its item was bound
    for. *)
Lemma returned_result s i it r :
  sys_reach d w0 s → handed s !! i = Some it →
  phases (fan s) !! i = Some (Done r) →
  item_result d (folder_made d w0) it = Some r.
Proof.
  intros [_ [(_ & _ & Hh & _)|[_ Hd]]]%(sys_reach_inv d w0 d_wf folder_not_file)
    Hi Hph; [by rewrite Hh in Hi|].
  by rewrite <- (Hd i it (Done r)).
Qed.

(** Once every download has returned, the downloads to the path of an
    item have all returned the result of the item. *)
Lemma downloads_agree s i it r j ph :
  sys_reach d w0 s → Forall (λ ph, is_Done ph = true) (phases (fan s)) →
  handed s !! i = Some it → phases (fan s) !! i = Some (Done r) →
  on_path (handed s) (task_path d it) (fan s) j ph → ph = Done r.
Proof.
  intros Hr Hdone Hi Hph (it' & Hj & Hp & Hphj).
  rewrite (same_path_same_item s i j it it' Hr Hi Hj Hp) in Hj.
  pose proof (Forall_at Hdone j ph Hphj) as Hd.
  destruct ph as [| | |rj]; try done. f_equal.
  pose proof (returned_result s i it r Hr Hi Hph).
  pose proof (returned_result s j it rj Hr Hj Hphj). congruence.
Qed.

(** C18: the files the calls leave.  When no two items of the playlist
    share an output path, then, in any state that any number of calls on
    the downloader reach, however they and their downloads interleave,
    once every download has returned the file of an item is there exactly
    when the download of the item succeeded: a failed download leaves no
    file behind although other calls wrote to the same path, and no call
    removes the file of a download that succeeded. *)
Theorem calls_files s rs i it r :
  sys_reach d w0 s → fan_results (fan s) = Some rs →
  handed s !! i = Some it → rs !! i = Some r →
  is_file (task_path d it) (ffs (fan s)) = success r.
Proof.
  intros Hr Hrs%fan_results_Some Hi Hri.
  assert (phases (fan s) !! i = Some (Done r)) as Hph
    by (by rewrite Hrs, list_lookup_fmap, Hri).
  assert (Forall (λ ph, is_Done ph = true) (phases (fan s))) as Hdone
    by (rewrite Hrs; by apply Forall_fmap, Forall_true).
  pose proof (returned_result s i it r Hr Hi Hph) as Hres.
  destruct (sys_reach_files s Hr (task_path d it)) as [Hfail Hkeep].
  assert (on_path (handed s) (task_path d it) (fan s) i (Done r)) as Hon
    by by exists it.
  destruct (success r) eqn:Hok.
  - apply Hkeep. split; [by exists i, (Done r)|].
    intros it' [j Hj]%list_elem_of_lookup Hp.
    rewrite (same_path_same_item s i j it it' Hr Hi Hj Hp), Hres. simpl.
    by rewrite Hok.
  - apply Hfail. split; [by exists i, (Done r)|]. intros j ph Hj.
    rewrite (downloads_agree s i it r j ph Hr Hdone Hi Hph Hj). simpl.
    by rewrite Hok.
Qed.

End listing.
End calls.
End files.

(** ** On the playlist of the demonstration *)

Module FilesDemo.
Import Demo DemoDownloader FanoutDemo PlaylistDemo CallsDemo.

(** The two racing calls, with all their downloads taken to the end. *)
Definition both_done : Sys :=
  sys_run demo (racing ++ (Step <$> mjoin (replicate 5 (seq 0 6))))
    (sys_init demo world0).

(** Both calls downloaded [B], both downloads failed, and no file of [B]
    is left; both downloaded [A], and its file is there. *)
Lemma calls_files_witness :
  is_file (task_path demo (item "B")) (ffs (fan both_done)) = false.
Proof.
  refine (calls_files demo world0 demo_wf fs_empty_wf eq_refl "PL1" mix
            eq_refl _ its_distinct both_done
            [result_ok; result_failed "Status code: 403"; result_ok;
             result_ok; result_failed "Status code: 403"; result_ok]
            4 (item "B") (result_failed "Status code: 403") _ _ _ _);
    [vm_compute; reflexivity|apply sys_run_rtc|vm_compute; reflexivity..].
Defined.

End FilesDemo.
